(** * RA-SZZ: refactoring-aware blame (src/ra_szz.py)

    A shallow embedding of [RASZZ] and a verification of its refactoring
    cache, its impacted-file filter and its recursive blame.

    The two collaborators of the class are parameters of the development:
    RefactoringMiner (run through [subprocess.check_output]) and the parent
    class [MASZZ], whose [_blame] and [get_impacted_files] are reached
    through [super()]. *)

From stdpp Require Import gmap strings list fin_maps.
From Stdlib Require Import ZArith Lia Ascii.

Local Open Scope Z_scope.

Set Warnings "-clear-no-such-hyp,-register-all".

(** ** Data model *)

(** One element of ["rightSideLocations"] in RefactoringMiner's JSON. *)
Record Location := mkLocation {
  filePath : string;
  startLine : Z;
  endLine : Z
}.

(** One element of ["refactorings"]. *)
Record Refactoring := mkRefactoring {
  type : string;
  rightSideLocations : list Location
}.

Module BlameData.
(** Modelled from the spec: the class [BlameData] of the parent package is
    not among the sources.  The spec's BlameAttribution has a revision, a
    file path, a line number and a content, and is a set element as the
    whole tuple.  [commit] stands for [blame.commit.hexsha], the only part
    of the commit [RASZZ] reads. *)
Record t := mk {
  commit : string;
  line_num : Z;
  line_str : string;
  file_path : string
}.
End BlameData.

Module ImpactedFile.
(** Modelled from the spec: the class [ImpactedFile] of the parent package
    is not among the sources.  [RASZZ] reads [file_path] and iterates and
    reassigns [modified_lines]. *)
Record t := mk {
  file_path : string;
  modified_lines : list Z
}.
End ImpactedFile.

Module ReblameCandidate.
(** The class [ReblameCandidate] of lines 141-145. *)
Record t := mk {
  rev : string;
  file_path : string;
  modified_lines : list Z
}.
End ReblameCandidate.

#[global] Instance Location_eq_dec : EqDecision Location.
Proof. solve_decision. Defined.

#[global] Instance Refactoring_eq_dec : EqDecision Refactoring.
Proof. solve_decision. Defined.

#[global] Instance BlameData_eq_dec : EqDecision BlameData.t.
Proof. solve_decision. Defined.

#[global] Instance BlameData_countable : Countable BlameData.t.
Proof.
  refine (inj_countable'
    (fun b => (BlameData.commit b, BlameData.line_num b,
               BlameData.line_str b, BlameData.file_path b))
    (fun p => match p with (c, n, s, f) => BlameData.mk c n s f end) _).
  by intros [].
Defined.

#[global] Instance ImpactedFile_eq_dec : EqDecision ImpactedFile.t.
Proof. solve_decision. Defined.

#[global] Instance ReblameCandidate_eq_dec : EqDecision ReblameCandidate.t.
Proof. solve_decision. Defined.

(** *** What RefactoringMiner hands back

    [data = json.loads(out)] can be any JSON value.  Lines 35 and 36 read
    it through ['commits' in data], [len(data['commits']) > 0],
    ['refactorings' in data['commits'][0]] and
    [data['commits'][0]['refactorings']]; the types below follow a value
    along these expressions and tell an object, an array, a string and the
    rest apart at each of them, since Python does.  An array under
    ["refactorings"] is taken to be an array of refactoring objects as
    RefactoringMiner writes them, with the fields the loops of lines 54-58
    and 102-109 read; an array of anything else is outside the model. *)

(** [null], [true], [false] and the numbers: no [in], no [len], no
    subscript and no iteration. *)
Inductive Scalar :=
  | Null
  | Boolean (b : bool)
  | Number (literal : string).

(** A JSON value in a place where the code does not look inside it. *)
Inductive Json :=
  | JScalar (v : Scalar)
  | JString (s : string)
  | JArray (elements : list Json)
  | JObject (fields : list (string * Json)).

(** [data['commits'][0]['refactorings']], which is what the cache
    holds. *)
Inductive RefactoringsValue :=
  | RefactoringList (refs : list Refactoring)
  | RefactoringsObject (fields : list (string * Json))
  | RefactoringsString (s : string)
  | RefactoringsScalar (v : Scalar).

(** [data['commits'][0]]: an object, with the value of its key
    ["refactorings"] if it has one, or another value. *)
Inductive CommitEntry :=
  | mkCommitEntry (entry_refactorings : option RefactoringsValue)
  | EntryArray (elements : list Json)
  | EntryString (s : string)
  | EntryScalar (v : Scalar).

(** [data['commits']]. *)
Inductive CommitsValue :=
  | CommitList (entries : list CommitEntry)
  | CommitsObject (fields : list (string * Json))
  | CommitsString (s : string)
  | CommitsScalar (v : Scalar).

(** [data]: an object, with the value of its key ["commits"] if it has
    one, or another value. *)
Inductive DetectorData :=
  | mkDetectorData (data_commits : option CommitsValue)
  | DataArray (elements : list Json)
  | DataString (s : string)
  | DataScalar (v : Scalar).

(** The ways the first two lines of the [try] end.  [Completed None] is
    a run whose standard output is not JSON, on which [json.loads] raises;
    [NotUTF8] one whose output [decode] refuses; [NotStarted] a tool that
    is missing or cannot be run, on which [check_output] raises
    [OSError]. *)
Inductive DetectorRun :=
  | Completed (stdout : option DetectorData)
  | NotUTF8
  | CalledProcessError
  | TimeoutExpired
  | NotStarted.

(** The Python exceptions that leave the methods of the class.
    [KeyError0] is [KeyError(0)], of the subscript [[0]] on an object. *)
Inductive PyExn :=
  | KeyError (key : string)
  | KeyError0
  | TypeError
  | JSONDecodeError
  | UnicodeDecodeError
  | OSError.

#[global] Instance PyExn_eq_dec : EqDecision PyExn.
Proof. solve_decision. Defined.

(** A list object is named by its address in [heap]. *)
Definition ref := nat.

(** The arguments [super()._blame] receives; the remaining flags
    ([skip_comments], [ignore_whitespaces], ...) are handed down unchanged
    by every call and are part of the parameter [super_blame] below. *)
Record BlameCall := mkBlameCall {
  call_rev : string;
  call_file_path : string;
  call_modified_lines : list Z;
  call_ignore_revs_list : option (list string)
}.

(** An entry of the trace of [_blame] invocations: the arguments of the
    call to [super()._blame] that opens it, the list object that was
    passed as [ignore_revs_list], and the invocation that made the call at
    line 126, named by the index of its own entry in the trace ([None] for
    a call from outside). *)
Record BlameEvent := mkBlameEvent {
  ev_call : BlameCall;
  ev_ignore_ref : option ref;
  ev_caller : option nat
}.

(** ** Program state

    [refactorings] is [self.refactorings]; [heap] holds the Python list
    objects used as [ignore_revs_list].  The rest is ghost state.  The
    three traces are the RefactoringMiner runs, the [_blame] invocations
    and the reblame requests skipped by the [continue] of the cycle guard.
    [running] names the invocation of [_blame] that is executing, by the
    index of its entry in [blame_calls]: an invocation writes it when it
    logs its entry, and again when a call it made at line 126 returns; the
    invocation that starts reads it, so that the trace tells who called
    whom. *)
Record State := mkState {
  refactorings : gmap string RefactoringsValue;
  heap : list (list string);
  detector_calls : list string;
  blame_calls : list BlameEvent;
  dropped : list ReblameCandidate.t;
  running : option nat
}.

Definition set_refactorings (m : gmap string RefactoringsValue) (st : State) : State :=
  mkState m (heap st) (detector_calls st) (blame_calls st) (dropped st) (running st).

Definition set_heap (h : list (list string)) (st : State) : State :=
  mkState (refactorings st) h (detector_calls st) (blame_calls st) (dropped st) (running st).

Definition set_running (i : option nat) (st : State) : State :=
  mkState (refactorings st) (heap st) (detector_calls st) (blame_calls st) (dropped st) i.

Definition log_detector (commit : string) (st : State) : State :=
  mkState (refactorings st) (heap st) (detector_calls st ++ [commit])
          (blame_calls st) (dropped st) (running st).

(** The invocation that logs its entry is the one that runs from then
    on. *)
Definition log_blame (ev : BlameEvent) (st : State) : State :=
  mkState (refactorings st) (heap st) (detector_calls st)
          (blame_calls st ++ [ev]) (dropped st) (Some (length (blame_calls st))).

Definition log_drop (rc : ReblameCandidate.t) (st : State) : State :=
  mkState (refactorings st) (heap st) (detector_calls st)
          (blame_calls st) (dropped st ++ [rc]) (running st).

(** ** Outcomes and the state-and-exception monad

    An exception keeps the state reached when it was raised: Python does
    not roll mutations back.  [OutOfFuel] is the model's own: the recursion
    of [_blame] is cut after [fuel] nested calls. *)
Inductive Outcome (A : Type) :=
  | Ok (a : A) (st : State)
  | Raise (e : PyExn) (st : State)
  | OutOfFuel.

Arguments Ok {A} a st.
Arguments Raise {A} e st.
Arguments OutOfFuel {A}.

Definition M (A : Type) := State -> Outcome A.

Definition ret {A} (a : A) : M A := fun st => Ok a st.

Definition bind {A B} (m : M A) (k : A -> M B) : M B :=
  fun st =>
    match m st with
    | Ok a st' => k a st'
    | Raise e st' => Raise e st'
    | OutOfFuel => OutOfFuel
    end.

Notation "'let!' x ':=' m 'in' k" := (bind m (fun x => k))
  (at level 10, x pattern, m at level 100, k at level 200).
Notation "'run!' m 'in' k" := (bind m (fun _ => k))
  (at level 10, m at level 100, k at level 200).

(** The state an outcome ends in, when it ends. *)
Definition final_state {A} (o : Outcome A) : option State :=
  match o with
  | Ok _ st => Some st
  | Raise _ st => Some st
  | OutOfFuel => None
  end.

Definition terminated {A} (o : Outcome A) : Prop := is_Some (final_state o).

(** ** The class *)

(** [location] covers line [line] of [file_path]: the test
    [file_path == f.file_path and line >= from_line and line <= to_line]. *)
Definition covers (location : Location) (file_path : string) (line : Z) : bool :=
  bool_decide (filePath location = file_path)
  && (startLine location <=? line) && (line <=? endLine location).

Definition covered_by (refs : list Refactoring) (file_path : string) (line : Z) : bool :=
  existsb (fun r => existsb (fun loc => covers loc file_path line) (rightSideLocations r)) refs.

(** [sub in s] for two strings. *)
Fixpoint string_in (sub s : string) : bool :=
  String.prefix sub s
  || match s with
     | EmptyString => false
     | String _ s' => string_in sub s'
     end.

(** [key in elements] for a string and a list: an element is equal to the
    string when it is that string. *)
Definition list_in (key : string) (elements : list Json) : bool :=
  existsb (fun element => match element with
                          | JString s => String.eqb s key
                          | _ => false
                          end) elements.

(** Lines 35 and 36 on [data]: [Some] of the value line 36 stores when the
    test of line 35 holds, [None] when it does not, and the exception of
    the expression that cannot be evaluated: [in] and [len] on a scalar,
    a subscript by a string on an array or a string, [[0]] on an object. *)
Definition read_refactorings (data : DetectorData) : PyExn + option RefactoringsValue :=
  match data with
  | DataScalar _ => inl TypeError
  | DataString s => if string_in "commits" s then inl TypeError else inr None
  | DataArray elements => if list_in "commits" elements then inl TypeError else inr None
  | mkDetectorData None => inr None
  | mkDetectorData (Some commits) =>
      match commits with
      | CommitsScalar _ => inl TypeError
      | CommitsString _ => inr None
      | CommitsObject [] => inr None
      | CommitsObject (_ :: _) => inl KeyError0
      | CommitList [] => inr None
      | CommitList (first :: _) =>
          match first with
          | EntryScalar _ => inl TypeError
          | EntryString s => if string_in "refactorings" s then inl TypeError else inr None
          | EntryArray elements =>
              if list_in "refactorings" elements then inl TypeError else inr None
          | mkCommitEntry None => inr None
          | mkCommitEntry (Some value) => inr (Some value)
          end
      end
  end.

(** [for refactoring in value], with the subscript
    [refactoring['rightSideLocations']] that opens its body: the
    refactorings the loop goes through.  A scalar is not iterable; a string
    or an object that is not empty yields a string first, which has no
    such subscript. *)
Definition iter_refactorings (value : RefactoringsValue) : PyExn + list Refactoring :=
  match value with
  | RefactoringList refs => inr refs
  | RefactoringsObject [] => inr []
  | RefactoringsObject (_ :: _) => inl TypeError
  | RefactoringsString EmptyString => inr []
  | RefactoringsString (String _ _) => inl TypeError
  | RefactoringsScalar _ => inl TypeError
  end.

Section RASZZ.

(** RefactoringMiner on one commit.  Its answer may change from one run
    to the next, so it also sees the runs made so far. *)
Variable refminer : list string -> string -> DetectorRun.

(** [MASZZ._blame]: a set of [BlameData], given in its iteration order. *)
Variable super_blame : BlameCall -> list BlameData.t.

(** [set(super().get_impacted_files(...))], given in its iteration
    order. *)
Variable super_get_impacted_files : string -> list ImpactedFile.t.

(** The body of the [try] statement for one commit missing from the
    cache. *)
Definition run_refminer (commit : string) : M unit :=
  fun st =>
    let st' := log_detector commit st in
    let store value := set_refactorings (<[commit := value]> (refactorings st')) st' in
    match refminer (detector_calls st) commit with
    | NotStarted => Raise OSError st'
    | NotUTF8 => Raise UnicodeDecodeError st'
    | Completed None => Raise JSONDecodeError st'
    | Completed (Some data) =>
        match read_refactorings data with
        | inl e => Raise e st'
        | inr (Some value) => Ok tt (store value)
        | inr None => Ok tt (store (RefactoringList []))
        end
    | CalledProcessError => Ok tt st'
    | TimeoutExpired => Ok tt (store (RefactoringList []))
    end.

Fixpoint _extract_refactorings (commits : list string) : M unit :=
  match commits with
  | [] => ret tt
  | commit :: rest =>
      run! (fun st =>
              match refactorings st !! commit with
              | Some _ => Ok tt st
              | None => run_refminer commit st
              end)
      in _extract_refactorings rest
  end.

(** *** get_impacted_files *)

(** The body of [for f in impacted_files] for one location. *)
Definition strip_location (location : Location) (f : ImpactedFile.t) : ImpactedFile.t :=
  let lines_to_remove : gset Z :=
    foldl (fun acc modified_line =>
             if covers location (ImpactedFile.file_path f) modified_line
             then acc ∪ {[modified_line]} else acc)
          ∅ (ImpactedFile.modified_lines f) in
  ImpactedFile.mk (ImpactedFile.file_path f)
    (filter (fun line => line ∉ lines_to_remove) (ImpactedFile.modified_lines f)).

Definition strip_refactoring (impacted_files : list ImpactedFile.t) (refactoring : Refactoring)
  : list ImpactedFile.t :=
  foldl (fun fs location => map (strip_location location) fs)
        impacted_files (rightSideLocations refactoring).

Definition get_impacted_files (fix_commit_hash : string) : M (list ImpactedFile.t) :=
  let impacted_files := super_get_impacted_files fix_commit_hash in
  run! _extract_refactorings [fix_commit_hash] in
  (fun st =>
     match refactorings st !! fix_commit_hash with
     | None => Raise (KeyError fix_commit_hash) st
     | Some value =>
         match iter_refactorings value with
         | inl e => Raise e st
         | inr refs =>
             let impacted_files := foldl strip_refactoring impacted_files refs in
             Ok (filter (fun f => (0 < length (ImpactedFile.modified_lines f))%nat)
                        impacted_files) st
         end
     end).

(** *** _blame *)

(** The key of [to_reblame]:
    [blame.commit.hexsha + "@" + blame.file_path]. *)
Definition reblame_key (blame : BlameData.t) : string :=
  BlameData.commit blame +:+ "@"%string +:+ BlameData.file_path blame.

(** [to_reblame] is a dict, iterated in insertion order: an association
    list in that order, with at most one entry per key. *)
Definition dict_has (key : string) (to_reblame : list (string * ReblameCandidate.t)) : bool :=
  bool_decide (key ∈ to_reblame.*1).

(** [to_reblame[key].modified_lines.append(line)]. *)
Fixpoint dict_append_line (key : string) (line : Z)
    (to_reblame : list (string * ReblameCandidate.t)) : list (string * ReblameCandidate.t) :=
  match to_reblame with
  | [] => []
  | (k, rc) :: rest =>
      if decide (k = key)
      then (k, ReblameCandidate.mk (ReblameCandidate.rev rc) (ReblameCandidate.file_path rc)
                 (ReblameCandidate.modified_lines rc ++ [line])) :: rest
      else (k, rc) :: dict_append_line key line rest
  end.

(** The [if not key in to_reblame: ... else: ...] of lines 110-113. *)
Definition record_reblame (blame : BlameData.t)
    (to_reblame : list (string * ReblameCandidate.t)) : list (string * ReblameCandidate.t) :=
  if dict_has (reblame_key blame) to_reblame
  then dict_append_line (reblame_key blame) (BlameData.line_num blame) to_reblame
  else to_reblame ++
       [(reblame_key blame,
         ReblameCandidate.mk (BlameData.commit blame) (BlameData.file_path blame)
                             [BlameData.line_num blame])].

(** The body of [for location in ...]: the loop has no [break], every
    covering location records the line again. *)
Definition scan_location (blame : BlameData.t)
    (acc : list (string * ReblameCandidate.t) * bool) (location : Location)
  : list (string * ReblameCandidate.t) * bool :=
  if covers location (BlameData.file_path blame) (BlameData.line_num blame)
  then (record_reblame blame (fst acc), false)
  else acc.

Definition scan_refactoring (blame : BlameData.t)
    (acc : list (string * ReblameCandidate.t) * bool) (refactoring : Refactoring)
  : list (string * ReblameCandidate.t) * bool :=
  foldl (scan_location blame) acc (rightSideLocations refactoring).

(** The loop [for blame in candidate_blame_data] of lines 100-117, on the
    cache as it is after [_extract_refactorings]. *)
Fixpoint partition_blames (cache : gmap string RefactoringsValue)
    (candidate_blame_data : list BlameData.t)
    (to_reblame : list (string * ReblameCandidate.t))
    (result_blame_data : gset BlameData.t)
  : PyExn + (list (string * ReblameCandidate.t) * gset BlameData.t) :=
  match candidate_blame_data with
  | [] => inr (to_reblame, result_blame_data)
  | blame :: rest =>
      match cache !! BlameData.commit blame with
      | None => inl (KeyError (BlameData.commit blame))
      | Some value =>
          match iter_refactorings value with
          | inl e => inl e
          | inr refs =>
              let '(to_reblame', can_add) :=
                foldl (scan_refactoring blame) (to_reblame, true) refs in
              partition_blames cache rest to_reblame'
                (if can_add then result_blame_data ∪ {[blame]} else result_blame_data)
          end
      end
  end.

(** [l.copy()] allocates a list object; [l.append(x)] updates one.  An
    address that names no object reads as the empty list; Python has no
    such reference, and the theorems below are about allocated objects. *)
Definition list_copy (l : ref) (st : State) : ref * State :=
  (length (heap st), set_heap (heap st ++ [heap st !!! l]) st).

Definition list_append (l : ref) (x : string) (st : State) : State :=
  set_heap (<[l := (heap st !!! l) ++ [x]]> (heap st)) st.

(** One turn of [for _, reblame_candidate in to_reblame.items()];
    [rec] is the recursive call.  When it returns, the invocation that
    made it is running again. *)
Definition reblame_step
    (rec : string -> string -> list Z -> option ref -> M (gset BlameData.t))
    (ignore_revs_list : option ref)
    (result_blame_data : gset BlameData.t)
    (reblame_candidate : ReblameCandidate.t) : M (gset BlameData.t) :=
  fun st =>
    match ignore_revs_list with
    | None => Raise TypeError st
    | Some l =>
        if decide (ReblameCandidate.rev reblame_candidate ∈ heap st !!! l)
        then Ok result_blame_data (log_drop reblame_candidate st)
        else
          let '(new_ignore_revs_list, st1) := list_copy l st in
          let st2 := list_append new_ignore_revs_list
                       (ReblameCandidate.rev reblame_candidate) st1 in
          (let! new_blame_results :=
             rec (ReblameCandidate.rev reblame_candidate)
                 (ReblameCandidate.file_path reblame_candidate)
                 (ReblameCandidate.modified_lines reblame_candidate)
                 (Some new_ignore_revs_list)
           in fun st3 => Ok (result_blame_data ∪ new_blame_results)
                            (set_running (running st) st3)) st2
    end.

Fixpoint reblame_loop
    (rec : string -> string -> list Z -> option ref -> M (gset BlameData.t))
    (ignore_revs_list : option ref)
    (to_reblame : list ReblameCandidate.t)
    (result_blame_data : gset BlameData.t) : M (gset BlameData.t) :=
  match to_reblame with
  | [] => ret result_blame_data
  | reblame_candidate :: rest =>
      let! result_blame_data :=
        reblame_step rec ignore_revs_list result_blame_data reblame_candidate
      in reblame_loop rec ignore_revs_list rest result_blame_data
  end.

(** The call to [super()._blame] that opens [_blame], as it is traced. *)
Definition blame_event (rev file_path : string) (modified_lines : list Z)
    (ignore_revs_list : option ref) (st : State) : BlameEvent :=
  mkBlameEvent
    (mkBlameCall rev file_path modified_lines
                 ((fun l => heap st !!! l) <$> ignore_revs_list))
    ignore_revs_list
    (running st).

(** [commits = set([...])] is iterated in an order Python does not fix;
    the model takes the order of first occurrence. *)
Fixpoint _blame (fuel : nat) (rev file_path : string) (modified_lines : list Z)
    (ignore_revs_list : option ref) : M (gset BlameData.t) :=
  match fuel with
  | O => fun _ => OutOfFuel
  | S fuel' =>
      fun st =>
        let ev := blame_event rev file_path modified_lines ignore_revs_list st in
        let candidate_blame_data := super_blame (ev_call ev) in
        let commits := remove_dups (BlameData.commit <$> candidate_blame_data) in
        (run! _extract_refactorings commits in
         fun st1 =>
           match partition_blames (refactorings st1) candidate_blame_data [] ∅ with
           | inl e => Raise e st1
           | inr (to_reblame, result_blame_data) =>
               reblame_loop (_blame fuel') ignore_revs_list (to_reblame.*2)
                            result_blame_data st1
           end) (log_blame ev st)
  end.

End RASZZ.

(** * Issue harvesting (src/issues_extractor.py) *)

(** ** get_jira_issues

    The Jira server is a parameter: [search_issues] answers a search with
    a page of issues or raises, and may answer differently from one call to
    the next, so it sees what happened so far.  The trace records every
    search, with its [startAt] and whether it came back, and every
    [time.sleep]. *)
Inductive JiraEvent :=
  | Search (startAt : Z) (answered : bool)
  | Sleep (seconds : Z).

#[global] Instance JiraEvent_eq_dec : EqDecision JiraEvent.
Proof. solve_decision. Defined.

Inductive JiraOutcome (E A : Type) :=
  | JReturn (a : A) (trace : list JiraEvent)
  | JRaise (e : E) (trace : list JiraEvent)
  | JOutOfFuel.

Arguments JReturn {E A} a trace.
Arguments JRaise {E A} e trace.
Arguments JOutOfFuel {E A}.

Section GetJiraIssues.

(** The objects the [jira] library returns, the exceptions it raises. *)
Variable RawIssue : Type.
Variable E : Type.

(** [jira_conn.search_issues(jql, maxResults=bunch, startAt=...)]. *)
Variable search_issues : list JiraEvent -> Z -> Z -> E + list RawIssue.

(** The constructor [JiraIssue(issue, url)] of lines 27-47, which reads the
    fields of the library object by reflection; it may raise. *)
Variable JIssue : Type.
Variable JiraIssue : RawIssue -> E + JIssue.

(** The [while True] loop of lines 61-72; each turn takes one unit of
    [fuel]. *)
Fixpoint search_loop (fuel : nat) (bunch : Z) (all_issues : list RawIssue)
    (extracted_issues sleep_time : Z) (trace : list JiraEvent)
  : JiraOutcome E (list RawIssue) :=
  match fuel with
  | O => JOutOfFuel
  | S fuel' =>
      match search_issues trace bunch extracted_issues with
      | inr issues =>
          let trace := trace ++ [Search extracted_issues true] in
          let all_issues := all_issues ++ issues in
          let extracted_issues := extracted_issues + bunch in
          if Z.of_nat (length issues) <? bunch
          then JReturn all_issues trace
          else search_loop fuel' bunch all_issues extracted_issues sleep_time trace
      | inl e =>
          let trace := trace ++ [Search extracted_issues false] in
          let sleep_time := sleep_time * 2 in
          if 480 <=? sleep_time
          then JRaise e trace
          else search_loop fuel' bunch all_issues extracted_issues sleep_time
                           (trace ++ [Sleep sleep_time])
      end
  end.

(** [list(map(lambda issue: JiraIssue(issue, url), all_issues))]: the
    first constructor that raises ends the call. *)
Fixpoint map_JiraIssue (all_issues : list RawIssue) : E + list JIssue :=
  match all_issues with
  | [] => inr []
  | issue :: rest =>
      match JiraIssue issue with
      | inl e => inl e
      | inr j =>
          match map_JiraIssue rest with
          | inl e => inl e
          | inr js => inr (j :: js)
          end
      end
  end.

(** [get_jira_issues(project_name, url, bunch)], once [jira.JIRA(url)] has
    returned the connection. *)
Definition get_jira_issues (fuel : nat) (bunch : Z) : JiraOutcome E (list JIssue) :=
  match search_loop fuel bunch [] 0 30 [] with
  | JReturn all_issues trace =>
      match map_JiraIssue all_issues with
      | inr issues => JReturn issues trace
      | inl e => JRaise e trace
      end
  | JRaise e trace => JRaise e trace
  | JOutOfFuel => JOutOfFuel
  end.

End GetJiraIssues.

(** The trace an outcome ends with. *)
Definition jira_trace {E A} (o : JiraOutcome E A) : option (list JiraEvent) :=
  match o with
  | JReturn _ trace => Some trace
  | JRaise _ trace => Some trace
  | JOutOfFuel => None
  end.

(** The searches that raised, the searches that came back and the sleeps
    of a trace. *)
Definition is_failure (ev : JiraEvent) : bool :=
  match ev with Search _ false => true | _ => false end.

Definition is_answer (ev : JiraEvent) : bool :=
  match ev with Search _ true => true | _ => false end.

Definition failures (trace : list JiraEvent) : nat :=
  length (filter (fun ev => is_failure ev = true) trace).

Definition answers (trace : list JiraEvent) : nat :=
  length (filter (fun ev => is_answer ev = true) trace).

Definition sleeps (trace : list JiraEvent) : list Z :=
  omap (fun ev => match ev with Sleep t => Some t | _ => None end) trace.

(** A server that holds the issues [db] and, when it answers, answers
    with the page asked for. *)
Definition pages_of {RawIssue E : Type} (db : list RawIssue)
    (search_issues : list JiraEvent -> Z -> Z -> E + list RawIssue) : Prop :=
  ∀ trace bunch startAt issues,
    search_issues trace bunch startAt = inr issues →
    issues = take (Z.to_nat bunch) (drop (Z.to_nat startAt) db).

(** ** Python strings

    A [str] is a sequence of code points.  The operations below are the
    methods of [str] that [issues_extractor.py] calls, on their arguments
    there: the separators are never empty. *)
Definition pystr := list N.

(** A literal. *)
Definition py (s : string) : pystr := N_of_ascii <$> String.list_ascii_of_string s.

(** [s.startswith(prefix)]. *)
Fixpoint str_startswith (prefix s : pystr) : bool :=
  match prefix, s with
  | [], _ => true
  | _ :: _, [] => false
  | a :: prefix', b :: s' => (a =? b)%N && str_startswith prefix' s'
  end.

(** [sub in s]. *)
Fixpoint str_contains (sub s : pystr) : bool :=
  str_startswith sub s
  || match s with
     | [] => false
     | _ :: s' => str_contains sub s'
     end.

(** [s.split(sep)]: the pieces between the occurrences of [sep], found
    from the left and not overlapping.  [skip] counts the characters of an
    occurrence still to pass, [cur] is the piece being read. *)
Fixpoint str_split_go (sep : pystr) (skip : nat) (cur s : pystr) : list pystr :=
  match s with
  | [] => [cur]
  | c :: s' =>
      match skip with
      | S k => str_split_go sep k cur s'
      | O =>
          if str_startswith sep s
          then cur :: str_split_go sep (length sep - 1) [] s'
          else str_split_go sep O (cur ++ [c]) s'
      end
  end.

Definition str_split (sep s : pystr) : list pystr := str_split_go sep O [] s.

(** [str.isspace] on one character: the white space of Unicode. *)
Definition isspace (c : N) : bool :=
  ((9 <=? c) && (c <=? 13) || (28 <=? c) && (c <=? 32) || (c =? 133) || (c =? 160)
   || (c =? 5760) || (8192 <=? c) && (c <=? 8202) || (c =? 8232) || (c =? 8233)
   || (c =? 8239) || (c =? 8287) || (c =? 12288))%N.

Arguments isspace : simpl never.

Fixpoint str_lstrip (s : pystr) : pystr :=
  match s with
  | c :: s' => if isspace c then str_lstrip s' else s
  | [] => []
  end.

(** [s.strip()]. *)
Definition str_strip (s : pystr) : pystr :=
  reverse (str_lstrip (reverse (str_lstrip s))).

(** [s.split()]: the maximal runs of characters that are not white
    space. *)
Fixpoint str_split_ws_go (cur s : pystr) : list pystr :=
  match s with
  | [] => match cur with [] => [] | _ => [cur] end
  | c :: s' =>
      if isspace c
      then match cur with
           | [] => str_split_ws_go [] s'
           | _ => cur :: str_split_ws_go [] s'
           end
      else str_split_ws_go (cur ++ [c]) s'
  end.

Definition str_split_ws (s : pystr) : list pystr := str_split_ws_go [] s.

(** [sep.join(pieces)]. *)
Fixpoint str_join (sep : pystr) (pieces : list pystr) : pystr :=
  match pieces with
  | [] => []
  | [piece] => piece
  | piece :: rest => piece ++ sep ++ str_join sep rest
  end.

(** ** _clean_commit_message *)

Definition _clean_commit_message (commit_message : pystr) : pystr :=
  if str_contains (py "git-svn-id") commit_message
  then match str_split (py "git-svn-id") commit_message with
       | first :: _ => first
       | [] => []
       end
  else str_join (py " ") (str_split_ws commit_message).

(** ** fix_renamed_files *)

(** The exceptions that leave [fix_renamed_files]: of [...[1]], of the
    unpacking [src, dst = ...] and of [re.sub]. *)
Inductive RenameExn :=
  | IndexError
  | ValueError
  | ReError.

(** The set [[\.a-zA-Z_/\-0-9]] of the pattern. *)
Definition in_class (c : N) : bool :=
  ((c =? 46) || (97 <=? c) && (c <=? 122) || (65 <=? c) && (c <=? 90) || (c =? 95)
   || (c =? 47) || (c =? 45) || (48 <=? c) && (c <=? 57))%N.

Arguments in_class : simpl never.

(** What is left of [s] after the longest run of characters of the set:
    the greedy [[...]*].  The character after such a run in a match is a
    space or a brace, outside the set, so no shorter run can match. *)
Fixpoint skip_class (s : pystr) : pystr :=
  match s with
  | c :: s' => if in_class c then skip_class s' else s
  | [] => []
  end.

(** A match of [{[\.a-zA-Z_/\-0-9]* => [\.a-zA-Z_/\-0-9]*}] at the start
    of [s]: what follows the match. *)
Definition match_rename (s : pystr) : option pystr :=
  match s with
  | c :: s1 =>
      if (c =? 123)%N
      then let s2 := skip_class s1 in
           if str_startswith (py " => ") s2
           then match skip_class (drop 4 s2) with
                | c' :: s3 => if (c' =? 125)%N then Some s3 else None
                | [] => None
                end
           else None
      else None
  | [] => None
  end.

(** [re.sub(pattern, template, s)] once the template is compiled into
    [expand], which maps the text of a match to its replacement: every
    match, found from the left and not overlapping, is replaced. *)
Fixpoint re_sub_go (expand : pystr -> pystr) (skip : nat) (s : pystr) : pystr :=
  match s with
  | [] => []
  | c :: s' =>
      match skip with
      | S k => re_sub_go expand k s'
      | O =>
          match match_rename s with
          | Some rest =>
              let matched := take (length s - length rest) s in
              expand matched ++ re_sub_go expand (length matched - 1) s'
          | None => c :: re_sub_go expand O s'
          end
      end
  end.

Section FixRenamedFiles.

(** The compilation of a replacement template by [re]: [None] when it
    raises [re.error]; otherwise the function from the text of a match to
    its replacement (the pattern has no group, so the text of the match is
    all a template can refer to). *)
Variable parse_template : pystr -> option (pystr -> pystr).

Definition re_sub (template s : pystr) : RenameExn + pystr :=
  match parse_template template with
  | None => inl ReError
  | Some expand => inr (re_sub_go expand O s)
  end.

(** The body of [for file in files]. *)
Definition fix_renamed_file (file : pystr) : RenameExn + list pystr :=
  if str_contains (py "=>") file
  then
    (* ["{" and "}" in file] is ["}" in file] *)
    if str_contains (py "}") file
    then
      match str_split (py "{") file with
      | _ :: piece :: _ =>
          match str_split (py "}") piece with
          | inner :: _ =>
              match str_split (py "=>") inner with
              | [src; dst] =>
                  match re_sub (str_strip src) file with
                  | inl e => inl e
                  | inr from_src =>
                      match re_sub (str_strip dst) file with
                      | inl e => inl e
                      | inr from_dst => inr [from_src; from_dst]
                      end
                  end
              | _ => inl ValueError
              end
          | [] => inl IndexError
          end
      | _ => inl IndexError
      end
    else inr (str_strip <$> str_split (py "=>") file)
  else inr [file].

Fixpoint fix_renamed_files (files : list pystr) : RenameExn + list pystr :=
  match files with
  | [] => inr []
  | file :: rest =>
      match fix_renamed_file file with
      | inl e => inl e
      | inr new =>
          match fix_renamed_files rest with
          | inl e => inl e
          | inr new_files => inr (new ++ new_files)
          end
      end
  end.

End FixRenamedFiles.

(** [re] takes a template without a backslash as it is. *)
Definition literal_templates (parse_template : pystr -> option (pystr -> pystr)) : Prop :=
  ∀ template, 92%N ∉ template → parse_template template = Some (fun _ => template).

(** ** More of [str] and of lists *)

(** [s.replace(old, new)] for [old] not empty: every occurrence of [old],
    found from the left and not overlapping, becomes [new]. *)
Fixpoint str_replace_go (old new : pystr) (skip : nat) (s : pystr) : pystr :=
  match s with
  | [] => []
  | c :: s' =>
      match skip with
      | S k => str_replace_go old new k s'
      | O =>
          if str_startswith old s
          then new ++ str_replace_go old new (length old - 1) s'
          else c :: str_replace_go old new O s'
      end
  end.

Definition str_replace (old new s : pystr) : pystr := str_replace_go old new O s.

(** [s.endswith(suffix)]. *)
Definition str_endswith (suffix s : pystr) : bool :=
  str_startswith (reverse suffix) (reverse s).

(** [l[1:-1]]. *)
Definition inner_slice {A} (l : list A) : list A := removelast (tail l).

(** [d[key] = value] on a [dict], which keeps the order in which its keys
    were first set. *)
Fixpoint dict_set {V} (key : pystr) (value : V) (d : list (pystr * V)) : list (pystr * V) :=
  match d with
  | [] => [(key, value)]
  | (k, v) :: d' =>
      if bool_decide (k = key) then (k, value) :: d' else (k, v) :: dict_set key value d'
  end.

(** [list(map(f, l))] with an [f] that can raise. *)
Fixpoint raise_map {A B} (f : A -> RenameExn + B) (l : list A) : RenameExn + list B :=
  match l with
  | [] => inr []
  | a :: l' =>
      match f a with
      | inl e => inl e
      | inr b =>
          match raise_map f l' with
          | inl e => inl e
          | inr bs => inr (b :: bs)
          end
      end
  end.

(** ** CommittedFile *)

Module CommittedFile.

Record t := mk {
  sha : pystr;
  name : pystr;
  insertions : Z;
  deletions : Z;
  is_java : bool;
  is_test : bool
}.

End CommittedFile.

(** The lines of the text of one commit in the output of [git log]: the
    double quotes (code point 34) are removed, two line ends in a row
    become one, and the text is split at the line ends. *)
Definition block_lines (d : pystr) : list pystr :=
  str_split [10%N] (str_replace [10%N; 10%N] [10%N] (str_replace [34%N] [] d)).

Section CommitsFiles.

Variable parse_template : pystr -> option (pystr -> pystr).

(** [str.isnumeric] and [int] on a [str]; [None] when [int] raises
    [ValueError]. *)
Variable str_isnumeric : pystr -> bool.
Variable int : pystr -> option Z.

(** [CommittedFile.__init__]. *)
Definition CommittedFile__init__ (sha name insertions deletions : pystr)
  : RenameExn + CommittedFile.t :=
  match fix_renamed_files parse_template [name] with
  | inl e => inl e
  | inr [] => inl IndexError
  | inr (name' :: _) =>
      let is_java := str_endswith (py ".java") name' in
      let is_test := str_contains (py "test") name' in
      if str_isnumeric insertions
      then
        match int insertions with
        | None => inl ValueError
        | Some ins =>
            match int deletions with
            | None => inl ValueError
            | Some del => inr (CommittedFile.mk sha name' ins del is_java is_test)
            end
        end
      else inr (CommittedFile.mk sha name' 0 0 is_java is_test)
  end.

(** ** _get_commits_files *)

(** The body of [for x in d[1:-1]]: the files of one line. *)
Definition numstat_line (commit_sha x : pystr) : RenameExn + list CommittedFile.t :=
  match str_split [9%N] x with
  | [insertions; deletions; name] =>
      match fix_renamed_files parse_template [name] with
      | inl e => inl e
      | inr names =>
          raise_map (fun n => CommittedFile__init__ commit_sha n insertions deletions) names
      end
  | _ => inl ValueError
  end.

Fixpoint numstat_lines (commit_sha : pystr) (lines : list pystr)
  : RenameExn + list CommittedFile.t :=
  match lines with
  | [] => inr []
  | x :: rest =>
      match numstat_line commit_sha x with
      | inl e => inl e
      | inr files =>
          match numstat_lines commit_sha rest with
          | inl e => inl e
          | inr more => inr (files ++ more)
          end
      end
  end.

(** The body of [for d in data[1:]]. *)
Definition numstat_block (comms : list (pystr * list CommittedFile.t)) (d : pystr)
  : RenameExn + list (pystr * list CommittedFile.t) :=
  match block_lines d with
  | [] => inl IndexError
  | (commit_sha :: _) as lines =>
      match numstat_lines commit_sha (inner_slice lines) with
      | inl e => inl e
      | inr files => inr (dict_set commit_sha files comms)
      end
  end.

Fixpoint numstat_blocks (comms : list (pystr * list CommittedFile.t)) (data : list pystr)
  : RenameExn + list (pystr * list CommittedFile.t) :=
  match data with
  | [] => inr comms
  | d :: rest =>
      match numstat_block comms d with
      | inl e => inl e
      | inr comms' => numstat_blocks comms' rest
      end
  end.

(** [log] is what [repo.git.log('--numstat', '--pretty=format:"sha: %H"')]
    returns. *)
Definition _get_commits_files (log : pystr)
  : RenameExn + list (pystr * list CommittedFile.t) :=
  match numstat_blocks [] (tail (str_split (py "sha: ") log)) with
  | inl e => inl e
  | inr comms => inr (filter (fun entry => entry.2 ≠ []) comms)
  end.

End CommitsFiles.

(** ** _get_commits_files_status *)

(** The body of [for x in d[1:-1]]: the triples of one line. *)
Definition status_line (commit_sha x : pystr) : RenameExn + list (pystr * pystr * pystr) :=
  match str_split [9%N] x with
  | [] => inl IndexError
  | status :: names =>
      match status with
      | [] => inl IndexError
      | c :: _ =>
          inr ((fun n => (commit_sha, n, [c]))
                 <$> filter (fun n => str_endswith (py ".java") n = true) names)
      end
  end.

Fixpoint status_lines (commit_sha : pystr) (lines : list pystr)
  : RenameExn + list (pystr * pystr * pystr) :=
  match lines with
  | [] => inr []
  | x :: rest =>
      match status_line commit_sha x with
      | inl e => inl e
      | inr triples =>
          match status_lines commit_sha rest with
          | inl e => inl e
          | inr more => inr (triples ++ more)
          end
      end
  end.

(** The body of [for d in data[1:]]. *)
Definition status_block (ans : list (pystr * pystr * pystr)) (d : pystr)
  : RenameExn + list (pystr * pystr * pystr) :=
  match block_lines d with
  | [] => inl IndexError
  | (commit_sha :: _) as lines =>
      match status_lines commit_sha (inner_slice lines) with
      | inl e => inl e
      | inr triples => inr (ans ++ triples)
      end
  end.

Fixpoint status_blocks (ans : list (pystr * pystr * pystr)) (data : list pystr)
  : RenameExn + list (pystr * pystr * pystr) :=
  match data with
  | [] => inr ans
  | d :: rest =>
      match status_block ans d with
      | inl e => inl e
      | inr ans' => status_blocks ans' rest
      end
  end.

(** [log] is what [repo.git.log('--name-status', '--pretty=format:"sha: %H"')]
    returns. *)
Definition _get_commits_files_status (log : pystr) : RenameExn + list (pystr * pystr * pystr) :=
  status_blocks [] (tail (str_split (py "sha: ") log)).

(** * Specifications *)

(** ** The refactoring cache *)

(** What a pass over the cache may change between [st] and [st']: entries
    are added and never replaced, RefactoringMiner is run on the commits
    [new], and nothing else moves. *)
Definition cache_step (commits new : list string) (st st' : State) : Prop :=
  refactorings st ⊆ refactorings st'
  ∧ heap st' = heap st
  ∧ blame_calls st' = blame_calls st
  ∧ dropped st' = dropped st
  ∧ detector_calls st' = detector_calls st ++ new
  ∧ (∀ c, c ∈ new → c ∈ commits ∧ refactorings st !! c = None)
  ∧ (∀ c, c ∈ dom (refactorings st') → c ∈ dom (refactorings st) ∨ c ∈ new).

(** ** get_impacted_files *)

(** The file [f] without the lines that satisfy [p]. *)
Definition strip_by (p : string -> Z -> bool) (f : ImpactedFile.t) : ImpactedFile.t :=
  ImpactedFile.mk (ImpactedFile.file_path f)
    (filter (fun line => p (ImpactedFile.file_path f) line = false)
            (ImpactedFile.modified_lines f)).

(** The file [f] without the lines inside a region of [refs]. *)
Definition strip_covered (refs : list Refactoring) (f : ImpactedFile.t) : ImpactedFile.t :=
  strip_by (covered_by refs) f.

(** ** The partition of the candidates *)

(** How many locations of [locations] / of [refs] cover a line. *)
Definition count_covering (locations : list Location) (file_path : string) (line : Z) : nat :=
  length (filter (fun location => covers location file_path line = true) locations).

Definition covering_count (refs : list Refactoring) (file_path : string) (line : Z) : nat :=
  sum_list ((fun r => count_covering (rightSideLocations r) file_path line) <$> refs).

(** The refactorings the loops find under [commit] in the cache, when
    they find any. *)
Definition cached_refs (cache : gmap string RefactoringsValue) (commit : string)
  : option (list Refactoring) :=
  match cache !! commit with
  | Some value =>
      match iter_refactorings value with
      | inr refs => Some refs
      | inl _ => None
      end
  | None => None
  end.

(** The same for a candidate, on the refactorings cached for its commit. *)
Definition covering_in (cache : gmap string RefactoringsValue) (blame : BlameData.t) : nat :=
  match cached_refs cache (BlameData.commit blame) with
  | Some refs => covering_count refs (BlameData.file_path blame) (BlameData.line_num blame)
  | None => O
  end.

(** The lines the candidates contribute to the request of key [key]: the
    line of each candidate with that key, once per covering location, in
    the order of the candidates. *)
Definition requested_lines (cache : gmap string RefactoringsValue)
    (candidate_blame_data : list BlameData.t) (key : string) : list Z :=
  candidate_blame_data ≫= fun blame =>
    if decide (reblame_key blame = key)
    then replicate (covering_in cache blame) (BlameData.line_num blame)
    else [].

(** [to_reblame] once the candidates [done] went through the loop and the
    candidate [blame] was recorded [j] times. *)
Definition lines_so_far (cache : gmap string RefactoringsValue)
    (done : list BlameData.t) (blame : BlameData.t) (j : nat) (key : string) : list Z :=
  requested_lines cache done key
  ++ (if decide (reblame_key blame = key) then replicate j (BlameData.line_num blame) else []).

Definition to_reblame_inv (cache : gmap string RefactoringsValue)
    (done : list BlameData.t) (blame : BlameData.t) (j : nat)
    (to_reblame : list (string * ReblameCandidate.t)) : Prop :=
  NoDup to_reblame.*1
  ∧ (∀ key rc, (key, rc) ∈ to_reblame →
       key = ReblameCandidate.rev rc +:+ "@"%string +:+ ReblameCandidate.file_path rc
       ∧ ReblameCandidate.modified_lines rc = lines_so_far cache done blame j key
       ∧ ReblameCandidate.modified_lines rc ≠ []
       ∧ ∃ b, b ∈ blame :: done
              ∧ ReblameCandidate.rev rc = BlameData.commit b
              ∧ ReblameCandidate.file_path rc = BlameData.file_path b)
  ∧ (∀ key, lines_so_far cache done blame j key ≠ [] → key ∈ to_reblame.*1).

(** [to_reblame] between two candidates: one request per key, built from
    the fields of a candidate with that key, holding the lines requested
    so far, and a request for every key with a requested line. *)
Definition to_reblame_spec (cache : gmap string RefactoringsValue)
    (done : list BlameData.t) (to_reblame : list (string * ReblameCandidate.t)) : Prop :=
  NoDup to_reblame.*1
  ∧ (∀ key rc, (key, rc) ∈ to_reblame →
       key = ReblameCandidate.rev rc +:+ "@"%string +:+ ReblameCandidate.file_path rc
       ∧ ReblameCandidate.modified_lines rc = requested_lines cache done key
       ∧ ReblameCandidate.modified_lines rc ≠ []
       ∧ ∃ b, b ∈ done
              ∧ ReblameCandidate.rev rc = BlameData.commit b
              ∧ ReblameCandidate.file_path rc = BlameData.file_path b)
  ∧ (∀ key, requested_lines cache done key ≠ [] → key ∈ to_reblame.*1).

(** ** Frame of a run *)

(** RefactoringMiner was run, between [st] and [st'], only on commits
    that had no entry in the cache of [st]. *)
Definition runs_only_new (st st' : State) : Prop :=
  ∃ new, detector_calls st' = detector_calls st ++ new
         ∧ ∀ c, c ∈ new → refactorings st !! c = None.

(** What any method of the class may change between [st] and [st']: the
    cache gains entries, the heap gains list objects, the traces gain
    events; nothing that was there is replaced, and no cached commit is
    mined again. *)
Definition extends (st st' : State) : Prop :=
  refactorings st ⊆ refactorings st'
  ∧ heap st `prefix_of` heap st'
  ∧ runs_only_new st st'
  ∧ blame_calls st `prefix_of` blame_calls st'
  ∧ dropped st `prefix_of` dropped st'.

(** The state in which a recursive call starts:
    [new_ignore_revs_list = ignore_revs_list.copy()] followed by
    [new_ignore_revs_list.append(rev)]. *)
Definition fork_ignore (l : ref) (rev : string) (st : State) : State :=
  list_append (length (heap st)) rev (list_copy l st).2.

(** ** Accepted attributions *)

(** No region recorded for the commit of [a] covers its line. *)
Definition accepted_in (cache : gmap string RefactoringsValue) (a : BlameData.t) : Prop :=
  ∃ refs, cached_refs cache (BlameData.commit a) = Some refs
          ∧ covered_by refs (BlameData.file_path a) (BlameData.line_num a) = false.

(** A commit name without the separator of [reblame_key]; hashes are
    hexadecimal and have none. *)
Fixpoint no_at (s : string) : bool :=
  match s with
  | EmptyString => true
  | String c s' => negb (Ascii.eqb c "@"%char) && no_at s'
  end.

(** ** Conservation of lines *)

Definition lines_of_attributions (result : gset BlameData.t) : gset Z :=
  set_map BlameData.line_num result.

Definition lines_of_requests (requests : list ReblameCandidate.t) : gset Z :=
  ⋃ ((fun rc => list_to_set (ReblameCandidate.modified_lines rc)) <$> requests).

(** A base blame that attributes every line it is asked about, under the
    number it was asked with, and no other line. *)
Definition line_faithful (super_blame : BlameCall -> list BlameData.t) : Prop :=
  ∀ call,
    list_to_set (BlameData.line_num <$> super_blame call)
    =@{gset Z} list_to_set (call_modified_lines call).

(** The lines of the returned attributions, with the lines of the requests
    dropped between [st] and the final state, are the lines [lines]. *)
Definition conserves_lines (lines : list Z) (st : State) (o : Outcome (gset BlameData.t)) : Prop :=
  ∀ result st', o = Ok result st' →
    ∃ new_dropped, dropped st' = dropped st ++ new_dropped
      ∧ lines_of_attributions result ∪ lines_of_requests new_dropped = list_to_set lines.

(** ** Termination *)

(** The revisions of [universe] that a call with ignore list [revs] can
    still add to that list. *)
Definition ignore_budget (universe revs : list string) : nat :=
  length (filter (fun u => u ∉ revs) universe).

(** A commit the base blame names in some attribution. *)
Definition reported (super_blame : BlameCall -> list BlameData.t) (commit : string) : Prop :=
  ∃ call b, b ∈ super_blame call ∧ BlameData.commit b = commit.

(** ** The trace of recursive calls *)

(** What holds of an event [ev] of a recursive call made, at any depth,
    under a call whose ignore list is [revs], once the run has reached
    [st']: the call got a list object of its own, allocated after [base],
    which holds the list of the call that made it ([parent], whose entry
    in the trace, at [first] or after it, is the one the event names as
    its caller) followed by the revision the call is for, and still holds
    it in [st']; the revisions added below the root are distinct, absent
    from [revs] and reported by the base blame. *)
Definition sub_event_ok (super_blame : BlameCall -> list BlameData.t)
    (revs : list string) (base first : nat) (st' : State) (ev : BlameEvent) : Prop :=
  ∃ l' path,
    ev_ignore_ref ev = Some l'
    ∧ (base ≤ l')%nat
    ∧ call_ignore_revs_list (ev_call ev) = Some (revs ++ path ++ [call_rev (ev_call ev)])
    ∧ heap st' !! l' = Some (revs ++ path ++ [call_rev (ev_call ev)])
    ∧ NoDup (path ++ [call_rev (ev_call ev)])
    ∧ (∀ x, x ∈ path ++ [call_rev (ev_call ev)] → (x ∉ revs) ∧ reported super_blame x)
    ∧ (∃ parent i, ev_caller ev = Some i
                   ∧ (first ≤ i)%nat
                   ∧ blame_calls st' !! i = Some parent
                   ∧ call_ignore_revs_list (ev_call parent) = Some (revs ++ path)).

(** The trace a call of [_blame] leaves between [st] and [st']: its own
    event [root], then the events of the recursive calls. *)
Definition blame_trace_spec (super_blame : BlameCall -> list BlameData.t)
    (revs : list string) (st st' : State) (root : BlameEvent) : Prop :=
  ∃ subs,
    blame_calls st' = blame_calls st ++ root :: subs
    ∧ Forall (sub_event_ok super_blame revs (length (heap st)) (length (blame_calls st)) st')
             subs
    ∧ NoDup (ev_ignore_ref <$> subs).

(** [sleep_time] after the failed searches of [trace]. *)
Definition retry_inv (sleep_time : Z) (trace : list JiraEvent) : Prop :=
  (failures trace ≤ 3)%nat
  ∧ Some sleep_time = [30; 60; 120; 240] !! failures trace
  ∧ sleeps trace = take (failures trace) [60; 120; 240].

(** Every failed search of [trace] is followed by a sleep, of 60, 120
    or 240 seconds according to the failed searches before it. *)
Definition backed_off (trace : list JiraEvent) : Prop :=
  ∀ before startAt after,
    trace = before ++ Search startAt false :: after →
    ∃ seconds after', after = Sleep seconds :: after'
                      ∧ [60; 120; 240] !! failures before = Some seconds.

(** [trace] ends with a search that came back with a page shorter than
    [bunch]: the [break] of line 67. *)
Definition ends_with_short_page {RawIssue E : Type}
    (search_issues : list JiraEvent -> Z -> Z -> E + list RawIssue)
    (bunch : Z) (trace : list JiraEvent) : Prop :=
  ∃ trace0 startAt page,
    trace = trace0 ++ [Search startAt true]
    ∧ search_issues trace0 bunch startAt = inr page
    ∧ Z.of_nat (length page) < bunch.

(** What the retry policy makes of the trace an outcome ends with.  The
    loop is left in two ways only: by the [break] after a short page, with
    at most three failed searches behind, each followed by its sleep; or by
    the exception of a failed search, which is then the fourth of the call
    and is followed by no sleep.  After the [break] the call returns, or
    raises what a [JiraIssue] constructor raised. *)
Definition retry_spec {RawIssue E JIssue A : Type}
    (search_issues : list JiraEvent -> Z -> Z -> E + list RawIssue)
    (JiraIssue : RawIssue -> E + JIssue)
    (bunch : Z) (o : JiraOutcome E A) : Prop :=
  match o with
  | JReturn _ trace =>
      (failures trace ≤ 3)%nat
      ∧ sleeps trace = take (failures trace) [60; 120; 240]
      ∧ backed_off trace
      ∧ ends_with_short_page search_issues bunch trace
  | JRaise e trace =>
      (∃ trace0 startAt,
          trace = trace0 ++ [Search startAt false]
          ∧ search_issues trace0 bunch startAt = inl e
          ∧ failures trace0 = 3%nat
          ∧ sleeps trace0 = [60; 120; 240]
          ∧ backed_off trace0)
      ∨ ((failures trace ≤ 3)%nat
         ∧ sleeps trace = take (failures trace) [60; 120; 240]
         ∧ backed_off trace
         ∧ ends_with_short_page search_issues bunch trace
         ∧ ∃ issue, JiraIssue issue = inl e)
  | JOutOfFuel => True
  end.

(** Every search of [trace] was made at [bunch] times the number of
    searches answered before it. *)
Definition paged (bunch : Z) (trace : list JiraEvent) : Prop :=
  ∀ before startAt answered after,
    trace = before ++ Search startAt answered :: after →
    startAt = bunch * Z.of_nat (answers before).

(** ** Strings *)

(** The occurrences of [sub] in [s] start at position [n] or later. *)
Definition none_before (sub s : pystr) (n : nat) : Prop :=
  ∀ k, (k < n)%nat → str_startswith sub (drop k s) = false.

(** The characters of [s] that are not white space, in their order. *)
Definition visible (s : pystr) : pystr :=
  filter (λ c, isspace c = false) (s : list N).

(** [re.search(pattern, s) is not None] for the pattern of
    [fix_renamed_files]. *)
Fixpoint re_search (s : pystr) : bool :=
  match match_rename s with
  | Some _ => true
  | None => match s with
            | [] => false
            | _ :: s' => re_search s'
            end
  end.


(** [pieces] with [t] added at the end of its last piece. *)
Fixpoint extend_last (pieces : list pystr) (t : pystr) : list pystr :=
  match pieces with
  | [] => []
  | [piece] => [piece ++ t]
  | piece :: rest => piece :: extend_last rest t
  end.

(** * Scenarios *)

(** Concrete collaborators, after the test cases of the specification:
    a fix [R2], the commit [R1] that last touched line 10 of [f.java] and
    its ancestor [R0]. *)
Module Scenario.

Local Open Scope string_scope.

(** RefactoringMiner output of the expected shape. *)
Definition well_formed (refs : list Refactoring) : DetectorRun :=
  Completed (Some (mkDetectorData
                     (Some (CommitList [mkCommitEntry (Some (RefactoringList refs))])))).

Definition rename_method : Refactoring :=
  mkRefactoring "Rename Method" [mkLocation "f.java" 5 15].

(** [R1] renames a method over lines 5-15; no other commit refactors. *)
Definition miner (_ : list string) (commit : string) : DetectorRun :=
  if decide (commit = "R1") then well_formed [rename_method] else well_formed [].

(** RefactoringMiner exits with a non-zero status on every commit. *)
Definition failing_miner (_ : list string) (_ : string) : DetectorRun :=
  CalledProcessError.

(** The fix itself moves lines [from_line]-[to_line] of [f.java]. *)
Definition fix_miner (from_line to_line : Z) (_ : list string) (_ : string) : DetectorRun :=
  well_formed [mkRefactoring "Move Method" [mkLocation "f.java" from_line to_line]].

(** The fix modifies lines 3, 4 and 5 of [f.java]. *)
Definition impacted (_ : string) : list ImpactedFile.t :=
  [ImpactedFile.mk "f.java" [3; 4; 5]].

(** An empty cache, and one list object, [[]], at address 0. *)
Definition st0 : State := mkState ∅ [[]] [] [] [] None.

(** The state after RefactoringMiner stored [refs] for [commit]. *)
Definition cached (commit : string) (refs : list Refactoring) (st : State) : State :=
  set_refactorings (<[commit := RefactoringList refs]> (refactorings st))
                   (log_detector commit st).

(** Scenario B: [R1] last touched line 10; with [R1] ignored, its
    ancestor [R0] did. *)
Definition engine_B (call : BlameCall) : list BlameData.t :=
  if decide ("R1" ∈ default [] (call_ignore_revs_list call))
  then [BlameData.mk "R0" 10 "int x;" "f.java"]
  else [BlameData.mk "R1" 10 "int x;" "f.java"].

(** Scenario C: the engine reports [R1] whatever it is told to ignore. *)
Definition engine_C (_ : BlameCall) : list BlameData.t :=
  [BlameData.mk "R1" 10 "int x;" "f.java"].

(** The state in which scenario B ends. *)
Definition st_B : State :=
  mkState (<["R0" := RefactoringList []]> (<["R1" := RefactoringList [rename_method]]> ∅))
          [[]; ["R1"]]
          ["R1"; "R0"]
          [mkBlameEvent (mkBlameCall "R2" "f.java" [10] (Some [])) (Some O) None;
           mkBlameEvent (mkBlameCall "R1" "f.java" [10] (Some ["R1"])) (Some 1%nat) (Some O)]
          []
          (Some O).

(** The state in which scenario C ends: the request for [R1] made by
    the recursive call is dropped. *)
Definition st_C : State :=
  mkState (<["R1" := RefactoringList [rename_method]]> ∅)
          [[]; ["R1"]]
          ["R1"]
          [mkBlameEvent (mkBlameCall "R2" "f.java" [10] (Some [])) (Some O) None;
           mkBlameEvent (mkBlameCall "R1" "f.java" [10] (Some ["R1"])) (Some 1%nat) (Some O)]
          [ReblameCandidate.mk "R1" "f.java" [10]]
          (Some O).

(** [R1] has two refactorings whose regions both contain line 10. *)
Definition extract_method : Refactoring :=
  mkRefactoring "Extract Method" [mkLocation "f.java" 8 12].

Definition miner_two_regions (_ : list string) (commit : string) : DetectorRun :=
  if decide (commit = "R1") then well_formed [rename_method; extract_method]
  else well_formed [].

Definition cache_two_regions : gmap string RefactoringsValue :=
  {["R1" := RefactoringList [rename_method; extract_method]]}.

(** A caller that already ignores [R1]: its list is the object at
    address 0. *)
Definition st_ignoring_R1 : State := mkState ∅ [["R1"]] [] [] [] None.

(** A base blame that skips line 10 (a comment line under
    [skip_comments], say) and so reports nothing. *)
Definition engine_skipping (_ : BlameCall) : list BlameData.t := [].

Definition st_skipping : State :=
  mkState ∅ [[]] [] [mkBlameEvent (mkBlameCall "R2" "f.java" [10] (Some [])) (Some O) None] []
          (Some O).


(** A base blame that attributes every line it is asked about to [R1]. *)
Definition engine_all_R1 (call : BlameCall) : list BlameData.t :=
  (fun line => BlameData.mk "R1" line "int x;" (call_file_path call))
  <$> call_modified_lines call.

(** The state in which [_blame] on lines 3 and 10 ends with that engine:
    line 3 is accepted, the request for line 10 is made once and dropped
    in the recursive call. *)
Definition st_all_R1 : State :=
  mkState (<["R1" := RefactoringList [rename_method]]> ∅)
          [[]; ["R1"]]
          ["R1"]
          [mkBlameEvent (mkBlameCall "R2" "f.java" [3; 10] (Some [])) (Some O) None;
           mkBlameEvent (mkBlameCall "R1" "f.java" [10] (Some ["R1"])) (Some 1%nat) (Some O)]
          [ReblameCandidate.mk "R1" "f.java" [10]]
          (Some O).


(** Scenario D: lines 10 and 11, inside a method that [R1], [R3] and [R4]
    each renamed, were last touched by [R1] and by [R3], and line 10 by
    [R4] before [R1]; otherwise the engine attributes the lines to [R0]. *)
Definition engine_siblings (call : BlameCall) : list BlameData.t :=
  match call_ignore_revs_list call with
  | Some [] => [BlameData.mk "R1" 10 "int x;" "f.java";
                BlameData.mk "R3" 11 "int y;" "f.java"]
  | Some ["R1"] => [BlameData.mk "R4" 10 "int x;" "f.java"]
  | _ => (fun line => BlameData.mk "R0" line "int z;" "f.java")
         <$> call_modified_lines call
  end.

Definition miner_siblings (_ : list string) (commit : string) : DetectorRun :=
  if decide (commit = "R0") then well_formed [] else well_formed [rename_method].

(** RefactoringMiner runs out of time on every commit. *)
Definition timing_out_miner (_ : list string) (_ : string) : DetectorRun :=
  TimeoutExpired.

(** RefactoringMiner exits with an error the first time it is run on a
    commit and finds no refactoring from the second run on. *)
Definition flaky_miner (history : list string) (commit : string) : DetectorRun :=
  if decide (commit ∈ history) then well_formed [] else CalledProcessError.

(** RefactoringMiner prints something that is not JSON for [R1] and finds
    no refactoring in the other commits. *)
Definition garbling_miner (_ : list string) (commit : string) : DetectorRun :=
  if decide (commit = "R1") then Completed None else well_formed [].

(** The fix touches two files; one of them has no modified line. *)
Definition impacted_two (_ : string) : list ImpactedFile.t :=
  [ImpactedFile.mk "f.java" [3; 4; 5]; ImpactedFile.mk "g.java" []].

(** A Jira server holding five issues, here numbered; it always answers
    with the page asked for. *)
Definition jira_db : list nat := [1; 2; 3; 4; 5]%nat.

Definition jira_server (_ : list JiraEvent) (bunch startAt : Z) : string + list nat :=
  inr (take (Z.to_nat bunch) (drop (Z.to_nat startAt) jira_db)).

(** The same server, out of reach at every other search until it has
    failed three times. *)
Definition jira_flaky (trace : list JiraEvent) (bunch startAt : Z) : string + list nat :=
  if (failures trace <? 3)%nat && Nat.even (failures trace + answers trace)
  then inl "503"
  else inr (take (Z.to_nat bunch) (drop (Z.to_nat startAt) jira_db)).

(** A server that is never reached. *)
Definition jira_down (_ : list JiraEvent) (_ _ : Z) : string + list nat := inl "503".

(** A constructor of [JiraIssue] that never raises. *)
Definition jira_issue (issue : nat) : string + nat := inr issue.

Local Close Scope string_scope.

(** A commit message as [git svn] writes it: the text, an empty line and
    the marker. *)
Definition svn_message : pystr :=
  py "TIKA-1:  fix NPE" ++ [10%N; 10%N]
  ++ py "git-svn-id: https://svn.apache.org/repos/asf/tika/trunk@1 13f79535".

(** A message of [git] itself, with a title, an empty line and a body. *)
Definition git_message : pystr :=
  py "  TIKA-2:  fix the" ++ [9%N] ++ py "parser" ++ [10%N; 10%N] ++ py "See TIKA-1. " ++ [10%N].

(** [re] as it compiles the templates without a backslash; the others are
    refused here. *)
Definition literal_re (template : pystr) : option (pystr -> pystr) :=
  if bool_decide (92%N ∈ template) then None else Some (fun _ => template).

(** The file of the docstring of [fix_renamed_files]. *)
Definition moved_file : pystr :=
  py "tika-core/src/test/resources/{org/apache/tika/fork => test-documents}/embedded_with_npe.xml".

(** A directory with a space in its name, outside the pattern. *)
Definition moved_file_space : pystr := py "src/{my dir => new}/x.java".

(** A file renamed as a whole. *)
Definition renamed_file : pystr := py "src/Old.java => src/New.java".

(** A closing brace without an opening one. *)
Definition odd_file : pystr := py "src/a}b => c".

(** Braces around a name, and the arrow outside them. *)
Definition braces_file : pystr := py "{a}/b => c".

(** [str.isnumeric] and [int] on the texts of the scenarios: decimal
    numbers in ASCII digits. *)
Definition ascii_isnumeric (s : pystr) : bool :=
  bool_decide (s ≠ []) && forallb (fun c => (48 <=? c)%N && (c <=? 57)%N) s.

Definition ascii_int (s : pystr) : option Z :=
  if ascii_isnumeric s
  then Some (foldl (fun n c => 10 * n + (Z.of_N c - 48)) 0 s)
  else None.

Definition tab : pystr := [9%N].
Definition newline : pystr := [10%N].
Definition quote : pystr := [34%N].

(** The output of [git log --numstat] for two commits, without its last
    line: a change of [pom.xml], and before it the first commit. *)
Definition numstat_log : pystr :=
  quote ++ py "sha: 4ba9" ++ quote ++ newline
  ++ py "1" ++ tab ++ py "0" ++ tab ++ py "pom.xml" ++ newline
  ++ newline
  ++ quote ++ py "sha: 9f92" ++ quote ++ newline
  ++ py "1" ++ tab ++ py "0" ++ tab ++ py "pom.xml".

(** Its last line; no line end follows it. *)
Definition numstat_last_line : pystr :=
  py "1" ++ tab ++ py "0" ++ tab ++ py "src/old/A.java".

(** The same for [git log --name-status]. *)
Definition status_log : pystr :=
  quote ++ py "sha: 4ba9" ++ quote ++ newline
  ++ py "R100" ++ tab ++ py "src/old/A.java" ++ tab ++ py "src/new/A.java" ++ newline
  ++ newline
  ++ quote ++ py "sha: 9f92" ++ quote ++ newline
  ++ py "A" ++ tab ++ py "pom.xml".

Definition status_last_line : pystr := py "A" ++ tab ++ py "src/old/A.java".

(** A log in which the commit [a] comes twice, the second time without a
    file, around the commit [b]. *)
Definition commits_log : pystr :=
  py "sha: a" ++ newline ++ py "1" ++ tab ++ py "2" ++ tab ++ py "f" ++ newline ++ newline
  ++ py "sha: b" ++ newline ++ py "3" ++ tab ++ py "4" ++ tab ++ py "g" ++ newline ++ newline
  ++ py "sha: a" ++ newline.

End Scenario.

(** * Verification *)

(** ** The refactoring cache *)

Section Cache.

Variable refminer : list string -> string -> DetectorRun.

Lemma cache_step_refl commits st : cache_step commits [] st st.
Proof.
  unfold cache_step. rewrite app_nil_r.
  split_and!; try done; set_solver.
Qed.

Lemma cache_step_trans c cs new1 new2 st st1 st2 :
  cache_step [c] new1 st st1 →
  cache_step cs new2 st1 st2 →
  cache_step (c :: cs) (new1 ++ new2) st st2.
Proof.
  intros (Hm1 & Hh1 & Hb1 & Hd1 & Hc1 & Hn1 & Hdom1)
         (Hm2 & Hh2 & Hb2 & Hd2 & Hc2 & Hn2 & Hdom2).
  unfold cache_step. split_and!.
  - by etrans.
  - congruence.
  - congruence.
  - congruence.
  - by rewrite Hc2, Hc1, app_assoc.
  - intros c0 [H | H]%elem_of_app.
    + destruct (Hn1 _ H) as [Hin%list_elem_of_singleton Hnone].
      split; [subst; left | done].
    + destruct (Hn2 _ H) as [Hin Hnone]. split; [by right|].
      destruct (refactorings st !! c0) as [x|] eqn:E; [|done].
      eapply lookup_weaken in E; [|exact Hm1]. congruence.
  - intros c0 Hc0. destruct (Hdom2 _ Hc0) as [Hin | Hin].
    + destruct (Hdom1 _ Hin); [by left | right].
      apply elem_of_app; by left.
    + right. apply elem_of_app; by right.
Qed.

(** One run of RefactoringMiner on a commit missing from the cache. *)
Lemma run_refminer_step commit st :
  refactorings st !! commit = None →
  ∃ st', final_state (run_refminer refminer commit st) = Some st'
         ∧ cache_step [commit] [commit] st st'.
Proof.
  intros Hnone. unfold run_refminer.
  assert (Hins : ∀ refs,
    cache_step [commit] [commit] st
      (set_refactorings (<[commit:=refs]> (refactorings (log_detector commit st)))
                        (log_detector commit st))).
  { intros refs. unfold cache_step; simpl. split_and!; try done.
    - by apply insert_subseteq.
    - intros c Hc. split; [done|]. by apply list_elem_of_singleton in Hc as ->.
    - intros c. rewrite dom_insert. set_solver. }
  assert (Hlog : cache_step [commit] [commit] st (log_detector commit st)).
  { unfold cache_step; simpl. split_and!; try done.
    - intros c Hc. split; [done|]. by apply list_elem_of_singleton in Hc as ->.
    - auto. }
  destruct (refminer (detector_calls st) commit) as [[data|]| | | |]; simpl; eauto.
  destruct (read_refactorings data) as [e|[value|]]; simpl; eauto.
Qed.

(** [_extract_refactorings] always ends, and ends in a state that
    extends the cache. *)
Lemma extract_refactorings_step commits st :
  ∃ new st', final_state (_extract_refactorings refminer commits st) = Some st'
             ∧ cache_step commits new st st'.
Proof.
  revert st. induction commits as [|c cs IH]; intros st; simpl.
  - exists [], st. split; [done | apply cache_step_refl].
  - unfold bind.
    destruct (refactorings st !! c) as [refs|] eqn:Hc.
    + destruct (IH st) as (new & st' & Hfin & Hstep).
      exists new, st'. split; [done|].
      change new with ([] ++ new).
      eapply cache_step_trans; [apply cache_step_refl | done].
    + destruct (run_refminer_step c st Hc) as (st1 & Hfin1 & Hstep1).
      destruct (run_refminer refminer c st) as [[] st1'|e st1'|] eqn:Hrun;
        simpl in Hfin1; simplify_eq.
      * destruct (IH st1) as (new & st' & Hfin & Hstep).
        exists ([c] ++ new), st'. split; [done|].
        by eapply cache_step_trans.
      * exists [c], st1. split; [done|].
        change [c] with ([c] ++ []).
        eapply cache_step_trans; [done | apply cache_step_refl].
Qed.

(** An [Ok] pass leaves every requested commit either cached or among
    the commits RefactoringMiner was run on. *)
Lemma extract_refactorings_Ok commits st st' :
  _extract_refactorings refminer commits st = Ok tt st' →
  ∃ new, cache_step commits new st st'.
Proof.
  intros H. destruct (extract_refactorings_step commits st) as (new & st1 & Hfin & Hstep).
  rewrite H in Hfin. simpl in Hfin. simplify_eq. eauto.
Qed.

End Cache.

(** ** get_impacted_files *)

Lemma covers_spec location file_path line :
  covers location file_path line = true
  ↔ filePath location = file_path ∧ startLine location <= line <= endLine location.
Proof.
  unfold covers. rewrite !andb_true_iff, bool_decide_eq_true, !Z.leb_le. tauto.
Qed.

Lemma covered_by_spec refs file_path line :
  covered_by refs file_path line = true
  ↔ ∃ refactoring location,
      refactoring ∈ refs ∧ location ∈ rightSideLocations refactoring
      ∧ filePath location = file_path
      ∧ startLine location <= line <= endLine location.
Proof.
  unfold covered_by. rewrite existsb_exists. split.
  - intros (r & Hr & Hex). apply existsb_exists in Hex as (loc & Hloc & Hcov).
    apply covers_spec in Hcov. exists r, loc.
    rewrite !list_elem_of_In. tauto.
  - intros (r & loc & Hr & Hloc & Hcov). exists r.
    rewrite <- list_elem_of_In. split; [done|].
    apply existsb_exists. exists loc. rewrite <- list_elem_of_In.
    split; [done|]. by apply covers_spec.
Qed.

Lemma filter_iff_elem {A} (P Q : A → Prop)
    `{!∀ x, Decision (P x), !∀ x, Decision (Q x)} (l : list A) :
  (∀ x, x ∈ l → P x ↔ Q x) → filter P l = filter Q l.
Proof.
  induction l as [|a l IH]; intros Hiff; [done|].
  rewrite !filter_cons.
  rewrite IH by (intros x Hx; apply Hiff; by right).
  pose proof (Hiff a (list_elem_of_here _ _)) as Ha.
  destruct (decide (P a)), (decide (Q a)); tauto.
Qed.

Lemma lines_to_remove_spec location file_path (lines : list Z) (acc : gset Z) line :
  line ∈ foldl (fun acc modified_line =>
                  if covers location file_path modified_line
                  then acc ∪ {[modified_line]} else acc) acc lines
  ↔ line ∈ acc ∨ (line ∈ lines ∧ covers location file_path line = true).
Proof.
  revert acc. induction lines as [|x lines IH]; intros acc; simpl.
  - split; [by left | intros [?|[H _]]; [done | by apply elem_of_nil in H]].
  - rewrite IH, elem_of_cons.
    destruct (covers location file_path x) eqn:Hx.
    + rewrite elem_of_union, elem_of_singleton.
      split; [intros [[?| ->]|[? ?]] | intros [?|[[-> |?] ?]]]; auto.
    + split; [intros [?|[? ?]] | intros [?|[[-> |?] ?]]]; auto. congruence.
Qed.

Lemma strip_location_strip_by location f :
  strip_location location f = strip_by (fun file_path line => covers location file_path line) f.
Proof.
  unfold strip_location, strip_by. f_equal.
  apply filter_iff_elem. intros line Hline.
  rewrite lines_to_remove_spec.
  destruct (covers location (ImpactedFile.file_path f) line); [|set_solver].
  split; [intros H; exfalso; apply H; by right | done].
Qed.

Lemma strip_by_strip_by p q f :
  strip_by p (strip_by q f) = strip_by (fun file_path line => q file_path line || p file_path line) f.
Proof.
  unfold strip_by; simpl. f_equal.
  rewrite list_filter_filter. apply list_filter_iff. intros line.
  rewrite orb_false_iff. tauto.
Qed.

Lemma strip_by_ext p q f :
  (∀ file_path line, p file_path line = q file_path line) → strip_by p f = strip_by q f.
Proof.
  intros H. unfold strip_by. f_equal. apply list_filter_iff. intros line. by rewrite H.
Qed.

Lemma fmap_strip_by_none p (impacted_files : list ImpactedFile.t) :
  (∀ file_path line, p file_path line = false) →
  strip_by p <$> impacted_files = impacted_files.
Proof.
  intros Hp. induction impacted_files as [|[fp ls] fs IH]; [done|].
  rewrite fmap_cons, IH. f_equal. unfold strip_by; simpl. f_equal.
  clear IH. induction ls as [|x ls IH]; [done|].
  rewrite filter_cons_True by apply Hp. by f_equal.
Qed.

Lemma strip_refactoring_strip_by impacted_files refactoring :
  strip_refactoring impacted_files refactoring
  = strip_by (fun file_path line =>
                existsb (fun loc => covers loc file_path line) (rightSideLocations refactoring))
      <$> impacted_files.
Proof.
  unfold strip_refactoring.
  induction (rightSideLocations refactoring) as [|loc locs IH] using rev_ind.
  - simpl. by rewrite fmap_strip_by_none.
  - rewrite foldl_snoc, IH. rewrite <- list_fmap_compose.
    apply list_fmap_ext. intros _ f _. simpl.
    rewrite strip_location_strip_by, strip_by_strip_by.
    apply strip_by_ext. intros fp line. rewrite existsb_app. simpl.
    by rewrite orb_false_r.
Qed.

Lemma foldl_strip_refactoring impacted_files refs :
  foldl strip_refactoring impacted_files refs = strip_covered refs <$> impacted_files.
Proof.
  unfold strip_covered.
  induction refs as [|r refs IH] using rev_ind.
  - simpl. by rewrite fmap_strip_by_none.
  - rewrite foldl_snoc, IH, strip_refactoring_strip_by. rewrite <- list_fmap_compose.
    apply list_fmap_ext. intros _ f _. simpl.
    rewrite strip_by_strip_by.
    apply strip_by_ext. intros fp line. unfold covered_by. rewrite existsb_app. simpl.
    by rewrite orb_false_r.
Qed.

(** The lines that survive are those of the base routine outside every
    region of [refs] in the same file. *)
Lemma strip_covered_lines refs f line :
  line ∈ ImpactedFile.modified_lines (strip_covered refs f)
  ↔ line ∈ ImpactedFile.modified_lines f
    ∧ ¬ ∃ refactoring location,
          refactoring ∈ refs ∧ location ∈ rightSideLocations refactoring
          ∧ filePath location = ImpactedFile.file_path f
          ∧ startLine location <= line <= endLine location.
Proof.
  unfold strip_covered, strip_by; simpl.
  rewrite list_elem_of_filter, <- covered_by_spec.
  destruct (covered_by refs (ImpactedFile.file_path f) line); split; intros [? ?]; split;
    auto; congruence.
Qed.

(** [get_impacted_files] once the pass has cached a value the [for] of
    line 54 can go through. *)
Lemma get_impacted_files_run refminer super_get_impacted_files fix_commit_hash st st'
    value refs :
  _extract_refactorings refminer [fix_commit_hash] st = Ok tt st' →
  refactorings st' !! fix_commit_hash = Some value →
  iter_refactorings value = inr refs →
  get_impacted_files refminer super_get_impacted_files fix_commit_hash st
  = Ok (filter (fun f => (0 < length (ImpactedFile.modified_lines f))%nat)
               (strip_covered refs <$> super_get_impacted_files fix_commit_hash)) st'.
Proof.
  intros Hext Hvalue Hiter. unfold get_impacted_files, bind.
  rewrite Hext, Hvalue, Hiter. by rewrite foldl_strip_refactoring.
Qed.

(** C5: once the refactorings [refs] of the fix commit are cached (as
    [value], which the [for] of line 54 goes through as [refs]),
    [get_impacted_files] returns the files of the base routine, each without
    exactly its lines [l] with [startLine <= l <= endLine] for a region of
    [refs] in that file, and without the files left with no line; no cache
    entry but the fix commit's is read. *)
Theorem get_impacted_files_strips
    (refminer : list string -> string -> DetectorRun)
    (super_get_impacted_files : string -> list ImpactedFile.t)
    (fix_commit_hash : string) (st st' : State) (value : RefactoringsValue)
    (refs : list Refactoring) :
  _extract_refactorings refminer [fix_commit_hash] st = Ok tt st' →
  refactorings st' !! fix_commit_hash = Some value →
  iter_refactorings value = inr refs →
  get_impacted_files refminer super_get_impacted_files fix_commit_hash st
  = Ok (filter (fun f => (0 < length (ImpactedFile.modified_lines f))%nat)
               (strip_covered refs <$> super_get_impacted_files fix_commit_hash)) st'
  ∧ ∀ f line,
      line ∈ ImpactedFile.modified_lines (strip_covered refs f)
      ↔ line ∈ ImpactedFile.modified_lines f
        ∧ ¬ ∃ refactoring location,
              refactoring ∈ refs ∧ location ∈ rightSideLocations refactoring
              ∧ filePath location = ImpactedFile.file_path f
              ∧ startLine location <= line <= endLine location.
Proof.
  intros Hextract Hvalue Hiter. split; [|apply strip_covered_lines].
  by eapply get_impacted_files_run.
Qed.

(** A region over lines 4-5 leaves line 3 of [{3,4,5}]. *)
Lemma get_impacted_files_strips_witness :
  let refs := [mkRefactoring "Move Method" [mkLocation "f.java" 4 5]] in
  let st' := Scenario.cached "R2" refs Scenario.st0 in
  _extract_refactorings (Scenario.fix_miner 4 5) ["R2"%string] Scenario.st0 = Ok tt st'
  ∧ refactorings st' !! "R2"%string = Some (RefactoringList refs)
  ∧ get_impacted_files (Scenario.fix_miner 4 5) Scenario.impacted "R2" Scenario.st0
    = Ok [ImpactedFile.mk "f.java" [3]] st'.
Proof.
  intros refs st'.
  assert (H1 : _extract_refactorings (Scenario.fix_miner 4 5) ["R2"%string] Scenario.st0
               = Ok tt st') by (vm_compute; reflexivity).
  assert (H2 : refactorings st' !! "R2"%string = Some (RefactoringList refs))
    by (vm_compute; reflexivity).
  split; [exact H1|]. split; [exact H2|].
  exact (proj1 (get_impacted_files_strips (Scenario.fix_miner 4 5) Scenario.impacted
                  "R2" Scenario.st0 st' (RefactoringList refs) refs H1 H2 eq_refl)).
Defined.

(** A region over lines 3-5 removes the file of [{3,4,5}] altogether. *)
Example get_impacted_files_drops_file :
  get_impacted_files (Scenario.fix_miner 3 5) Scenario.impacted "R2" Scenario.st0
  = Ok [] (Scenario.cached "R2"
             [mkRefactoring "Move Method" [mkLocation "f.java" 3 5]] Scenario.st0).
Proof. vm_compute. reflexivity. Qed.

(** ** Failures of RefactoringMiner *)

Section DetectorFailures.

Variable refminer : list string -> string -> DetectorRun.

(** A timeout stores the empty list. *)
Lemma run_refminer_timeout commit st :
  refminer (detector_calls st) commit = TimeoutExpired →
  run_refminer refminer commit st = Ok tt (Scenario.cached commit [] st).
Proof. intros H. unfold run_refminer. by rewrite H. Qed.

(** So does JSON on which the test of line 35 is false. *)
Lemma run_refminer_corrupted commit st data :
  refminer (detector_calls st) commit = Completed (Some data) →
  read_refactorings data = inr None →
  run_refminer refminer commit st = Ok tt (Scenario.cached commit [] st).
Proof. intros H Hdata. unfold run_refminer. by rewrite H, Hdata. Qed.

(** JSON on which an expression of lines 35 and 36 cannot be evaluated
    leaves [_extract_refactorings] as the exception of that expression. *)
Lemma run_refminer_unreadable commit st data e :
  refminer (detector_calls st) commit = Completed (Some data) →
  read_refactorings data = inl e →
  run_refminer refminer commit st = Raise e (log_detector commit st).
Proof. intros H Hdata. unfold run_refminer. by rewrite H, Hdata. Qed.

(** Otherwise the value under ["refactorings"] is stored, whatever it
    is. *)
Lemma run_refminer_stores commit st data value :
  refminer (detector_calls st) commit = Completed (Some data) →
  read_refactorings data = inr (Some value) →
  run_refminer refminer commit st
  = Ok tt (set_refactorings (<[commit := value]> (refactorings st))
                            (log_detector commit st)).
Proof. intros H Hdata. unfold run_refminer. by rewrite H, Hdata. Qed.


(** A non-zero exit status is logged and stores nothing. *)
Lemma run_refminer_process_error commit st :
  refminer (detector_calls st) commit = CalledProcessError →
  run_refminer refminer commit st = Ok tt (log_detector commit st).
Proof. intros H. unfold run_refminer. by rewrite H. Qed.

(** Output that is not JSON leaves [_extract_refactorings] as an
    exception. *)
Lemma run_refminer_not_json commit st :
  refminer (detector_calls st) commit = Completed None →
  run_refminer refminer commit st = Raise JSONDecodeError (log_detector commit st).
Proof. intros H. unfold run_refminer. by rewrite H. Qed.

Lemma extract_refactorings_process_error_general commit st :
  refactorings st !! commit = None →
  refminer (detector_calls st) commit = CalledProcessError →
  _extract_refactorings refminer [commit] st = Ok tt (log_detector commit st)
  ∧ refactorings (log_detector commit st) !! commit = None.
Proof.
  intros Hnone Hrun. simpl. unfold bind. rewrite Hnone.
  by rewrite run_refminer_process_error.
Qed.

End DetectorFailures.

(** C2, at the failing input: RefactoringMiner exits with an error on the
    fix commit [R2].  [_extract_refactorings] returns with no entry for [R2]
    in the cache, and the lookup [self.refactorings[fix_commit_hash]] of
    [get_impacted_files] raises [KeyError]. *)
Theorem extract_refactorings_process_error :
  _extract_refactorings Scenario.failing_miner ["R2"%string] Scenario.st0
  = Ok tt (log_detector "R2" Scenario.st0)
  ∧ refactorings (log_detector "R2" Scenario.st0) !! "R2"%string = None
  ∧ get_impacted_files Scenario.failing_miner Scenario.impacted "R2" Scenario.st0
    = Raise (KeyError "R2") (log_detector "R2" Scenario.st0).
Proof.
  destruct (extract_refactorings_process_error_general Scenario.failing_miner
              "R2" Scenario.st0) as [H1 H2]; [done | done |].
  split; [exact H1|]. split; [exact H2|].
  unfold get_impacted_files, bind. rewrite H1. simpl in H2 |- *. by rewrite H2.
Qed.

(** ** The partition of the candidates *)

Lemma count_covering_zero locations file_path line :
  count_covering locations file_path line = O
  ↔ existsb (fun loc => covers loc file_path line) locations = false.
Proof.
  unfold count_covering. induction locations as [|loc locs IH]; simpl; [done|].
  destruct (covers loc file_path line) eqn:E; simpl.
  - rewrite filter_cons_True by exact E. simpl. split; intros; discriminate.
  - rewrite filter_cons_False by (rewrite E; discriminate). exact IH.
Qed.

Lemma covering_count_zero refs file_path line :
  covering_count refs file_path line = O ↔ covered_by refs file_path line = false.
Proof.
  unfold covering_count, covered_by. induction refs as [|r refs IH]; [done|].
  rewrite fmap_cons. cbn [sum_list sum_list_with existsb].
  rewrite orb_false_iff, <- IH, <- count_covering_zero. unfold id. lia.
Qed.

Lemma dict_has_spec key (to_reblame : list (string * ReblameCandidate.t)) :
  dict_has key to_reblame = true ↔ key ∈ to_reblame.*1.
Proof. unfold dict_has. apply bool_decide_eq_true. Qed.

Lemma dict_append_line_keys key line to_reblame :
  (dict_append_line key line to_reblame).*1 = to_reblame.*1.
Proof.
  induction to_reblame as [|[k rc] rest IH]; simpl; [done|].
  destruct (decide (k = key)); simpl; by f_equal.
Qed.

Lemma dict_append_line_elem key line to_reblame k rc' :
  NoDup to_reblame.*1 →
  (k, rc') ∈ dict_append_line key line to_reblame →
  (k ≠ key ∧ (k, rc') ∈ to_reblame)
  ∨ (k = key ∧ ∃ rc, (k, rc) ∈ to_reblame
       ∧ rc' = ReblameCandidate.mk (ReblameCandidate.rev rc) (ReblameCandidate.file_path rc)
                 (ReblameCandidate.modified_lines rc ++ [line])).
Proof.
  induction to_reblame as [|[k0 rc0] rest IH]; simpl; intros Hnd Hin.
  - by apply elem_of_nil in Hin.
  - apply NoDup_cons in Hnd as [Hk0 Hnd].
    destruct (decide (k0 = key)) as [->|Hne].
    + apply elem_of_cons in Hin as [Heq | Hin].
      * simplify_eq. right. split; [done|]. exists rc0. split; [by left | done].
      * left. split; [|by right].
        intros ->. apply Hk0. apply list_elem_of_fmap. by exists (key, rc').
    + apply elem_of_cons in Hin as [Heq | Hin].
      * simplify_eq. left. split; [done | by left].
      * destruct (IH Hnd Hin) as [[? ?] | [? (rc & ? & ?)]].
        -- left. split; [done | by right].
        -- right. split; [done|]. exists rc. split; [by right | done].
Qed.

(** What cannot be iterated raises [TypeError], never another exception. *)
Lemma iter_refactorings_TypeError value e :
  iter_refactorings value = inl e → e = TypeError.
Proof.
  destruct value as [refs | fields | s | v]; [| destruct fields | destruct s |];
    simpl; congruence.
Qed.

Lemma cached_refs_Some cache commit refs :
  cached_refs cache commit = Some refs ↔
  ∃ value, cache !! commit = Some value ∧ iter_refactorings value = inr refs.
Proof.
  unfold cached_refs. destruct (cache !! commit) as [value|]; [|split; [done | by intros (? & ? & ?)]].
  destruct (iter_refactorings value) as [e|refs'] eqn:E; split.
  - done.
  - intros (? & ? & ?). congruence.
  - intros ?. simplify_eq. by exists value.
  - intros (? & ? & ?). congruence.
Qed.

Lemma cached_refs_weaken cache cache' commit refs :
  cache ⊆ cache' → cached_refs cache commit = Some refs →
  cached_refs cache' commit = Some refs.
Proof.
  intros Hsub (value & Hvalue & Hiter)%cached_refs_Some.
  apply cached_refs_Some. exists value. split; [by eapply lookup_weaken | done].
Qed.

Lemma cached_refs_is_Some cache commit :
  is_Some (cached_refs cache commit) → is_Some (cache !! commit).
Proof. intros [refs (value & Hvalue & _)%cached_refs_Some]. by exists value. Qed.

Lemma cached_refs_list cache commit refs :
  cache !! commit = Some (RefactoringList refs) → cached_refs cache commit = Some refs.
Proof. intros H. unfold cached_refs. by rewrite H. Qed.

Section Partition.


Variable cache : gmap string RefactoringsValue.

Lemma lines_so_far_S done blame j key :
  lines_so_far cache done blame (S j) key
  = lines_so_far cache done blame j key
    ++ (if decide (reblame_key blame = key) then [BlameData.line_num blame] else []).
Proof.
  unfold lines_so_far. destruct (decide (reblame_key blame = key)).
  - by rewrite replicate_S_end, app_assoc.
  - by rewrite !app_nil_r.
Qed.

Lemma record_reblame_inv done blame j to_reblame :
  to_reblame_inv cache done blame j to_reblame →
  to_reblame_inv cache done blame (S j) (record_reblame blame to_reblame).
Proof.
  intros (Hnd & Hent & Hkeys). unfold record_reblame.
  destruct (dict_has (reblame_key blame) to_reblame) eqn:Hhas.
  - apply dict_has_spec in Hhas. split_and!.
    + by rewrite dict_append_line_keys.
    + intros key rc' Hin.
      apply dict_append_line_elem in Hin as [[Hne Hin] | [-> (rc & Hin & ->)]]; [| |done].
      * destruct (Hent _ _ Hin) as (Hk & Hl & Hne' & Hb). split_and!; try done.
        by rewrite lines_so_far_S, decide_False, app_nil_r.
      * destruct (Hent _ _ Hin) as (Hk & Hl & Hne' & Hb). simpl. split_and!; try done.
        -- by rewrite lines_so_far_S, decide_True, Hl.
        -- by intros [? ?]%app_eq_nil.
    + intros key Hkey. rewrite dict_append_line_keys.
      destruct (decide (reblame_key blame = key)) as [<-|Hne]; [done|].
      apply Hkeys. revert Hkey. by rewrite lines_so_far_S, decide_False, app_nil_r.
  - assert (Hnot : reblame_key blame ∉ to_reblame.*1).
    { intros Hin%dict_has_spec. congruence. }
    assert (Hempty : lines_so_far cache done blame j (reblame_key blame) = []).
    { destruct (lines_so_far cache done blame j (reblame_key blame)) eqn:E; [done|].
      destruct Hnot. apply Hkeys. by rewrite E. }
    split_and!.
    + rewrite fmap_app. simpl. apply NoDup_app. split_and!; [done | | apply NoDup_singleton].
      intros k Hk ->%list_elem_of_singleton. done.
    + intros key rc' [Hin | Hin%list_elem_of_singleton]%elem_of_app.
      * destruct (Hent _ _ Hin) as (Hk & Hl & Hne' & Hb). split_and!; try done.
        rewrite lines_so_far_S, decide_False, app_nil_r; [done|].
        intros <-. apply Hnot. apply list_elem_of_fmap. by exists (reblame_key blame, rc').
      * simplify_eq. simpl. split_and!; try done.
        -- by rewrite lines_so_far_S, decide_True, Hempty.
        -- exists blame. split_and!; try done. by left.
    + intros key Hkey. rewrite fmap_app. simpl. apply elem_of_app.
      destruct (decide (reblame_key blame = key)) as [<-|Hne]; [right; by left|].
      left. apply Hkeys. revert Hkey. by rewrite lines_so_far_S, decide_False, app_nil_r.
Qed.

Lemma scan_location_inv done blame j acc location :
  to_reblame_inv cache done blame j acc.1 →
  acc.2 = bool_decide (j = O) →
  let j' := (j + count_covering [location] (BlameData.file_path blame)
                                (BlameData.line_num blame))%nat in
  to_reblame_inv cache done blame j' (scan_location blame acc location).1
  ∧ (scan_location blame acc location).2 = bool_decide (j' = O).
Proof.
  intros Hinv Hflag. unfold scan_location, count_covering.
  destruct (covers location _ _) eqn:Hc; simpl.
  - rewrite filter_cons_True by exact Hc. simpl.
    replace (j + 1)%nat with (S j) by lia. split.
    + by apply record_reblame_inv.
    + by rewrite bool_decide_eq_false_2.
  - rewrite filter_cons_False by (rewrite Hc; discriminate). simpl.
    by replace (j + 0)%nat with j by lia.
Qed.

Lemma scan_refactoring_inv done blame refactoring : ∀ j acc,
  to_reblame_inv cache done blame j acc.1 →
  acc.2 = bool_decide (j = O) →
  let j' := (j + count_covering (rightSideLocations refactoring)
                   (BlameData.file_path blame) (BlameData.line_num blame))%nat in
  to_reblame_inv cache done blame j' (scan_refactoring blame acc refactoring).1
  ∧ (scan_refactoring blame acc refactoring).2 = bool_decide (j' = O).
Proof.
  unfold scan_refactoring.
  induction (rightSideLocations refactoring) as [|loc locs IH]; intros j acc Hinv Hflag.
  - simpl. unfold count_covering; simpl. by replace (j + 0)%nat with j by lia.
  - simpl. destruct (scan_location_inv done blame j acc loc Hinv Hflag) as [Hinv' Hflag'].
    destruct (IH _ _ Hinv' Hflag') as [Hinv'' Hflag''].
    assert (Hcount : (j + count_covering (loc :: locs) (BlameData.file_path blame)
                                         (BlameData.line_num blame)
      = j + count_covering [loc] (BlameData.file_path blame) (BlameData.line_num blame)
        + count_covering locs (BlameData.file_path blame) (BlameData.line_num blame))%nat).
    { unfold count_covering. change (loc :: locs) with ([loc] ++ locs).
      rewrite filter_app, length_app. lia. }
    rewrite Hcount. done.
Qed.

Lemma scan_refactorings_inv done blame refs : ∀ j acc,
  to_reblame_inv cache done blame j acc.1 →
  acc.2 = bool_decide (j = O) →
  let j' := (j + covering_count refs (BlameData.file_path blame)
                                (BlameData.line_num blame))%nat in
  to_reblame_inv cache done blame j' (foldl (scan_refactoring blame) acc refs).1
  ∧ (foldl (scan_refactoring blame) acc refs).2 = bool_decide (j' = O).
Proof.
  induction refs as [|r refs IH]; intros j acc Hinv Hflag.
  - simpl. unfold covering_count; simpl. by replace (j + 0)%nat with j by lia.
  - simpl. destruct (scan_refactoring_inv done blame r j acc Hinv Hflag) as [Hinv' Hflag'].
    destruct (IH _ _ Hinv' Hflag') as [Hinv'' Hflag''].
    unfold covering_count in *. rewrite fmap_cons. cbn [sum_list sum_list_with].
    unfold id. rewrite Nat.add_assoc. done.
Qed.

Lemma requested_lines_snoc done blame key :
  requested_lines cache (done ++ [blame]) key
  = lines_so_far cache done blame (covering_in cache blame) key.
Proof.
  unfold requested_lines, lines_so_far. rewrite bind_app. f_equal.
  simpl. by rewrite app_nil_r.
Qed.

Lemma to_reblame_spec_enter done blame to_reblame :
  to_reblame_spec cache done to_reblame → to_reblame_inv cache done blame O to_reblame.
Proof.
  assert (Hl : ∀ key, lines_so_far cache done blame O key = requested_lines cache done key).
  { intros key. unfold lines_so_far. simpl.
    destruct (decide _); by rewrite app_nil_r. }
  intros (Hnd & Hent & Hkeys). split_and!; [done | |].
  - intros key rc Hin. destruct (Hent _ _ Hin) as (? & ? & ? & b & ? & ? & ?).
    rewrite Hl. split_and!; try done. exists b. split_and!; try done. by right.
  - intros key. rewrite Hl. apply Hkeys.
Qed.

Lemma to_reblame_spec_exit done blame to_reblame :
  to_reblame_inv cache done blame (covering_in cache blame) to_reblame →
  to_reblame_spec cache (done ++ [blame]) to_reblame.
Proof.
  intros (Hnd & Hent & Hkeys). split_and!; [done | |].
  - intros key rc Hin. destruct (Hent _ _ Hin) as (? & ? & ? & b & Hb & ? & ?).
    rewrite requested_lines_snoc. split_and!; try done. exists b. split_and!; try done.
    apply elem_of_app. apply elem_of_cons in Hb as [->|?]; [right; by left | by left].
  - intros key. rewrite requested_lines_snoc. apply Hkeys.
Qed.

(** The loop over the candidates, from any point of its run. *)
Lemma partition_blames_inv candidate_blame_data : ∀ done to_reblame result to_reblame' result',
  to_reblame_spec cache done to_reblame →
  partition_blames cache candidate_blame_data to_reblame result = inr (to_reblame', result') →
  to_reblame_spec cache (done ++ candidate_blame_data) to_reblame'
  ∧ (∀ b, b ∈ candidate_blame_data → is_Some (cached_refs cache (BlameData.commit b)))
  ∧ (∀ a, a ∈ result' ↔ a ∈ result ∨ (a ∈ candidate_blame_data ∧ covering_in cache a = O)).
Proof.
  induction candidate_blame_data as [|blame rest IH];
    intros done to_reblame result to_reblame' result' Hspec Hrun; simpl in Hrun.
  - simplify_eq. rewrite app_nil_r. split_and!; [done | |].
    + intros b Hb. by apply elem_of_nil in Hb.
    + intros a. split; [by left | intros [?|[Ha _]]; [done | by apply elem_of_nil in Ha]].
  - destruct (cache !! BlameData.commit blame) as [value|] eqn:Hrefs; [|done].
    destruct (iter_refactorings value) as [e|refs] eqn:Hiter; [done|].
    pose proof (scan_refactorings_inv done blame refs O (to_reblame, true)
                  (to_reblame_spec_enter _ blame _ Hspec) eq_refl) as [Hinv Hflag].
    destruct (foldl (scan_refactoring blame) (to_reblame, true) refs)
      as [to_reblame1 can_add] eqn:Hfold.
    simpl in Hinv, Hflag.
    assert (Hcount : covering_in cache blame
                     = covering_count refs (BlameData.file_path blame)
                                      (BlameData.line_num blame)).
    { unfold covering_in, cached_refs. by rewrite Hrefs, Hiter. }
    rewrite <- Hcount in Hinv, Hflag.
    apply to_reblame_spec_exit in Hinv.
    destruct (IH _ _ _ _ _ Hinv Hrun) as (Hspec' & Hcached & Hres).
    rewrite <- app_assoc in Hspec'. split_and!; [done | |].
    + intros b [->|Hb]%elem_of_cons; [|by apply Hcached].
      unfold cached_refs. by rewrite Hrefs, Hiter.
    + intros a. rewrite Hres, elem_of_cons. rewrite Hflag.
      destruct (decide (covering_in cache blame = O)) as [Hz|Hnz].
      * rewrite bool_decide_eq_true_2 by done.
        rewrite elem_of_union, elem_of_singleton.
        split; [intros [[?| ->]|[? ?]] | intros [?|[[-> |?] ?]]]; auto.
      * rewrite bool_decide_eq_false_2 by done.
        split; [intros [?|[? ?]] | intros [?|[[-> |?] ?]]]; auto. done.
Qed.

Lemma to_reblame_spec_nil : to_reblame_spec cache [] [].
Proof.
  split_and!; [apply NoDup_nil_2 | |].
  - intros key rc Hin. by apply elem_of_nil in Hin.
  - intros key Hkey. by destruct Hkey.
Qed.

(** The loop of lines 100-117 as [_blame] runs it. *)
Lemma partition_blames_spec candidate_blame_data to_reblame result :
  partition_blames cache candidate_blame_data [] ∅ = inr (to_reblame, result) →
  to_reblame_spec cache candidate_blame_data to_reblame
  ∧ (∀ b, b ∈ candidate_blame_data → is_Some (cached_refs cache (BlameData.commit b)))
  ∧ (∀ a, a ∈ result ↔ a ∈ candidate_blame_data ∧ covering_in cache a = O).
Proof.
  intros Hrun.
  destruct (partition_blames_inv _ [] _ _ _ _ to_reblame_spec_nil Hrun) as (H1 & H2 & H3).
  split_and!; [done | done |].
  intros a. rewrite H3. split; [intros [Ha|?]; [by apply elem_of_empty in Ha | done] | by right].
Qed.

(** The loop fails only on a candidate whose commit is not cached, with
    the [KeyError] of line 102, or on one whose cached value the [for] of
    line 102 cannot iterate as refactorings, with a [TypeError]. *)
Lemma partition_blames_KeyError candidate_blame_data : ∀ to_reblame result e,
  partition_blames cache candidate_blame_data to_reblame result = inl e →
  ∃ b, b ∈ candidate_blame_data
       ∧ ((cache !! BlameData.commit b = None ∧ e = KeyError (BlameData.commit b))
          ∨ (∃ value, cache !! BlameData.commit b = Some value
                      ∧ iter_refactorings value = inl e ∧ e = TypeError)).
Proof.
  induction candidate_blame_data as [|blame rest IH]; intros to_reblame result e Hrun;
    simpl in Hrun; [done|].
  destruct (cache !! BlameData.commit blame) as [value|] eqn:Hrefs.
  - destruct (iter_refactorings value) as [e'|refs] eqn:Hiter.
    + simplify_eq. exists blame. split; [by left|]. right. exists value.
      split_and!; [done | done | by eapply iter_refactorings_TypeError].
    + destruct (foldl (scan_refactoring blame) (to_reblame, true) refs) as [d c].
      destruct (IH _ _ _ Hrun) as (b & Hb & Hcase).
      exists b. split; [by right | done].
  - simplify_eq. exists blame. split; [by left|]. by left.
Qed.

End Partition.

(** ** Frame of a run *)

Lemma runs_only_new_refl st st' :
  detector_calls st' = detector_calls st → runs_only_new st st'.
Proof.
  intros H. exists []. split; [by rewrite app_nil_r|].
  intros c Hc. by apply elem_of_nil in Hc.
Qed.

#[global] Instance extends_preorder : PreOrder extends.
Proof.
  split.
  - intros st. split_and!; try done. by apply runs_only_new_refl.
  - intros st1 st2 st3 (Hm1&?&(new1&Hc1&Hn1)&?&?) (?&?&(new2&Hc2&Hn2)&?&?).
    split_and!; try (by etrans).
    exists (new1 ++ new2). split; [by rewrite Hc2, Hc1, app_assoc|].
    intros c [Hc|Hc]%elem_of_app; [by apply Hn1|].
    destruct (refactorings st1 !! c) as [x|] eqn:E; [|done].
    eapply lookup_weaken in E; [|exact Hm1]. rewrite Hn2 in E; done.
Qed.

Lemma cache_step_extends commits new st st' : cache_step commits new st st' → extends st st'.
Proof.
  intros (Hm & Hh & Hb & Hd & Hc & Hnew & _). split_and!; [done | | | |].
  - by rewrite Hh.
  - exists new. split; [done|]. intros c Hin. by destruct (Hnew _ Hin).
  - by rewrite Hb.
  - by rewrite Hd.
Qed.

Lemma log_blame_extends ev st : extends st (log_blame ev st).
Proof.
  split_and!; simpl; try done; [by apply runs_only_new_refl | by apply prefix_app_r].
Qed.

Lemma log_drop_extends rc st : extends st (log_drop rc st).
Proof.
  split_and!; simpl; try done; [by apply runs_only_new_refl | by apply prefix_app_r].
Qed.

Lemma set_running_extends i st : extends st (set_running i st).
Proof. split_and!; simpl; try done. by apply runs_only_new_refl. Qed.

Lemma fork_ignore_heap l rev st :
  heap (fork_ignore l rev st) = heap st ++ [(heap st !!! l) ++ [rev]].
Proof.
  unfold fork_ignore, list_append, list_copy; simpl.
  rewrite (list_lookup_total_middle (heap st) [] (heap st !!! l) (length (heap st))) by done.
  rewrite insert_app_r_alt by done. by rewrite Nat.sub_diag.
Qed.

Lemma fork_ignore_extends l rev st : extends st (fork_ignore l rev st).
Proof.
  split_and!; try done; [|by apply runs_only_new_refl].
  rewrite fork_ignore_heap. by apply prefix_app_r.
Qed.

Lemma fork_ignore_fields l rev st :
  refactorings (fork_ignore l rev st) = refactorings st
  ∧ detector_calls (fork_ignore l rev st) = detector_calls st
  ∧ blame_calls (fork_ignore l rev st) = blame_calls st
  ∧ dropped (fork_ignore l rev st) = dropped st
  ∧ running (fork_ignore l rev st) = running st.
Proof. done. Qed.


(** A list object that exists is not touched by a run. *)
Lemma extends_heap_lookup st st' (l : ref) (revs : list string) :
  extends st st' → heap st !! l = Some revs → heap st' !! l = Some revs.
Proof. intros (_ & Hh & _) Hl. by eapply prefix_lookup_Some. Qed.

Lemma lookup_total_Some (h : list (list string)) (l : ref) revs :
  h !! l = Some revs → h !!! l = revs.
Proof. intros H. by apply list_lookup_total_correct. Qed.

Section Frame.

Variable refminer : list string -> string -> DetectorRun.
Variable super_blame : BlameCall -> list BlameData.t.

(** One turn of the reblame loop, by cases. *)
Lemma reblame_step_Some rec l result rc st :
  reblame_step rec (Some l) result rc st
  = if decide (ReblameCandidate.rev rc ∈ heap st !!! l)
    then Ok result (log_drop rc st)
    else match rec (ReblameCandidate.rev rc) (ReblameCandidate.file_path rc)
                   (ReblameCandidate.modified_lines rc) (Some (length (heap st)))
                   (fork_ignore l (ReblameCandidate.rev rc) st) with
         | Ok new_blame_results st' =>
             Ok (result ∪ new_blame_results) (set_running (running st) st')
         | Raise e st' => Raise e st'
         | OutOfFuel => OutOfFuel
         end.
Proof. unfold reblame_step. by destruct (decide _). Qed.

Lemma extract_refactorings_extends commits st st' :
  final_state (_extract_refactorings refminer commits st) = Some st' → extends st st'.
Proof.
  intros H. destruct (extract_refactorings_step refminer commits st) as (new & st1 & H1 & Hs).
  rewrite H in H1. simplify_eq. by eapply cache_step_extends.
Qed.

Lemma reblame_loop_extends rec ignore_revs_list :
  (∀ rev file_path lines ig s s',
      final_state (rec rev file_path lines ig s) = Some s' → extends s s') →
  ∀ to_reblame result st st',
    final_state (reblame_loop rec ignore_revs_list to_reblame result st) = Some st' →
    extends st st'.
Proof.
  intros Hrec to_reblame. induction to_reblame as [|rc rest IH]; intros result st st' Hfin.
  - simpl in Hfin. by simplify_eq.
  - simpl in Hfin. unfold bind in Hfin.
    destruct ignore_revs_list as [l|]; [|simpl in Hfin; by simplify_eq].
    rewrite reblame_step_Some in Hfin.
    destruct (decide _).
    + etrans; [apply log_drop_extends | by eapply IH].
    + destruct (rec _ _ _ _ _) as [new st1|e st1|] eqn:Hcall; [| |done].
      * etrans; [apply fork_ignore_extends|].
        etrans; [eapply Hrec; by rewrite Hcall|].
        etrans; [apply (set_running_extends (running st)) | by eapply IH].
      * simpl in Hfin. simplify_eq.
        etrans; [apply fork_ignore_extends|]. eapply Hrec. by rewrite Hcall.
Qed.

Lemma blame_extends fuel : ∀ rev file_path lines ig st st',
  final_state (_blame refminer super_blame fuel rev file_path lines ig st) = Some st' →
  extends st st'.
Proof.
  induction fuel as [|fuel IH]; intros rev file_path lines ig st st' Hfin; [done|].
  simpl in Hfin. unfold bind in Hfin.
  destruct (_extract_refactorings _ _ _) as [[] st1|e st1|] eqn:Hext; [| |done].
  - assert (Hst1 : extends st st1).
    { etrans; [apply log_blame_extends|].
      eapply extract_refactorings_extends. by rewrite Hext. }
    destruct (partition_blames _ _ _ _) as [e|[to_reblame result]].
    + simpl in Hfin. by simplify_eq.
    + etrans; [exact Hst1|]. eapply reblame_loop_extends; [exact IH | exact Hfin].
  - simpl in Hfin. simplify_eq.
    etrans; [apply log_blame_extends|].
    eapply extract_refactorings_extends. by rewrite Hext.
Qed.

End Frame.

(** ** Idempotence of the cache *)

(** C7: from any state in which [commit] is cached, whatever calls led to
    it, a pass of [_extract_refactorings] over any commits ends, leaves the
    entry of [commit] as it was, and runs RefactoringMiner only on
    requested commits that were not cached, never on [commit]; the same
    holds of a whole run of [_blame], whose recursive calls share the
    cache. *)
Theorem cache_idempotent
    (refminer : list string -> string -> DetectorRun)
    (super_blame : BlameCall -> list BlameData.t)
    (commits : list string) (st : State) (commit : string) (value : RefactoringsValue) :
  refactorings st !! commit = Some value →
  (∃ new st',
     final_state (_extract_refactorings refminer commits st) = Some st'
     ∧ refactorings st' !! commit = Some value
     ∧ detector_calls st' = detector_calls st ++ new
     ∧ (commit ∉ new)
     ∧ ∀ c, c ∈ new → c ∈ commits ∧ refactorings st !! c = None)
  ∧ (∀ fuel rev file_path modified_lines ignore_revs_list st',
       final_state (_blame refminer super_blame fuel rev file_path modified_lines
                           ignore_revs_list st) = Some st' →
       refactorings st' !! commit = Some value
       ∧ ∃ new, detector_calls st' = detector_calls st ++ new
                ∧ (commit ∉ new)
                ∧ ∀ c, c ∈ new → refactorings st !! c = None).
Proof.
  intros Hcached. split.
  - destruct (extract_refactorings_step refminer commits st)
      as (new & st' & Hfin & Hsub & _ & _ & _ & Hcalls & Hnew & _).
    exists new, st'. split_and!; try done.
    + by eapply lookup_weaken.
    + intros Hin. destruct (Hnew _ Hin) as [_ Hnone]. congruence.
  - intros fuel rev file_path modified_lines ignore_revs_list st' Hfin.
    destruct (blame_extends _ _ _ _ _ _ _ _ _ Hfin) as (Hsub & _ & (new & Hcalls & Hnew) & _).
    split; [by eapply lookup_weaken|].
    exists new. split_and!; try done.
    intros Hin. rewrite (Hnew _ Hin) in Hcached. done.
Qed.

(** With [R1] cached, a pass over [R1] and [R0] runs RefactoringMiner on
    [R0] alone. *)
Lemma cache_idempotent_witness :
  let st := Scenario.cached "R1" [Scenario.rename_method] Scenario.st0 in
  refactorings st !! "R1"%string = Some (RefactoringList [Scenario.rename_method])
  ∧ ∃ new st',
      final_state (_extract_refactorings Scenario.miner ["R1"; "R0"]%string st) = Some st'
      ∧ refactorings st' !! "R1"%string = Some (RefactoringList [Scenario.rename_method])
      ∧ detector_calls st' = detector_calls st ++ new
      ∧ ("R1"%string ∉ new)
      ∧ ∀ c, c ∈ new → c ∈ ["R1"; "R0"]%string ∧ refactorings st !! c = None.
Proof.
  intros st.
  assert (H : refactorings st !! "R1"%string = Some (RefactoringList [Scenario.rename_method]))
    by (vm_compute; reflexivity).
  split; [exact H|].
  exact (proj1 (cache_idempotent Scenario.miner Scenario.engine_B ["R1"; "R0"]%string st "R1"
                  (RefactoringList [Scenario.rename_method]) H)).
Defined.

(** ** No refactoring-only attribution survives *)

Lemma accepted_in_weaken cache cache' a :
  cache ⊆ cache' → accepted_in cache a → accepted_in cache' a.
Proof.
  intros Hsub (refs & Hrefs & Hcov). exists refs.
  split; [by eapply cached_refs_weaken | done].
Qed.

Lemma accepted_in_extends st st' a :
  extends st st' → accepted_in (refactorings st) a → accepted_in (refactorings st') a.
Proof. intros (Hsub & _). by apply accepted_in_weaken. Qed.

Section Accepted.

Variable refminer : list string -> string -> DetectorRun.
Variable super_blame : BlameCall -> list BlameData.t.

Lemma reblame_loop_accepted rec ignore_revs_list :
  (∀ rev file_path lines ig s s',
      final_state (rec rev file_path lines ig s) = Some s' → extends s s') →
  (∀ rev file_path lines ig s result s',
      rec rev file_path lines ig s = Ok result s' →
      ∀ a, a ∈ result → accepted_in (refactorings s') a) →
  ∀ to_reblame result st result' st',
    (∀ a, a ∈ result → accepted_in (refactorings st) a) →
    reblame_loop rec ignore_revs_list to_reblame result st = Ok result' st' →
    ∀ a, a ∈ result' → accepted_in (refactorings st') a.
Proof.
  intros Hext Hrec to_reblame.
  induction to_reblame as [|rc rest IH]; intros result st result' st' Hacc Hrun.
  - simpl in Hrun. unfold ret in Hrun. by simplify_eq.
  - simpl in Hrun. unfold bind in Hrun.
    destruct ignore_revs_list as [l|]; [|done].
    rewrite reblame_step_Some in Hrun.
    destruct (decide _).
    + eapply IH; [|exact Hrun]. done.
    + destruct (rec _ _ _ _ _) as [new st1|e st1|] eqn:Hcall; [|done|done].
      eapply IH; [|exact Hrun]. simpl.
      intros a [Ha|Ha]%elem_of_union.
      * eapply accepted_in_extends; [|by apply Hacc].
        etrans; [apply fork_ignore_extends|]. eapply Hext. by rewrite Hcall.
      * by eapply Hrec.

Qed.

Lemma blame_accepted fuel : ∀ rev file_path lines ig st result st',
  _blame refminer super_blame fuel rev file_path lines ig st = Ok result st' →
  ∀ a, a ∈ result → accepted_in (refactorings st') a.
Proof.
  induction fuel as [|fuel IH]; intros rev file_path lines ig st result st' Hrun; [done|].
  simpl in Hrun. unfold bind in Hrun.
  destruct (_extract_refactorings _ _ _) as [[] st1|e st1|] eqn:Hext; [|done|done].
  destruct (partition_blames _ _ _ _) as [e|[to_reblame accepted]] eqn:Hpart; [done|].
  apply partition_blames_spec in Hpart as (_ & Hcached & Hacc).
  eapply reblame_loop_accepted; [apply blame_extends | exact IH | | exact Hrun].
  intros a [Ha Hzero]%Hacc.
  destruct (Hcached _ Ha) as [refs Hrefs]. exists refs. split; [done|].
  apply covering_count_zero. unfold covering_in in Hzero. by rewrite Hrefs in Hzero.
Qed.

End Accepted.

(** C1: every attribution [a] that a call of [_blame] returns, whatever
    the depth of the recursive call that contributed it, has its commit in
    the cache, and no region of any refactoring recorded for that commit
    covers line [a.line_num] of [a.file_path]. *)
Theorem blame_no_refactoring_only
    (refminer : list string -> string -> DetectorRun)
    (super_blame : BlameCall -> list BlameData.t)
    (fuel : nat) (rev file_path : string) (modified_lines : list Z)
    (ignore_revs_list : option ref) (st st' : State) (result : gset BlameData.t)
    (a : BlameData.t) :
  _blame refminer super_blame fuel rev file_path modified_lines ignore_revs_list st
  = Ok result st' →
  a ∈ result →
  ∃ value refs, refactorings st' !! BlameData.commit a = Some value
    ∧ iter_refactorings value = inr refs
    ∧ ∀ refactoring location,
        refactoring ∈ refs → location ∈ rightSideLocations refactoring →
        ¬ (filePath location = BlameData.file_path a
           ∧ startLine location <= BlameData.line_num a <= endLine location).
Proof.
  intros Hrun Ha.
  destruct (blame_accepted _ _ _ _ _ _ _ _ _ _ Hrun a Ha) as (refs & Hrefs & Hcov).
  apply cached_refs_Some in Hrefs as (value & Hvalue & Hiter).
  exists value, refs. split; [done|]. split; [done|]. intros r loc Hr Hloc Hin.
  assert (covered_by refs (BlameData.file_path a) (BlameData.line_num a) = true); [|congruence].
  apply covered_by_spec. exists r, loc. tauto.
Qed.

(** Scenario B returns the attribution to [R0], which no region covers. *)
Lemma blame_no_refactoring_only_witness :
  let a := BlameData.mk "R0" 10 "int x;" "f.java" in
  _blame Scenario.miner Scenario.engine_B 3 "R2" "f.java" [10] (Some O) Scenario.st0
  = Ok {[a]} Scenario.st_B
  ∧ a ∈ ({[a]} : gset BlameData.t)
  ∧ ∃ value refs, refactorings Scenario.st_B !! "R0"%string = Some value
      ∧ iter_refactorings value = inr refs
      ∧ ∀ refactoring location,

          refactoring ∈ refs → location ∈ rightSideLocations refactoring →
          ¬ (filePath location = "f.java"%string ∧ startLine location <= 10 <= endLine location).
Proof.
  intros a.
  assert (H1 : _blame Scenario.miner Scenario.engine_B 3 "R2" "f.java" [10] (Some O) Scenario.st0
               = Ok {[a]} Scenario.st_B)
    by (vm_cast_no_check (eq_refl (Ok (A := gset BlameData.t) {[a]} Scenario.st_B))).
  assert (H2 : a ∈ ({[a]} : gset BlameData.t)) by (by apply elem_of_singleton).
  split; [exact H1|]. split; [exact H2|].
  exact (blame_no_refactoring_only _ _ _ _ _ _ _ _ _ _ a H1 H2).
Defined.

(** ** Grouping of the reblame requests *)

Lemma reblame_key_inj commit1 commit2 file_path1 file_path2 :
  no_at commit1 = true → no_at commit2 = true →
  commit1 +:+ "@"%string +:+ file_path1 = commit2 +:+ "@"%string +:+ file_path2 →
  commit1 = commit2 ∧ file_path1 = file_path2.
Proof.
  revert commit2. induction commit1 as [|c1 s1 IH]; intros [|c2 s2] H1 H2 Heq;
    simpl in *.
  - by simplify_eq.
  - injection Heq as <- _. by rewrite Ascii.eqb_refl in H2.
  - injection Heq as -> _. by rewrite Ascii.eqb_refl in H1.
  - apply andb_true_iff in H1 as [_ H1]. apply andb_true_iff in H2 as [_ H2].
    injection Heq as -> Heq. by destruct (IH s2 H1 H2 Heq) as [-> ->].
Qed.

Lemma requested_lines_covered cache candidate_blame_data b :
  b ∈ candidate_blame_data → covering_in cache b ≠ O →
  requested_lines cache candidate_blame_data (reblame_key b) ≠ [].
Proof.
  intros Hb Hcov Hnil.
  assert (Hin : BlameData.line_num b ∈ requested_lines cache candidate_blame_data (reblame_key b)).
  { unfold requested_lines. apply list_elem_of_bind. exists b. split; [|done].
    rewrite decide_True by done. by apply elem_of_replicate. }
  rewrite Hnil in Hin. by apply elem_of_nil in Hin.
Qed.

(** One level of [_blame]. *)
Lemma blame_S refminer super_blame fuel rev file_path modified_lines ignore_revs_list st :
  _blame refminer super_blame (S fuel) rev file_path modified_lines ignore_revs_list st
  = bind (_extract_refactorings refminer
            (remove_dups (BlameData.commit <$>
               super_blame (ev_call (blame_event rev file_path modified_lines
                                                 ignore_revs_list st)))))
         (fun _ st1 =>
            match partition_blames (refactorings st1)
                    (super_blame (ev_call (blame_event rev file_path modified_lines
                                                       ignore_revs_list st))) [] ∅ with
            | inl e => Raise e st1
            | inr (to_reblame, result_blame_data) =>
                reblame_loop (_blame refminer super_blame fuel) ignore_revs_list
                             (to_reblame.*2) result_blame_data st1
            end)
         (log_blame (blame_event rev file_path modified_lines ignore_revs_list st) st).
Proof. reflexivity. Qed.

(** C6, as the code has it: within one call of [_blame] the whole of
    [to_reblame] is built before the loop that issues the recursive calls
    starts; it holds one request per key [rev + "@" + file_path], made of
    the commit and file of a candidate; the request of a key lists the line
    of every covered candidate with that key, once for each location that
    covers it, so a line inside several regions is listed several times.
    For commit names without ["@"] the key identifies the pair
    [(rev, file_path)]. *)
Theorem to_reblame_grouped
    (refminer : list string -> string -> DetectorRun)
    (super_blame : BlameCall -> list BlameData.t)
    (fuel : nat) (rev file_path : string) (modified_lines : list Z)
    (ignore_revs_list : option ref) (st st1 : State)
    (to_reblame : list (string * ReblameCandidate.t)) (result : gset BlameData.t) :
  let ev := blame_event rev file_path modified_lines ignore_revs_list st in
  let candidate_blame_data := super_blame (ev_call ev) in
  _extract_refactorings refminer
    (remove_dups (BlameData.commit <$> candidate_blame_data)) (log_blame ev st) = Ok tt st1 →
  partition_blames (refactorings st1) candidate_blame_data [] ∅ = inr (to_reblame, result) →
  _blame refminer super_blame (S fuel) rev file_path modified_lines ignore_revs_list st
  = reblame_loop (_blame refminer super_blame fuel) ignore_revs_list (to_reblame.*2) result st1
  ∧ NoDup to_reblame.*1
  ∧ (∀ key rc, (key, rc) ∈ to_reblame →
       key = ReblameCandidate.rev rc +:+ "@"%string +:+ ReblameCandidate.file_path rc
       ∧ ReblameCandidate.modified_lines rc
         = requested_lines (refactorings st1) candidate_blame_data key
       ∧ (∃ b, b ∈ candidate_blame_data
               ∧ ReblameCandidate.rev rc = BlameData.commit b
               ∧ ReblameCandidate.file_path rc = BlameData.file_path b)
       ∧ ∀ b, no_at (BlameData.commit b) = true → no_at (ReblameCandidate.rev rc) = true →
              reblame_key b = key →
              BlameData.commit b = ReblameCandidate.rev rc
              ∧ BlameData.file_path b = ReblameCandidate.file_path rc)
  ∧ (∀ b, b ∈ candidate_blame_data → covering_in (refactorings st1) b ≠ O →
          reblame_key b ∈ to_reblame.*1).
Proof.
  intros ev candidate_blame_data Hext Hpart. split.
  { rewrite blame_S. unfold bind. fold ev. fold candidate_blame_data.
    by rewrite Hext, Hpart. }
  apply partition_blames_spec in Hpart as ((Hnd & Hent & Hkeys) & _ & _).
  split_and!; [done | |].
  - intros key rc Hin. destruct (Hent _ _ Hin) as (Hkey & Hlines & _ & Hb).
    split_and!; try done.
    intros b Hb1 Hb2 Hk. unfold reblame_key in Hk. rewrite Hkey in Hk.
    by apply reblame_key_inj in Hk.
  - intros b Hb Hcov. by apply Hkeys, requested_lines_covered.
Qed.

(** Scenario B: the one covered candidate makes the one request. *)
Lemma to_reblame_grouped_witness :
  let ev := blame_event "R2" "f.java" [10] (Some O) Scenario.st0 in
  let st1 := Scenario.cached "R1" [Scenario.rename_method] (log_blame ev Scenario.st0) in
  let to_reblame := [("R1@f.java"%string, ReblameCandidate.mk "R1" "f.java" [10])] in
  _extract_refactorings Scenario.miner
    (remove_dups (BlameData.commit <$> Scenario.engine_B (ev_call ev)))
    (log_blame ev Scenario.st0) = Ok tt st1
  ∧ partition_blames (refactorings st1) (Scenario.engine_B (ev_call ev)) [] ∅
    = inr (to_reblame, ∅)
  ∧ NoDup to_reblame.*1.
Proof.
  intros ev st1 to_reblame.
  assert (H1 : _extract_refactorings Scenario.miner
                 (remove_dups (BlameData.commit <$> Scenario.engine_B (ev_call ev)))
                 (log_blame ev Scenario.st0) = Ok tt st1)
    by (vm_cast_no_check (eq_refl (Ok tt st1))).
  assert (H2 : partition_blames (refactorings st1) (Scenario.engine_B (ev_call ev)) [] ∅
               = inr (to_reblame, ∅))
    by (vm_cast_no_check
          (eq_refl (inr (to_reblame, ∅)
                    : PyExn + (list (string * ReblameCandidate.t) * gset BlameData.t)))).
  split; [exact H1|]. split; [exact H2|].
  exact (proj1 (proj2 (to_reblame_grouped Scenario.miner Scenario.engine_B 2 "R2" "f.java"
                         [10] (Some O) Scenario.st0 st1 to_reblame ∅ H1 H2))).
Defined.

(** C6, as stated, fails: line 10 of [R1] lies inside two regions of [R1]
    and is appended to the request twice. *)
Lemma request_lines_repeat_counterexample :
  partition_blames Scenario.cache_two_regions
    [BlameData.mk "R1" 10 "int x;" "f.java"] [] ∅
  = inr ([("R1@f.java"%string, ReblameCandidate.mk "R1" "f.java" [10; 10])], ∅)
  ∧ ¬ NoDup (ReblameCandidate.modified_lines (ReblameCandidate.mk "R1" "f.java" [10; 10])).
Proof.
  split.
  - vm_cast_no_check
      (eq_refl (inr ([("R1@f.java"%string, ReblameCandidate.mk "R1" "f.java" [10; 10])], ∅)
                : PyExn + (list (string * ReblameCandidate.t) * gset BlameData.t))).
  - simpl. intros [Hnot _]%NoDup_cons. apply Hnot. by left.
Qed.

(** ** The default [ignore_revs_list=None] *)

Section NoIgnoreList.

Variable refminer : list string -> string -> DetectorRun.
Variable super_blame : BlameCall -> list BlameData.t.

(** With [None] the first turn of the loop evaluates [rev in None]. *)
Lemma reblame_loop_None rec rc rest result st :
  reblame_loop rec None (rc :: rest) result st = Raise TypeError st.
Proof. reflexivity. Qed.

Lemma partition_blames_total cache candidate_blame_data :
  (∀ b, b ∈ candidate_blame_data → is_Some (cached_refs cache (BlameData.commit b))) →
  ∃ to_reblame result,
    partition_blames cache candidate_blame_data [] ∅ = inr (to_reblame, result).
Proof.
  intros Hcached.
  destruct (partition_blames cache candidate_blame_data [] ∅) as [e|[d r]] eqn:Hpart; [|eauto].
  apply partition_blames_KeyError in Hpart as (b & Hb & Hcase).
  destruct (Hcached _ Hb) as [refs (value & Hvalue & Hiter)%cached_refs_Some].
  destruct Hcase as [[Hnone _] | (value' & Hvalue' & Hiter' & _)]; congruence.
Qed.

(** With every candidate's commit cached, the loop can only fail with
    [TypeError]. *)
Lemma partition_blames_TypeError cache candidate_blame_data to_reblame result e :
  (∀ b, b ∈ candidate_blame_data → is_Some (cache !! BlameData.commit b)) →
  partition_blames cache candidate_blame_data to_reblame result = inl e → e = TypeError.
Proof.
  intros Hcached Hpart.
  apply partition_blames_KeyError in Hpart as (b & Hb & [[Hnone _] | (? & _ & _ & ->)]);
    [|done].
  destruct (Hcached _ Hb) as [value Hvalue]. congruence.
Qed.

End NoIgnoreList.

(** C10: a call of [_blame] with [ignore_revs_list=None] in which a
    candidate falls inside a region of its commit raises: [TypeError] when
    the commit of every candidate is cached, from the membership test on
    [None] (or, before it, from the [for] of line 102 on a cached value
    that is no list), and otherwise the exception of the loop of lines
    100-117, the [KeyError] of a commit without an entry among them. *)

Theorem blame_None_raises
    (refminer : list string -> string -> DetectorRun)
    (super_blame : BlameCall -> list BlameData.t)
    (fuel : nat) (rev file_path : string) (modified_lines : list Z)
    (st st1 : State) (b : BlameData.t) (value : RefactoringsValue)
    (refs : list Refactoring) :
  let ev := blame_event rev file_path modified_lines None st in
  let candidate_blame_data := super_blame (ev_call ev) in
  _extract_refactorings refminer
    (remove_dups (BlameData.commit <$> candidate_blame_data)) (log_blame ev st) = Ok tt st1 →
  b ∈ candidate_blame_data →
  refactorings st1 !! BlameData.commit b = Some value →
  iter_refactorings value = inr refs →
  covered_by refs (BlameData.file_path b) (BlameData.line_num b) = true →
  ∃ e, _blame refminer super_blame (S fuel) rev file_path modified_lines None st = Raise e st1
       ∧ ((∀ b', b' ∈ candidate_blame_data →
                 is_Some (refactorings st1 !! BlameData.commit b')) →
          e = TypeError).
Proof.
  intros ev candidate_blame_data Hext Hb Hvalue Hiter Hcov.
  rewrite blame_S. unfold bind. fold ev. fold candidate_blame_data. rewrite Hext.
  destruct (partition_blames (refactorings st1) candidate_blame_data [] ∅)
    as [e|[to_reblame result]] eqn:Hpart.
  - exists e. split; [done|]. intros Hcached.
    by eapply partition_blames_TypeError.
  - exists TypeError. split; [|done].
    apply partition_blames_spec in Hpart as ((_ & _ & Hkeys) & _ & _).
    assert (Hkey : reblame_key b ∈ to_reblame.*1).
    { apply Hkeys, requested_lines_covered; [done|].
      unfold covering_in, cached_refs. rewrite Hvalue, Hiter.
      rewrite covering_count_zero. congruence. }
    destruct to_reblame as [|[k rc] rest]; [by apply elem_of_nil in Hkey|].
    apply reblame_loop_None.
Qed.

(** Scenario C with the default argument. *)
Lemma blame_None_raises_witness :
  let ev := blame_event "R2" "f.java" [10] None Scenario.st0 in
  let st1 := Scenario.cached "R1" [Scenario.rename_method] (log_blame ev Scenario.st0) in
  let b := BlameData.mk "R1" 10 "int x;" "f.java" in
  _extract_refactorings Scenario.miner
    (remove_dups (BlameData.commit <$> Scenario.engine_C (ev_call ev)))
    (log_blame ev Scenario.st0) = Ok tt st1
  ∧ b ∈ Scenario.engine_C (ev_call ev)
  ∧ refactorings st1 !! "R1"%string = Some (RefactoringList [Scenario.rename_method])
  ∧ covered_by [Scenario.rename_method] "f.java" 10 = true
  ∧ ∃ e, _blame Scenario.miner Scenario.engine_C 1 "R2" "f.java" [10] None Scenario.st0
         = Raise e st1
         ∧ ((∀ b', b' ∈ Scenario.engine_C (ev_call ev) →
                   is_Some (refactorings st1 !! BlameData.commit b')) →
            e = TypeError).
Proof.
  intros ev st1 b.
  assert (H1 : _extract_refactorings Scenario.miner
                 (remove_dups (BlameData.commit <$> Scenario.engine_C (ev_call ev)))
                 (log_blame ev Scenario.st0) = Ok tt st1)
    by (vm_cast_no_check (eq_refl (Ok tt st1))).
  assert (H2 : b ∈ Scenario.engine_C (ev_call ev)) by (by left).
  assert (H3 : refactorings st1 !! "R1"%string = Some (RefactoringList [Scenario.rename_method]))
    by (vm_compute; reflexivity).
  assert (H4 : covered_by [Scenario.rename_method] "f.java" 10 = true)
    by (vm_compute; reflexivity).
  split; [exact H1|]. split; [exact H2|]. split; [exact H3|]. split; [exact H4|].
  exact (blame_None_raises Scenario.miner Scenario.engine_C O "R2" "f.java" [10]
           Scenario.st0 st1 b (RefactoringList [Scenario.rename_method])
           [Scenario.rename_method] H1 H2 H3 eq_refl H4).

Defined.

(** With an empty list instead of [None] the same call returns. *)
Example blame_empty_list_returns :
  _blame Scenario.miner Scenario.engine_C 3 "R2" "f.java" [10] (Some O) Scenario.st0
  = Ok ∅ Scenario.st_C.
Proof. vm_cast_no_check (eq_refl (Ok (A := gset BlameData.t) ∅ Scenario.st_C)). Qed.

(** ** The cycle guard *)

Section CycleGuard.

Variable refminer : list string -> string -> DetectorRun.
Variable super_blame : BlameCall -> list BlameData.t.


Lemma reblame_step_dropped rec l revs result rc st :
  heap st !! l = Some revs → ReblameCandidate.rev rc ∈ revs →
  reblame_step rec (Some l) result rc st = Ok result (log_drop rc st).
Proof.
  intros Hl Hin. rewrite reblame_step_Some.
  rewrite (lookup_total_Some _ _ _ Hl). by rewrite decide_True.
Qed.

End CycleGuard.



(** Scenario C: the recursive call meets [R1] again, drops the request
    and the whole call returns without line 10. *)
Example scenario_C_drops_line :
  _blame Scenario.miner Scenario.engine_C 3 "R2" "f.java" [10] (Some O) Scenario.st0
  = Ok ∅ Scenario.st_C
  ∧ dropped Scenario.st_C = [ReblameCandidate.mk "R1" "f.java" [10]].
Proof.
  split; [|reflexivity].
  vm_cast_no_check (eq_refl (Ok (A := gset BlameData.t) ∅ Scenario.st_C)).
Qed.

(** ** Conservation of lines *)

Lemma lines_of_requests_cons rc requests :
  lines_of_requests (rc :: requests)
  = list_to_set (ReblameCandidate.modified_lines rc) ∪ lines_of_requests requests.
Proof. reflexivity. Qed.

Lemma lines_of_requests_app requests1 requests2 :
  lines_of_requests (requests1 ++ requests2)
  = lines_of_requests requests1 ∪ lines_of_requests requests2.
Proof. unfold lines_of_requests. by rewrite fmap_app, union_list_app_L. Qed.

Lemma elem_of_lines_of_requests requests line :
  line ∈ lines_of_requests requests
  ↔ ∃ rc, rc ∈ requests ∧ line ∈ ReblameCandidate.modified_lines rc.
Proof.
  unfold lines_of_requests. rewrite elem_of_union_list. split.
  - intros (X & (rc & -> & Hrc)%list_elem_of_fmap & Hline).
    exists rc. split; [done|]. by apply elem_of_list_to_set in Hline.
  - intros (rc & Hrc & Hline). exists (list_to_set (ReblameCandidate.modified_lines rc)).
    split; [|by apply elem_of_list_to_set].
    apply list_elem_of_fmap. by exists rc.
Qed.

Lemma elem_of_requested_lines cache candidate_blame_data key line :
  line ∈ requested_lines cache candidate_blame_data key
  ↔ ∃ b, b ∈ candidate_blame_data ∧ reblame_key b = key
         ∧ covering_in cache b ≠ O ∧ line = BlameData.line_num b.
Proof.
  unfold requested_lines. rewrite list_elem_of_bind. split.
  - intros (b & Hline & Hb). exists b. destruct (decide (reblame_key b = key)).
    + apply elem_of_replicate in Hline as [-> ?]. done.
    + by apply elem_of_nil in Hline.
  - intros (b & Hb & Hkey & Hcov & ->). exists b. split; [|done].
    rewrite decide_True by done. by apply elem_of_replicate.
Qed.

(** The partition loses no line and invents none. *)
Lemma partition_blames_lines cache candidate_blame_data to_reblame result :
  partition_blames cache candidate_blame_data [] ∅ = inr (to_reblame, result) →
  lines_of_attributions result ∪ lines_of_requests (to_reblame.*2)
  = list_to_set (BlameData.line_num <$> candidate_blame_data).
Proof.
  intros ((Hnd & Hent & Hkeys) & _ & Hres)%partition_blames_spec.
  apply set_eq. intros line.
  rewrite elem_of_union, elem_of_list_to_set, list_elem_of_fmap.
  unfold lines_of_attributions. rewrite elem_of_map, elem_of_lines_of_requests.
  split.
  - intros [(a & -> & Ha) | (rc & Hrc & Hline)].
    + apply Hres in Ha as [Ha _]. by exists a.
    + apply list_elem_of_fmap in Hrc as ([key rc'] & -> & Hin). simpl in Hline.
      destruct (Hent _ _ Hin) as (_ & Hlines & _).
      rewrite Hlines in Hline. apply elem_of_requested_lines in Hline as (b & Hb & _ & _ & ->).
      by exists b.
  - intros (b & -> & Hb).
    destruct (decide (covering_in cache b = O)) as [Hz|Hnz].
    + left. exists b. split; [done|]. by apply Hres.
    + right. pose proof (Hkeys _ (requested_lines_covered cache _ b Hb Hnz)) as Hkey.
      apply list_elem_of_fmap in Hkey as ([key rc] & Hk & Hin). simpl in Hk. subst key.
      exists rc. split.
      * apply list_elem_of_fmap. by exists (reblame_key b, rc).
      * destruct (Hent _ _ Hin) as (_ & Hlines & _). rewrite Hlines.
        apply elem_of_requested_lines. by exists b.
Qed.

Section Conservation.

Variable refminer : list string -> string -> DetectorRun.
Variable super_blame : BlameCall -> list BlameData.t.
Hypothesis faithful : line_faithful super_blame.

Lemma reblame_loop_conserves rec ignore_revs_list :
  (∀ rev file_path lines ig s, conserves_lines lines s (rec rev file_path lines ig s)) →
  ∀ to_reblame result st result' st',
    reblame_loop rec ignore_revs_list to_reblame result st = Ok result' st' →
    ∃ new_dropped, dropped st' = dropped st ++ new_dropped
      ∧ lines_of_attributions result' ∪ lines_of_requests new_dropped
        = lines_of_attributions result ∪ lines_of_requests to_reblame.
Proof.
  intros Hrec to_reblame.
  induction to_reblame as [|rc rest IH]; intros result st result' st' Hrun.
  - simpl in Hrun. unfold ret in Hrun. simplify_eq. exists []. by rewrite app_nil_r.
  - simpl in Hrun. unfold bind in Hrun.
    destruct ignore_revs_list as [l|]; [|done].
    rewrite reblame_step_Some in Hrun.
    destruct (decide _).
    + destruct (IH _ _ _ _ Hrun) as (nd & Hd & Hlines). simpl in Hd.
      exists (rc :: nd). split; [by rewrite Hd, <- app_assoc|].
      rewrite !lines_of_requests_cons. apply set_eq. intros x.
      pose proof (proj1 (set_eq _ _) Hlines x) as Hx.
      rewrite !elem_of_union in Hx. rewrite !elem_of_union. tauto.
    + destruct (rec _ _ _ _ _) as [new st1|e st1|] eqn:Hcall; [|done|done].
      destruct (Hrec _ _ _ _ _ _ _ Hcall) as (nd1 & Hd1 & Hlines1).
      destruct (IH _ _ _ _ Hrun) as (nd2 & Hd2 & Hlines2). simpl in Hd2.
      exists (nd1 ++ nd2). split.
      * rewrite Hd2, Hd1. by rewrite <- app_assoc.

      * rewrite lines_of_requests_app, lines_of_requests_cons.
        unfold lines_of_attributions in *. rewrite set_map_union_L in Hlines2.
        apply set_eq. intros x.
        pose proof (proj1 (set_eq _ _) Hlines1 x) as Hx1.
        pose proof (proj1 (set_eq _ _) Hlines2 x) as Hx2.
        rewrite !elem_of_union in Hx1. rewrite !elem_of_union in Hx2.
        rewrite !elem_of_union. tauto.
Qed.

Lemma blame_conserves fuel : ∀ rev file_path lines ig st,
  conserves_lines lines st (_blame refminer super_blame fuel rev file_path lines ig st).
Proof.
  induction fuel as [|fuel IH]; intros rev file_path lines ig st result st' Hrun; [done|].
  rewrite blame_S in Hrun. unfold bind in Hrun.
  destruct (_extract_refactorings _ _ _) as [[] st1|e st1|] eqn:Hext; [|done|done].
  apply extract_refactorings_Ok in Hext as (new & _ & _ & _ & Hd & _).
  destruct (partition_blames _ _ _ _) as [e|[to_reblame accepted]] eqn:Hpart; [done|].
  apply partition_blames_lines in Hpart.
  destruct (reblame_loop_conserves _ _ IH _ _ _ _ _ Hrun) as (nd & Hnd & Hlines).
  exists nd. split; [by rewrite Hnd, Hd|].
  by rewrite Hlines, Hpart, faithful.
Qed.

End Conservation.

(** C9, as the code has it: when every call of the base blame attributes
    exactly the lines it is asked about, the lines of the attributions a
    call of [_blame] returns, together with the lines of the requests the
    cycle guard dropped during the call, at any depth, are the lines passed
    as [modified_lines]. *)
Theorem blame_conserves_lines
    (refminer : list string -> string -> DetectorRun)
    (super_blame : BlameCall -> list BlameData.t)
    (fuel : nat) (rev file_path : string) (modified_lines : list Z)
    (ignore_revs_list : option ref) (st st' : State) (result : gset BlameData.t) :
  line_faithful super_blame →
  _blame refminer super_blame fuel rev file_path modified_lines ignore_revs_list st
  = Ok result st' →
  ∃ new_dropped, dropped st' = dropped st ++ new_dropped
    ∧ lines_of_attributions result ∪ lines_of_requests new_dropped
      = list_to_set modified_lines.
Proof.
  intros Hfaithful Hrun.
  exact (blame_conserves refminer super_blame Hfaithful fuel rev file_path modified_lines
           ignore_revs_list st result st' Hrun).
Qed.

Lemma engine_all_R1_faithful : line_faithful Scenario.engine_all_R1.
Proof.
  intros call. unfold Scenario.engine_all_R1. f_equal.
  induction (call_modified_lines call) as [|line lines IH]; [done|].
  simpl. by f_equal.
Qed.

(** Lines 3 and 10: line 3 comes back attributed, line 10 is dropped by
    the cycle guard of the recursive call. *)
Lemma blame_conserves_lines_witness :
  let result : gset BlameData.t := {[BlameData.mk "R1" 3 "int x;" "f.java"]} in
  line_faithful Scenario.engine_all_R1
  ∧ _blame Scenario.miner Scenario.engine_all_R1 3 "R2" "f.java" [3; 10] (Some O) Scenario.st0
    = Ok result Scenario.st_all_R1
  ∧ ∃ new_dropped, dropped Scenario.st_all_R1 = dropped Scenario.st0 ++ new_dropped
      ∧ lines_of_attributions result ∪ lines_of_requests new_dropped = list_to_set [3; 10].
Proof.
  intros result.
  assert (H : _blame Scenario.miner Scenario.engine_all_R1 3 "R2" "f.java" [3; 10] (Some O)
                Scenario.st0 = Ok result Scenario.st_all_R1)
    by (vm_cast_no_check (eq_refl (Ok result Scenario.st_all_R1))).
  split; [exact engine_all_R1_faithful|]. split; [exact H|].
  exact (blame_conserves_lines Scenario.miner Scenario.engine_all_R1 3 "R2" "f.java" [3; 10]
           (Some O) Scenario.st0 Scenario.st_all_R1 result engine_all_R1_faithful H).
Defined.

(** C9, as stated, fails: the base blame reports nothing for line 10, so
    [_blame] returns no attribution and drops no request, while line 10 was
    passed in. *)
Lemma blame_loses_lines_counterexample :
  _blame Scenario.miner Scenario.engine_skipping 3 "R2" "f.java" [10] (Some O) Scenario.st0
  = Ok ∅ Scenario.st_skipping
  ∧ dropped Scenario.st_skipping = dropped Scenario.st0 ++ []
  ∧ lines_of_attributions ∅ ∪ lines_of_requests [] ≠ list_to_set [10]
  ∧ ¬ conserves_lines [10] Scenario.st0
        (_blame Scenario.miner Scenario.engine_skipping 3 "R2" "f.java" [10] (Some O)
                Scenario.st0).
Proof.
  assert (H : _blame Scenario.miner Scenario.engine_skipping 3 "R2" "f.java" [10] (Some O)
                Scenario.st0 = Ok ∅ Scenario.st_skipping)
    by (vm_cast_no_check (eq_refl (Ok (A := gset BlameData.t) ∅ Scenario.st_skipping))).
  assert (Hne : ∀ X : gset Z, lines_of_attributions ∅ ∪ X = list_to_set [10] → 10 ∈ X).
  { intros X HX. assert (Hin : 10 ∈ lines_of_attributions ∅ ∪ X).
    { rewrite HX. apply elem_of_list_to_set. by left. }
    apply elem_of_union in Hin as [Hin|Hin]; [|done].
    unfold lines_of_attributions in Hin. apply elem_of_map in Hin as (a & _ & Ha).
    by apply elem_of_empty in Ha. }
  split; [exact H|]. split; [reflexivity|]. split.
  - intros Heq%Hne. apply elem_of_lines_of_requests in Heq as (rc & Hrc & _).
    by apply elem_of_nil in Hrc.
  - intros Hcons. destruct (Hcons _ _ H) as (nd & Hd & Heq).
    simpl in Hd. subst nd. apply Hne in Heq.
    apply elem_of_lines_of_requests in Heq as (rc & Hrc & _).
    by apply elem_of_nil in Hrc.
Qed.

(** ** Termination *)

Lemma ignore_budget_le universe revs : (ignore_budget universe revs ≤ length universe)%nat.
Proof. apply length_filter. Qed.

Lemma ignore_budget_snoc universe revs rev :
  rev ∈ universe → rev ∉ revs →
  (ignore_budget universe (revs ++ [rev]) < ignore_budget universe revs)%nat.
Proof.
  intros HU Hnot. unfold ignore_budget.
  assert (Heq : filter (fun u => u ∉ revs ++ [rev]) universe
                = filter (fun u => u ≠ rev) (filter (fun u => u ∉ revs) universe)).
  { rewrite list_filter_filter. apply list_filter_iff. intros u.
    rewrite elem_of_app, list_elem_of_singleton. tauto. }
  rewrite Heq. apply (length_filter_lt _ _ rev).
  - by apply list_elem_of_filter.
  - intros Hne. by apply Hne.
Qed.

Section Termination.

Variable refminer : list string -> string -> DetectorRun.
Variable super_blame : BlameCall -> list BlameData.t.
Variable universe : list string.
Hypothesis finite_history : ∀ commit, reported super_blame commit → commit ∈ universe.

(** The revision of a request is one the base blame reported. *)
Lemma partition_blames_reported cache call to_reblame result rc :
  partition_blames cache (super_blame call) [] ∅ = inr (to_reblame, result) →
  rc ∈ to_reblame.*2 → reported super_blame (ReblameCandidate.rev rc).
Proof.
  intros ((_ & Hent & _) & _ & _)%partition_blames_spec
         ([key rc'] & -> & Hin)%list_elem_of_fmap.
  destruct (Hent _ _ Hin) as (_ & _ & _ & b & Hb & Hrev & _).
  exists call, b. split; [done|]. simpl. by symmetry.
Qed.

Lemma reblame_loop_terminates fuel l revs :
  (∀ rev file_path lines l' revs' st,
      heap st !! l' = Some revs' → (ignore_budget universe revs' < fuel)%nat →
      terminated (_blame refminer super_blame fuel rev file_path lines (Some l') st)) →
  (ignore_budget universe revs < S fuel)%nat →
  ∀ to_reblame result st,
    heap st !! l = Some revs →
    (∀ rc, rc ∈ to_reblame → reported super_blame (ReblameCandidate.rev rc)) →
    terminated (reblame_loop (_blame refminer super_blame fuel) (Some l)
                             to_reblame result st).
Proof.
  intros IHfuel Hbudget to_reblame.
  induction to_reblame as [|rc rest IH]; intros result st Hl Hrep.
  - by eexists.
  - simpl. unfold bind. rewrite reblame_step_Some, (lookup_total_Some _ _ _ Hl).
    destruct (decide _) as [Hin|Hnot].
    + apply IH; [done|]. intros rc' Hrc'. apply Hrep. by right.
    + assert (Hfork : heap (fork_ignore l (ReblameCandidate.rev rc) st)
                        !! length (heap st)
                      = Some (revs ++ [ReblameCandidate.rev rc])).
      { rewrite fork_ignore_heap, (lookup_total_Some _ _ _ Hl).
        by rewrite list_lookup_middle. }
      assert (Hlt : (ignore_budget universe (revs ++ [ReblameCandidate.rev rc]) < fuel)%nat).
      { assert (Hrc : ReblameCandidate.rev rc ∈ universe).
        { apply finite_history, Hrep. by left. }
        pose proof (ignore_budget_snoc universe revs _ Hrc Hnot). lia. }
      pose proof (IHfuel (ReblameCandidate.rev rc) (ReblameCandidate.file_path rc)
                    (ReblameCandidate.modified_lines rc) _ _ _ Hfork Hlt) as Hterm.
      destruct (_blame _ _ _ _ _ _ _ _) as [new st1|e st1|] eqn:Hcall.
      * apply IH.
        -- simpl. eapply extends_heap_lookup; [|exact Hl].
           etrans; [apply fork_ignore_extends|].
           eapply blame_extends. by rewrite Hcall.
        -- intros rc' Hrc'. apply Hrep. by right.

      * by eexists.
      * by destruct Hterm.
Qed.

Lemma blame_terminates_budget fuel : ∀ rev file_path lines l revs st,
  heap st !! l = Some revs → (ignore_budget universe revs < fuel)%nat →
  terminated (_blame refminer super_blame fuel rev file_path lines (Some l) st).
Proof.
  induction fuel as [|fuel IH]; intros rev file_path lines l revs st Hl Hbudget; [lia|].
  rewrite blame_S. unfold bind.
  destruct (_extract_refactorings _ _ _) as [[] st1|e st1|] eqn:Hext.
  - destruct (partition_blames _ _ _ _) as [e|[to_reblame accepted]] eqn:Hpart;
      [by eexists|].
    apply (reblame_loop_terminates fuel l revs IH Hbudget).
    + eapply extends_heap_lookup; [|exact Hl].
      etrans; [apply log_blame_extends|].
      eapply extract_refactorings_extends. by rewrite Hext.
    + intros rc Hrc. by eapply partition_blames_reported.
  - by eexists.
  - destruct (extract_refactorings_step refminer
                (remove_dups (BlameData.commit <$>
                   super_blame (ev_call (blame_event rev file_path lines (Some l) st))))
                (log_blame (blame_event rev file_path lines (Some l) st) st))
      as (new & st' & Hfin & _).
    rewrite Hext in Hfin. done.
Qed.

End Termination.

(** ** The trace of recursive calls *)

Section Trace.

Variable refminer : list string -> string -> DetectorRun.
Variable super_blame : BlameCall -> list BlameData.t.

(** A pass over the cache does not change who is running. *)
Lemma extract_refactorings_running commits : ∀ st st',
  final_state (_extract_refactorings refminer commits st) = Some st' →
  running st' = running st.
Proof.
  induction commits as [|c cs IH]; intros st st' Hfin; simpl in Hfin.
  - by simplify_eq.
  - unfold bind in Hfin. destruct (refactorings st !! c); [by apply IH|].
    unfold run_refminer in Hfin.
    destruct (refminer (detector_calls st) c) as [[data|]| | | |]; simpl in Hfin;
      try (by simplify_eq); try (by rewrite (IH _ _ Hfin)).
    destruct (read_refactorings data) as [e|[value|]]; simpl in Hfin;
      try (by simplify_eq); by rewrite (IH _ _ Hfin).
Qed.

Lemma extends_blame_lookup st st' i ev :
  extends st st' → blame_calls st !! i = Some ev → blame_calls st' !! i = Some ev.
Proof. intros (_ & _ & _ & Hb & _) Hi. by eapply prefix_lookup_Some. Qed.

Lemma sub_event_ok_weaken revs base base' first first' st1 st' ev :
  (base' ≤ base)%nat → (first' ≤ first)%nat → extends st1 st' →
  sub_event_ok super_blame revs base first st1 ev →
  sub_event_ok super_blame revs base' first' st' ev.
Proof.
  intros Hbase Hfirst Hext
         (l' & path & Href & Hle & Hcall & Hheap & Hnd & Hnew & p & i & Hc & Hi & Hp & Hpl).
  exists l', path. split_and!; try done.
  - lia.
  - by eapply extends_heap_lookup.
  - exists p, i. split_and!; [done | lia | by eapply extends_blame_lookup | done].
Qed.

(** An event in the frame of a child call, seen from its parent. *)
Lemma sub_event_ok_lift revs rev base first st' ev :
  rev ∉ revs → reported super_blame rev →
  sub_event_ok super_blame (revs ++ [rev]) base first st' ev →
  sub_event_ok super_blame revs base first st' ev.
Proof.
  intros Hnot Hrep
         (l' & path & Href & Hle & Hcall & Hheap & Hnd & Hnew & p & i & Hc & Hi & Hp & Hpl).
  exists l', (rev :: path). rewrite <- !app_assoc in Hcall, Hheap. simpl in Hcall, Hheap.
  split_and!; try done.
  - simpl. apply NoDup_cons. split; [|done].
    intros Hin. destruct (Hnew _ Hin) as [Hx _]. apply Hx, elem_of_app. right. by left.
  - intros x [->|Hx]%elem_of_cons; [done|].
    destruct (Hnew _ Hx) as [Hx1 Hx2]. split; [|done].
    intros Hin. apply Hx1, elem_of_app. by left.
  - exists p, i. split_and!; [done | done | done |]. by rewrite <- app_assoc in Hpl.
Qed.

Lemma sub_event_ok_ref_bounds revs base first st' ev :
  sub_event_ok super_blame revs base first st' ev →
  ∃ l', ev_ignore_ref ev = Some l' ∧ (base ≤ l' < length (heap st'))%nat.
Proof.
  intros (l' & path & Href & Hle & _ & Hheap & _). exists l'. split; [done|].
  apply lookup_lt_Some in Hheap. lia.
Qed.

(** The events of one recursive call, seen from the loop that made it;
    [root], at index [i] of the trace, is the invocation that runs the
    loop. *)
Lemma child_trace l revs rc st s3 i root :
  heap st !! l = Some revs →
  ReblameCandidate.rev rc ∉ revs →
  reported super_blame (ReblameCandidate.rev rc) →
  running st = Some i →
  blame_calls st !! i = Some root →
  call_ignore_revs_list (ev_call root) = Some revs →
  let st2 := fork_ignore l (ReblameCandidate.rev rc) st in
  let root2 := blame_event (ReblameCandidate.rev rc) (ReblameCandidate.file_path rc)
                 (ReblameCandidate.modified_lines rc) (Some (length (heap st))) st2 in
  extends st2 s3 →
  blame_trace_spec super_blame (revs ++ [ReblameCandidate.rev rc]) st2 s3 root2 →
  ∃ evs,
    blame_calls s3 = blame_calls st ++ evs
    ∧ (∀ st', extends s3 st' →
              Forall (sub_event_ok super_blame revs (length (heap st)) i st') evs)
    ∧ NoDup (ev_ignore_ref <$> evs)
    ∧ Forall (fun e => ∃ l', ev_ignore_ref e = Some l'
                             ∧ (length (heap st) ≤ l' < length (heap s3))%nat) evs.
Proof.
  intros Hl Hnot Hrep Hrun Hi Hroot st2 root2 Hext (subs & Hcalls & Hsubs & Hnd).
  assert (Hheap2 : heap st2 = heap st ++ [revs ++ [ReblameCandidate.rev rc]]).
  { unfold st2. by rewrite fork_ignore_heap, (lookup_total_Some _ _ _ Hl). }
  assert (Hfork : heap st2 !! length (heap st) = Some (revs ++ [ReblameCandidate.rev rc])).
  { rewrite Hheap2. by rewrite list_lookup_middle. }
  assert (Hlen2 : length (heap st2) = S (length (heap st))).
  { rewrite Hheap2, length_app. simpl. lia. }
  assert (Hroot2 : call_ignore_revs_list (ev_call root2)
                   = Some (revs ++ [ReblameCandidate.rev rc])).
  { change (Some (heap st2 !!! length (heap st))
            = Some (revs ++ [ReblameCandidate.rev rc])).
    f_equal. by apply lookup_total_Some. }
  assert (Hext2 : extends st st2) by apply fork_ignore_extends.
  assert (Hlt : (i < length (blame_calls st2))%nat).
  { apply lookup_lt_Some in Hi. done. }
  exists (root2 :: subs). split_and!.
  - rewrite Hcalls. done.
  - intros st' Hext'.
    apply Forall_cons. split.
    + exists (length (heap st)), []. simpl. split_and!; try done.
      * eapply extends_heap_lookup; [|exact Hfork]. by etrans.
      * apply NoDup_singleton.
      * by intros x ->%list_elem_of_singleton.
      * exists root, i. split_and!; [done | done | | by rewrite app_nil_r].
        eapply extends_blame_lookup; [|exact Hi]. etrans; [exact Hext2|]. by etrans.
    + eapply Forall_impl; [exact Hsubs|]. intros ev Hev. simpl in Hev.
      apply (sub_event_ok_lift revs (ReblameCandidate.rev rc)); [done | done |].
      apply (sub_event_ok_weaken _ (length (heap st2)) _ (length (blame_calls st2)) _ s3);
        [lia | lia | exact Hext' | exact Hev].
  - rewrite fmap_cons. apply NoDup_cons. split; [|done].
    intros Hin. apply list_elem_of_fmap in Hin as (e & He & Hin).
    rewrite Forall_forall in Hsubs. apply Hsubs in Hin.
    apply sub_event_ok_ref_bounds in Hin as (l' & Hl' & Hb).
    unfold root2, blame_event in He. simpl in He. rewrite Hl' in He. simplify_eq. lia.
  - apply Forall_cons. split.
    + exists (length (heap st)). split; [done|].
      pose proof Hext as (_ & Hpre%prefix_length & _). lia.
    + eapply Forall_impl; [exact Hsubs|]. intros ev Hev. cbv beta in Hev.
      apply sub_event_ok_ref_bounds in Hev as (l' & Hl' & Hb).
      exists l'. split; [done|]. lia.
Qed.

Lemma reblame_loop_trace fuel l revs root i :
  call_ignore_revs_list (ev_call root) = Some revs →
  (∀ rev file_path lines l' revs' st st',
      heap st !! l' = Some revs' →
      final_state (_blame refminer super_blame fuel rev file_path lines (Some l') st)
      = Some st' →
      blame_trace_spec super_blame revs' st st'
        (blame_event rev file_path lines (Some l') st)) →
  ∀ to_reblame result st st',
    heap st !! l = Some revs →
    running st = Some i →
    blame_calls st !! i = Some root →
    (∀ rc, rc ∈ to_reblame → reported super_blame (ReblameCandidate.rev rc)) →
    final_state (reblame_loop (_blame refminer super_blame fuel) (Some l)
                              to_reblame result st) = Some st' →
    ∃ evs,
      blame_calls st' = blame_calls st ++ evs
      ∧ Forall (sub_event_ok super_blame revs (length (heap st)) i st') evs
      ∧ NoDup (ev_ignore_ref <$> evs).
Proof.
  intros Hroot IHfuel to_reblame.
  induction to_reblame as [|rc rest IH]; intros result st st' Hl Hrun Hi Hrep Hfin.
  - simpl in Hfin. simplify_eq. exists []. rewrite app_nil_r.
    split_and!; [done | apply Forall_nil_2 | apply NoDup_nil_2].
  - simpl in Hfin. unfold bind in Hfin.
    rewrite reblame_step_Some, (lookup_total_Some _ _ _ Hl) in Hfin.
    assert (Hrest : ∀ rc', rc' ∈ rest → reported super_blame (ReblameCandidate.rev rc')).
    { intros rc' Hrc'. apply Hrep. by right. }
    destruct (decide _) as [Hin|Hnot].
    + exact (IH _ (log_drop rc st) _ Hl Hrun Hi Hrest Hfin).
    + assert (Hrc : reported super_blame (ReblameCandidate.rev rc)).
      { apply Hrep. by left. }
      assert (Hfork : heap (fork_ignore l (ReblameCandidate.rev rc) st) !! length (heap st)
                      = Some (revs ++ [ReblameCandidate.rev rc])).
      { rewrite fork_ignore_heap, (lookup_total_Some _ _ _ Hl).
        by rewrite list_lookup_middle. }
      destruct (_blame _ _ _ _ _ _ _ _) as [new s3|e s3|] eqn:Hcall; [| |done].
      * assert (Hfin3 : final_state (_blame refminer super_blame fuel
                          (ReblameCandidate.rev rc) (ReblameCandidate.file_path rc)
                          (ReblameCandidate.modified_lines rc) (Some (length (heap st)))
                          (fork_ignore l (ReblameCandidate.rev rc) st)) = Some s3)
          by (by rewrite Hcall).
        pose proof (blame_extends _ _ _ _ _ _ _ _ _ Hfin3) as Hext23.
        pose proof (IHfuel _ _ _ _ _ _ _ Hfork Hfin3) as Hspec.
        destruct (child_trace l revs rc st s3 i root Hl Hnot Hrc Hrun Hi Hroot Hext23 Hspec)
          as (evs1 & Hcalls1 & Hok1 & Hnd1 & Hb1).
        assert (Hext3 : extends st s3).
        { etrans; [apply fork_ignore_extends | exact Hext23]. }
        set (s4 := set_running (running st) s3) in *.
        assert (Hext34 : extends s3 s4) by apply set_running_extends.
        assert (Hl4 : heap s4 !! l = Some revs).
        { eapply extends_heap_lookup; [|exact Hl]. by etrans. }
        assert (Hi4 : blame_calls s4 !! i = Some root).
        { eapply extends_blame_lookup; [|exact Hi]. by etrans. }
        destruct (IH _ _ _ Hl4 Hrun Hi4 Hrest Hfin) as (evs3 & Hcalls3 & Hok3 & Hnd3).
        assert (Hext4' : extends s4 st').
        { eapply reblame_loop_extends; [apply blame_extends | exact Hfin]. }
        exists (evs1 ++ evs3). split_and!.
        -- rewrite Hcalls3. change (blame_calls s4) with (blame_calls s3).
           by rewrite Hcalls1, app_assoc.
        -- apply Forall_app. split.
           ++ apply Hok1. by etrans.
           ++ eapply Forall_impl; [exact Hok3|]. intros ev Hev. cbv beta in Hev.
              apply (sub_event_ok_weaken _ (length (heap s4)) _ i _ st'); [|lia|done|exact Hev].
              change (heap s4) with (heap s3).
              destruct Hext3 as (_ & Hpre%prefix_length & _). lia.
        -- rewrite fmap_app. apply NoDup_app. split_and!; [done | | done].
           intros x (e1 & -> & He1)%list_elem_of_fmap (e3 & Heq & He3)%list_elem_of_fmap.
           rewrite Forall_forall in Hb1. destruct (Hb1 _ He1) as (l1 & Hl1 & Hbound1).
           rewrite Forall_forall in Hok3.
           destruct (sub_event_ok_ref_bounds _ _ _ _ _ (Hok3 _ He3)) as (l3' & Hl3' & Hbound3).
           rewrite Hl1, Hl3' in Heq. simplify_eq.
           change (heap s4) with (heap s3) in Hbound3. lia.
      * simpl in Hfin. simplify_eq.
        assert (Hfin3 : final_state (_blame refminer super_blame fuel
                          (ReblameCandidate.rev rc) (ReblameCandidate.file_path rc)
                          (ReblameCandidate.modified_lines rc) (Some (length (heap st)))
                          (fork_ignore l (ReblameCandidate.rev rc) st)) = Some st')
          by (by rewrite Hcall).
        pose proof (blame_extends _ _ _ _ _ _ _ _ _ Hfin3) as Hext23.
        pose proof (IHfuel _ _ _ _ _ _ _ Hfork Hfin3) as Hspec.
        destruct (child_trace l revs rc st st' i root Hl Hnot Hrc Hrun Hi Hroot Hext23 Hspec)
          as (evs1 & Hcalls1 & Hok1 & Hnd1 & Hb1).
        exists evs1. split_and!; [done | | done].
        by apply Hok1.
Qed.

Lemma blame_trace fuel : ∀ rev file_path lines l revs st st',
  heap st !! l = Some revs →
  final_state (_blame refminer super_blame fuel rev file_path lines (Some l) st) = Some st' →
  blame_trace_spec super_blame revs st st' (blame_event rev file_path lines (Some l) st).
Proof.
  induction fuel as [|fuel IH]; intros rev file_path lines l revs st st' Hl Hfin; [done|].
  rewrite blame_S in Hfin. unfold bind in Hfin.
  set (root := blame_event rev file_path lines (Some l) st) in *.
  assert (Hroot : call_ignore_revs_list (ev_call root) = Some revs).
  { unfold root, blame_event. simpl. by rewrite (lookup_total_Some _ _ _ Hl). }
  assert (Hnone : ∀ st1, heap st1 = heap st → blame_calls st1 = blame_calls st ++ [root] →
                         blame_trace_spec super_blame revs st st1 root).
  { intros st1 Hh Hc. exists []. split_and!; [done | apply Forall_nil_2 | apply NoDup_nil_2]. }
  destruct (_extract_refactorings _ _ _) as [[] st1|e st1|] eqn:Hext; [| |done].
  - assert (Hrun1 : running st1 = Some (length (blame_calls st))).
    { by rewrite (extract_refactorings_running _ (log_blame root st) st1)
        by (by rewrite Hext). }
    apply extract_refactorings_Ok in Hext as (new & _ & Hh & Hc & _).
    simpl in Hh, Hc.
    destruct (partition_blames _ _ _ _) as [e|[to_reblame accepted]] eqn:Hpart.
    + simpl in Hfin. simplify_eq. by apply Hnone.
    + assert (Hl1 : heap st1 !! l = Some revs) by (by rewrite Hh).
      assert (Hi1 : blame_calls st1 !! length (blame_calls st) = Some root).
      { rewrite Hc. by rewrite list_lookup_middle. }
      destruct (reblame_loop_trace fuel l revs root _ Hroot IH _ _ _ _ Hl1 Hrun1 Hi1
                  (fun rc Hrc => partition_blames_reported super_blame _ _ _ _ rc Hpart Hrc)
                  Hfin) as (evs & Hcalls & Hok & Hnd).
      exists evs. split_and!; [|by rewrite <- Hh|done].
      by rewrite Hcalls, Hc, <- app_assoc.
  - simpl in Hfin. simplify_eq.
    destruct (extract_refactorings_step refminer
                (remove_dups (BlameData.commit <$> super_blame (ev_call root)))
                (log_blame root st)) as (new & st1 & Hfin1 & _ & Hh & Hc & _).
    rewrite Hext in Hfin1. simpl in Hfin1. simplify_eq. by apply Hnone.
Qed.

(** The list objects of the calls of a run are distinct. *)
Lemma blame_trace_refs_NoDup revs l rev file_path lines st st' subs :
  heap st !! l = Some revs →
  Forall (sub_event_ok super_blame revs (length (heap st)) (length (blame_calls st)) st')
         subs →
  NoDup (ev_ignore_ref <$> subs) →
  NoDup (ev_ignore_ref <$> blame_event rev file_path lines (Some l) st :: subs).
Proof.
  intros Hl Hok Hnd. rewrite Forall_forall in Hok.
  rewrite fmap_cons. apply NoDup_cons. split; [|done].
  intros (e & He & Hin)%list_elem_of_fmap.
  destruct (sub_event_ok_ref_bounds _ _ _ _ _ (Hok _ Hin)) as (l1 & Hl1 & Hb).
  simpl in He. rewrite Hl1 in He. simplify_eq.
  apply lookup_lt_Some in Hl. lia.
Qed.

(** The caller an event names is a call of the run, and the list object
    of that call is as it was when the call started. *)
Lemma blame_trace_parent revs l rev file_path lines st st' subs ev :
  heap st !! l = Some revs →
  extends st st' →
  blame_calls st'
  = blame_calls st ++ blame_event rev file_path lines (Some l) st :: subs →
  Forall (sub_event_ok super_blame revs (length (heap st)) (length (blame_calls st)) st')
         subs →
  ev ∈ subs →
  ∃ l' path parent i lp,
    ev_ignore_ref ev = Some l'
    ∧ (length (heap st) ≤ l')%nat
    ∧ call_ignore_revs_list (ev_call ev) = Some (revs ++ path ++ [call_rev (ev_call ev)])
    ∧ heap st' !! l' = Some (revs ++ path ++ [call_rev (ev_call ev)])
    ∧ NoDup (path ++ [call_rev (ev_call ev)])
    ∧ (∀ x, x ∈ path ++ [call_rev (ev_call ev)] → (x ∉ revs) ∧ reported super_blame x)
    ∧ ev_caller ev = Some i
    ∧ blame_calls st' !! i = Some parent
    ∧ parent ∈ blame_event rev file_path lines (Some l) st :: subs
    ∧ call_ignore_revs_list (ev_call parent) = Some (revs ++ path)
    ∧ ev_ignore_ref parent = Some lp
    ∧ heap st' !! lp = Some (revs ++ path).
Proof.
  intros Hl Hext Hcalls Hok Hev. rewrite Forall_forall in Hok.
  destruct (Hok _ Hev) as (l' & path & Href & Hle & Hcall & Hheap & Hnd & Hnew
                           & parent & i & Hc & Hi & Hp & Hpl).
  assert (Hin : parent ∈ blame_event rev file_path lines (Some l) st :: subs).
  { rewrite Hcalls in Hp. rewrite lookup_app_r in Hp by done.
    by eapply list_elem_of_lookup_2. }
  assert (Hlp : ∃ lp, ev_ignore_ref parent = Some lp ∧ heap st' !! lp = Some (revs ++ path)).
  { apply elem_of_cons in Hin as [->|Hin].
    - exists l. split; [done|]. simpl in Hpl.
      rewrite (lookup_total_Some _ _ _ Hl) in Hpl. rewrite <- Hpl.
      by eapply extends_heap_lookup.
    - destruct (Hok _ Hin) as (lp & pathp & Hrefp & _ & Hcallp & Hheapp & _).
      exists lp. split; [done|]. by rewrite Hheapp, <- Hcallp. }
  destruct Hlp as (lp & Hlp & Hlpheap).
  exists l', path, parent, i, lp. split_and!; done.
Qed.

End Trace.

Lemma blame_terminates_None refminer super_blame fuel rev file_path lines st :
  terminated (_blame refminer super_blame (S fuel) rev file_path lines None st).
Proof.
  rewrite blame_S. unfold bind.
  destruct (_extract_refactorings _ _ _) as [[] st1|e st1|] eqn:Hext.
  - destruct (partition_blames _ _ _ _) as [e|[[|[key rc] rest] accepted]]; by eexists.
  - by eexists.
  - destruct (extract_refactorings_step refminer
                (remove_dups (BlameData.commit <$>
                   super_blame (ev_call (blame_event rev file_path lines None st))))
                (log_blame (blame_event rev file_path lines None st) st))
      as (new & st' & Hfin & _).
    rewrite Hext in Hfin. done.
Qed.

(** C3: when the base blame only ever names commits of a finite list
    [universe], a call of [_blame] with more fuel than [universe] has
    commits ends (it returns or raises), with [None] as with an ignore
    list [revs].  In the second case the calls of the run work on list
    objects that are distinct, and every recursive call, at any depth, was
    made with the ignore list of its caller ([parent], the call whose
    entry in the trace, at index [i], the event names as [ev_caller])
    extended by one revision, the one it re-blames, which was not in that
    list: along a path of recursive calls the list grows by exactly one
    revision per call.  The revisions added below the root are distinct
    commits of [universe] absent from [revs], so the list never holds a
    revision twice when [revs] did not, and at most [length universe]
    revisions are added. *)
Theorem blame_terminates
    (refminer : list string -> string -> DetectorRun)
    (super_blame : BlameCall -> list BlameData.t)
    (universe : list string)
    (fuel : nat) (rev file_path : string) (modified_lines : list Z)
    (l : ref) (revs : list string) (st : State) :
  (∀ call b, b ∈ super_blame call → BlameData.commit b ∈ universe) →
  heap st !! l = Some revs →
  (length universe < fuel)%nat →
  terminated (_blame refminer super_blame fuel rev file_path modified_lines None st)
  ∧ ∃ st' subs,
      final_state (_blame refminer super_blame fuel rev file_path modified_lines (Some l) st)
      = Some st'
      ∧ blame_calls st'
        = blame_calls st ++ blame_event rev file_path modified_lines (Some l) st :: subs
      ∧ NoDup (ev_ignore_ref <$>
                 blame_event rev file_path modified_lines (Some l) st :: subs)
      ∧ ∀ ev, ev ∈ subs →
          ∃ path parent i,
            call_ignore_revs_list (ev_call ev) = Some (revs ++ path ++ [call_rev (ev_call ev)])
            ∧ parent ∈ blame_event rev file_path modified_lines (Some l) st :: subs
            ∧ ev_caller ev = Some i
            ∧ blame_calls st' !! i = Some parent
            ∧ call_ignore_revs_list (ev_call parent) = Some (revs ++ path)
            ∧ (call_rev (ev_call ev) ∉ revs ++ path)
            ∧ (∀ x, x ∈ path ++ [call_rev (ev_call ev)] → (x ∉ revs) ∧ x ∈ universe)
            ∧ NoDup (path ++ [call_rev (ev_call ev)])
            ∧ (NoDup revs → NoDup (revs ++ path ++ [call_rev (ev_call ev)]))
            ∧ (length (path ++ [call_rev (ev_call ev)]) ≤ length universe)%nat.
Proof.
  intros Hfinite Hl Hfuel.
  assert (Hrep : ∀ commit, reported super_blame commit → commit ∈ universe).
  { intros commit (call & b & Hb & <-). by eapply Hfinite. }
  split.
  { destruct fuel as [|fuel]; [lia|]. apply blame_terminates_None. }
  destruct (blame_terminates_budget refminer super_blame universe Hrep fuel rev file_path
              modified_lines l revs st Hl) as [st' Hfin].
  { pose proof (ignore_budget_le universe revs). lia. }
  pose proof (blame_extends _ _ _ _ _ _ _ _ _ Hfin) as Hext.
  destruct (blame_trace refminer super_blame fuel _ _ _ _ _ _ _ Hl Hfin)
    as (subs & Hcalls & Hok & Hrefs).
  exists st', subs. split_and!; [done | done | by eapply blame_trace_refs_NoDup |].
  intros ev Hev.
  destruct (blame_trace_parent super_blame _ _ _ _ _ _ _ _ _ Hl Hext Hcalls Hok Hev)
    as (l' & path & parent & i & lp & _ & _ & Hcall & _ & Hnd & Hnew & Hc & Hi & Hp & Hpl & _).
  exists path, parent, i.
  assert (Hown : call_rev (ev_call ev) ∈ path ++ [call_rev (ev_call ev)]).
  { apply elem_of_app. right. by left. }
  split_and!; try done.
  - intros [Hin|Hin]%elem_of_app.
    + by destruct (Hnew _ Hown).
    + apply NoDup_app in Hnd as (_ & Hdisj & _). apply (Hdisj _ Hin). by left.
  - intros x Hx. destruct (Hnew _ Hx). split; [done | by apply Hrep].
  - intros Hrevs. apply NoDup_app. split_and!; [done | | done].
    intros x Hx Hx'. by destruct (Hnew _ Hx').
  - apply submseteq_length, NoDup_submseteq; [done|].
    intros x Hx. destruct (Hnew _ Hx). by apply Hrep.
Qed.

Lemma engine_B_commits call b :
  b ∈ Scenario.engine_B call → BlameData.commit b ∈ ["R0"; "R1"]%string.
Proof.
  unfold Scenario.engine_B. destruct (decide _).
  - intros ->%list_elem_of_singleton. by left.
  - intros ->%list_elem_of_singleton. right. by left.
Qed.

(** Scenario B, whose base blame names [R0] and [R1] only. *)
Lemma blame_terminates_witness :
  (∀ call b, b ∈ Scenario.engine_B call → BlameData.commit b ∈ ["R0"; "R1"]%string)
  ∧ heap Scenario.st0 !! O = Some []
  ∧ (length ["R0"; "R1"]%string < 3)%nat
  ∧ terminated (_blame Scenario.miner Scenario.engine_B 3 "R2" "f.java" [10] None Scenario.st0)
  ∧ ∃ st' subs,
      final_state (_blame Scenario.miner Scenario.engine_B 3 "R2" "f.java" [10] (Some O)
                          Scenario.st0) = Some st'
      ∧ blame_calls st'
        = blame_calls Scenario.st0
          ++ blame_event "R2" "f.java" [10] (Some O) Scenario.st0 :: subs
      ∧ NoDup (ev_ignore_ref <$>
                 blame_event "R2" "f.java" [10] (Some O) Scenario.st0 :: subs)
      ∧ ∀ ev, ev ∈ subs →
          ∃ path parent i,
            call_ignore_revs_list (ev_call ev) = Some ([] ++ path ++ [call_rev (ev_call ev)])
            ∧ parent ∈ blame_event "R2" "f.java" [10] (Some O) Scenario.st0 :: subs
            ∧ ev_caller ev = Some i
            ∧ blame_calls st' !! i = Some parent
            ∧ call_ignore_revs_list (ev_call parent) = Some ([] ++ path)
            ∧ (call_rev (ev_call ev) ∉ [] ++ path)
            ∧ (∀ x, x ∈ path ++ [call_rev (ev_call ev)] →
                    (x ∉ []) ∧ x ∈ ["R0"; "R1"]%string)
            ∧ NoDup (path ++ [call_rev (ev_call ev)])
            ∧ (NoDup ([] : list string) → NoDup ([] ++ path ++ [call_rev (ev_call ev)]))
            ∧ (length (path ++ [call_rev (ev_call ev)]) ≤ length ["R0"; "R1"]%string)%nat.
Proof.
  assert (H2 : heap Scenario.st0 !! O = Some []) by reflexivity.
  assert (H3 : (length ["R0"; "R1"]%string < 3)%nat) by (simpl; lia).
  split; [exact engine_B_commits|]. split; [exact H2|]. split; [exact H3|].
  exact (blame_terminates Scenario.miner Scenario.engine_B ["R0"; "R1"]%string 3
           "R2" "f.java" [10] O [] Scenario.st0 engine_B_commits H2 H3).
Defined.

(** ** Ignore lists are not shared *)

(** C8: over a call of [_blame] on the list object [l], no list object
    that existed when the call started is changed, [l] included; every
    recursive call, at any depth, received a list object of its own,
    allocated during the call and distinct from the object of every other
    call of the run.  That object is a copy of the caller's list with the
    revision being re-blamed appended: its caller is [parent], the call
    whose entry in the trace, at index [i], the event names as
    [ev_caller]; the new object holds [parent]'s list followed by exactly
    that revision, when the recursive call starts and still when the run
    ends, and the caller's own object [lp] holds at the end what it held
    when [parent] started, whatever the sibling and descendant calls did.
    So the revision a call excludes is in the list of a call with the
    same caller only when that call re-blames the same revision. *)
Theorem ignore_lists_not_shared
    (refminer : list string -> string -> DetectorRun)
    (super_blame : BlameCall -> list BlameData.t)
    (fuel : nat) (rev file_path : string) (modified_lines : list Z)
    (l : ref) (revs : list string) (st st' : State) :
  heap st !! l = Some revs →
  final_state (_blame refminer super_blame fuel rev file_path modified_lines (Some l) st)
  = Some st' →
  heap st `prefix_of` heap st'
  ∧ heap st' !! l = Some revs
  ∧ ∃ subs,
      blame_calls st'
      = blame_calls st ++ blame_event rev file_path modified_lines (Some l) st :: subs
      ∧ NoDup (ev_ignore_ref <$>
                 blame_event rev file_path modified_lines (Some l) st :: subs)
      ∧ (∀ ev, ev ∈ subs →
          ∃ l' parent i lp parent_revs,
            ev_ignore_ref ev = Some l'
            ∧ (length (heap st) ≤ l')%nat
            ∧ parent ∈ blame_event rev file_path modified_lines (Some l) st :: subs
            ∧ ev_caller ev = Some i
            ∧ blame_calls st' !! i = Some parent
            ∧ ev_ignore_ref parent = Some lp
            ∧ call_ignore_revs_list (ev_call parent) = Some parent_revs
            ∧ ev_ignore_ref parent ≠ Some l'
            ∧ (call_rev (ev_call ev) ∉ parent_revs)
            ∧ call_ignore_revs_list (ev_call ev)
              = Some (parent_revs ++ [call_rev (ev_call ev)])
            ∧ heap st' !! l' = Some (parent_revs ++ [call_rev (ev_call ev)])
            ∧ heap st' !! lp = Some parent_revs)
      ∧ (∀ ev1 ev2 revs2,
           ev1 ∈ subs → ev2 ∈ subs → ev_caller ev1 = ev_caller ev2 →
           call_ignore_revs_list (ev_call ev2) = Some revs2 →
           call_rev (ev_call ev1) ∈ revs2 →
           call_rev (ev_call ev1) = call_rev (ev_call ev2)).
Proof.
  intros Hl Hfin.
  pose proof (blame_extends _ _ _ _ _ _ _ _ _ Hfin) as Hext.
  pose proof (extends_heap_lookup _ _ _ _ Hext Hl) as Hl'.
  destruct (blame_trace refminer super_blame fuel _ _ _ _ _ _ _ Hl Hfin)
    as (subs & Hcalls & Hok & Hnd).
  pose proof (blame_trace_refs_NoDup super_blame _ _ rev file_path modified_lines
                _ _ _ Hl Hok Hnd) as Hrefs.
  assert (Hsub : ∀ ev, ev ∈ subs →
            ∃ l' parent i lp parent_revs,
              ev_ignore_ref ev = Some l'
              ∧ (length (heap st) ≤ l')%nat
              ∧ parent ∈ blame_event rev file_path modified_lines (Some l) st :: subs
              ∧ ev_caller ev = Some i
              ∧ blame_calls st' !! i = Some parent
              ∧ ev_ignore_ref parent = Some lp
              ∧ call_ignore_revs_list (ev_call parent) = Some parent_revs
              ∧ ev_ignore_ref parent ≠ Some l'
              ∧ (call_rev (ev_call ev) ∉ parent_revs)
              ∧ call_ignore_revs_list (ev_call ev)
                = Some (parent_revs ++ [call_rev (ev_call ev)])
              ∧ heap st' !! l' = Some (parent_revs ++ [call_rev (ev_call ev)])
              ∧ heap st' !! lp = Some parent_revs).
  { intros ev Hev.
    destruct (blame_trace_parent super_blame _ _ _ _ _ _ _ _ _ Hl Hext Hcalls Hok Hev)
      as (l1 & path & parent & i & lp & Href & Hle & Hcall & Hheap & Hndp & Hnew
          & Hc & Hi & Hp & Hpl & Hlp & Hlpheap).
    assert (Hown : call_rev (ev_call ev) ∈ path ++ [call_rev (ev_call ev)]).
    { apply elem_of_app. right. by left. }
    exists l1, parent, i, lp, (revs ++ path). rewrite <- app_assoc.
    split_and!; try done.
    - intros Hpref. rewrite Hlp in Hpref. injection Hpref as ->.
      rewrite Hlpheap in Hheap. injection Hheap as Hheap.
      apply (f_equal length) in Hheap. rewrite !length_app in Hheap.
      simpl in Hheap. lia.
    - intros [Hin|Hin]%elem_of_app.
      + by destruct (Hnew _ Hown).
      + apply NoDup_app in Hndp as (_ & Hdisj & _). apply (Hdisj _ Hin). by left. }
  split; [by destruct Hext as (_ & ? & _)|]. split; [done|].
  exists subs. split_and!; [done | done | done |].
  intros ev1 ev2 revs2 Hev1 Hev2 Hsame Hrevs2 Hin.
  destruct (Hsub _ Hev1) as (l1 & p1 & i1 & lp1 & revs1 & _ & _ & _ & Hc1 & Hi1 & _ & Hp1
                             & _ & Hnot1 & _).
  destruct (Hsub _ Hev2) as (l2 & p2 & i2 & lp2 & prevs2 & _ & _ & _ & Hc2 & Hi2 & _ & Hp2
                             & _ & _ & Hcall2 & _).
  rewrite Hc1, Hc2 in Hsame. injection Hsame as ->.
  rewrite Hi1 in Hi2. injection Hi2 as ->.
  rewrite Hp1 in Hp2. injection Hp2 as ->.
  rewrite Hcall2 in Hrevs2. injection Hrevs2 as <-.
  apply elem_of_app in Hin as [Hin | Hin%list_elem_of_singleton]; done.
Qed.

(** Scenario B: the recursive call on [R1] works on the list at address 1,
    the caller's list at address 0 is still empty. *)
Lemma ignore_lists_not_shared_witness :
  heap Scenario.st0 !! O = Some []
  ∧ final_state (_blame Scenario.miner Scenario.engine_B 3 "R2" "f.java" [10] (Some O)
                        Scenario.st0) = Some Scenario.st_B
  ∧ heap Scenario.st0 `prefix_of` heap Scenario.st_B
  ∧ heap Scenario.st_B !! O = Some [].
Proof.
  assert (H1 : heap Scenario.st0 !! O = Some []) by reflexivity.
  assert (H2 : final_state (_blame Scenario.miner Scenario.engine_B 3 "R2" "f.java" [10]
                              (Some O) Scenario.st0) = Some Scenario.st_B)
    by (vm_cast_no_check (eq_refl (Some Scenario.st_B))).
  split; [exact H1|]. split; [exact H2|].
  pose proof (ignore_lists_not_shared Scenario.miner Scenario.engine_B 3 "R2" "f.java" [10]
                O [] Scenario.st0 Scenario.st_B H1 H2) as (Hpre & Hl & _).
  split; [exact Hpre | exact Hl].
Defined.

(** Scenario D: the call for [R3] is made after the call for [R1], and
    the call for [R4] under it, have returned; its caller is the first
    call, and its list is that caller's with [R3]: it holds neither [R1]
    nor [R4].  Each line gives the revision of a call, its list object,
    the index of its caller in the trace and its list. *)
Example siblings_copy_the_callers_list :
  let run := final_state (_blame Scenario.miner_siblings Scenario.engine_siblings 4
                                 "R2" "f.java" [10; 11] (Some O) Scenario.st0) in
  heap <$> run = Some [[]; ["R1"]; ["R1"; "R4"]; ["R3"]]%string
  ∧ (fun st => (fun ev => (call_rev (ev_call ev), ev_ignore_ref ev, ev_caller ev,
                           call_ignore_revs_list (ev_call ev)))
               <$> blame_calls st) <$> run
    = Some [("R2", Some 0, None, Some []);
            ("R1", Some 1, Some 0, Some ["R1"]);
            ("R4", Some 2, Some 1, Some ["R1"; "R4"]);
            ("R3", Some 3, Some 0, Some ["R3"])]%string%nat.
Proof. split; vm_compute; reflexivity. Qed.


(** * Further properties of the class *)


(** ** RefactoringMiner runs that store nothing or the empty list *)

(** A run after which the cache holds the empty list: a timeout, or JSON
    on which the test of line 35 evaluates to false. *)
Lemma run_refminer_stores_empty refminer commit st :
  refminer (detector_calls st) commit = TimeoutExpired
  ∨ (∃ data, refminer (detector_calls st) commit = Completed (Some data)
             ∧ read_refactorings data = inr None) →
  run_refminer refminer commit st = Ok tt (Scenario.cached commit [] st).
Proof.
  intros [H | (data & H & Hshape)].
  - by apply run_refminer_timeout.
  - by eapply run_refminer_corrupted.
Qed.

(** The shapes on which the test of line 35 is false: an object without
    ["commits"]; ["commits"] empty, be it an array, an object or a string;
    ["commits"] a string that is not empty, whose first character does not
    contain ["refactorings"]; a first commit that is an object without
    ["refactorings"], or a string or an array that does not contain
    ["refactorings"]; and an array or a string, in place of the outer
    object, that does not contain ["commits"]. *)
Lemma read_refactorings_false data :
  read_refactorings data = inr None ↔
  match data with
  | mkDetectorData None => True
  | mkDetectorData (Some (CommitList [])) => True
  | mkDetectorData (Some (CommitList (mkCommitEntry None :: _))) => True
  | mkDetectorData (Some (CommitList (EntryString s :: _))) => string_in "refactorings" s = false
  | mkDetectorData (Some (CommitList (EntryArray elements :: _))) =>
      list_in "refactorings" elements = false
  | mkDetectorData (Some (CommitsObject [])) => True
  | mkDetectorData (Some (CommitsString _)) => True
  | DataString s => string_in "commits" s = false
  | DataArray elements => list_in "commits" elements = false
  | _ => False
  end.
Proof.
  destruct data as [[[[|[[value|]|elements|s|v] entries]|[|field fields]|s|v]|]|elements|s|v];
    simpl; try (split; [done || discriminate | done || tauto]).
  - destruct (list_in _ _); split; (done || discriminate).
  - destruct (string_in _ _); split; (done || discriminate).
  - destruct (list_in _ _); split; (done || discriminate).
  - destruct (string_in _ _); split; (done || discriminate).
Qed.

Lemma strip_covered_nil f : strip_covered [] f = f.
Proof.
  destruct f as [fp ls]. unfold strip_covered, strip_by; simpl. f_equal.
  induction ls as [|x ls IH]; [done|]. rewrite filter_cons_True by done. by f_equal.
Qed.

(** X1: when RefactoringMiner times out on the fix commit, or prints JSON
    on which the test of line 35 evaluates to false
    ([read_refactorings_false] lists the shapes), [get_impacted_files]
    stores the empty list for it and returns the files of the base routine
    as they are, less the files that had no modified line to begin with.
    JSON on which an expression of lines 35 and 36 cannot be evaluated
    ([null], a number, ["commits"] that is a number or an object with a
    field, a first commit that is a scalar) is not treated so: the
    exception leaves [get_impacted_files] and nothing is stored. *)
Theorem get_impacted_files_detector_silent
    (refminer : list string -> string -> DetectorRun)
    (super_get_impacted_files : string -> list ImpactedFile.t)
    (fix_commit_hash : string) (st : State) :
  refactorings st !! fix_commit_hash = None →
  (refminer (detector_calls st) fix_commit_hash = TimeoutExpired
   ∨ (∃ data, refminer (detector_calls st) fix_commit_hash = Completed (Some data)
              ∧ read_refactorings data = inr None) →
   get_impacted_files refminer super_get_impacted_files fix_commit_hash st
   = Ok (filter (fun f => (0 < length (ImpactedFile.modified_lines f))%nat)
                (super_get_impacted_files fix_commit_hash))
        (Scenario.cached fix_commit_hash [] st))
  ∧ (∀ data e,
       refminer (detector_calls st) fix_commit_hash = Completed (Some data) →
       read_refactorings data = inl e →
       get_impacted_files refminer super_get_impacted_files fix_commit_hash st
       = Raise e (log_detector fix_commit_hash st)
       ∧ refactorings (log_detector fix_commit_hash st) !! fix_commit_hash = None).
Proof.
  intros Hnone. split.
  - intros Hrun.
    assert (Hext : _extract_refactorings refminer [fix_commit_hash] st
                   = Ok tt (Scenario.cached fix_commit_hash [] st)).
    { simpl. unfold bind. rewrite Hnone. by rewrite run_refminer_stores_empty. }
    assert (Hrefs : refactorings (Scenario.cached fix_commit_hash [] st) !! fix_commit_hash
                    = Some (RefactoringList [])).
    { simpl. by rewrite lookup_insert_eq. }
    rewrite (get_impacted_files_run refminer super_get_impacted_files _ _ _ _ [] Hext Hrefs)
      by done.
    do 2 f_equal.

    rewrite <- (list_fmap_id (super_get_impacted_files fix_commit_hash)) at 2.
    apply list_fmap_ext. intros i f _. apply strip_covered_nil.
  - intros data e Hrun Hdata. split; [|done].
    unfold get_impacted_files, bind. simpl. unfold bind. rewrite Hnone.
    by rewrite (run_refminer_unreadable refminer _ _ _ _ Hrun Hdata).
Qed.

Lemma get_impacted_files_detector_silent_witness :
  refactorings Scenario.st0 !! "R2"%string = None
  ∧ Scenario.timing_out_miner (detector_calls Scenario.st0) "R2" = TimeoutExpired
  ∧ get_impacted_files Scenario.timing_out_miner Scenario.impacted_two "R2" Scenario.st0
    = Ok [ImpactedFile.mk "f.java" [3; 4; 5]] (Scenario.cached "R2" [] Scenario.st0).
Proof.
  assert (H1 : refactorings Scenario.st0 !! "R2"%string = None) by reflexivity.
  assert (H2 : Scenario.timing_out_miner (detector_calls Scenario.st0) "R2" = TimeoutExpired)
    by reflexivity.
  split; [exact H1|]. split; [exact H2|].
  exact (proj1 (get_impacted_files_detector_silent Scenario.timing_out_miner
                  Scenario.impacted_two "R2" Scenario.st0 H1) (or_introl H2)).
Defined.

(** Lines 35 and 36 on JSON of other shapes: [null], [5],
    [{"commits": [null]}], [{"commits": 5}] and [{"commits": {"a": 1}}]
    raise, and [{"commits": [{"refactorings": null}]}] passes the test, so
    that [None] is stored. *)
Example read_refactorings_other_shapes :
  read_refactorings (DataScalar Null) = inl TypeError
  ∧ read_refactorings (DataScalar (Number "5")) = inl TypeError
  ∧ read_refactorings (mkDetectorData (Some (CommitList [EntryScalar Null]))) = inl TypeError
  ∧ read_refactorings (mkDetectorData (Some (CommitsScalar (Number "5")))) = inl TypeError
  ∧ read_refactorings
      (mkDetectorData (Some (CommitsObject [("a"%string, JScalar (Number "1"))])))
    = inl KeyError0
  ∧ read_refactorings
      (mkDetectorData (Some (CommitList [mkCommitEntry (Some (RefactoringsScalar Null))])))
    = inr (Some (RefactoringsScalar Null)).
Proof. by split_and!. Qed.

(** On [{"commits": [{"refactorings": null}]}] the pass caches [None] for
    the fix commit and the [for] of line 54 raises; a second call finds
    the entry, runs nothing and raises again. *)
Example get_impacted_files_null_refactorings :
  let refminer := fun (_ : list string) (_ : string) =>
    Completed (Some (mkDetectorData
      (Some (CommitList [mkCommitEntry (Some (RefactoringsScalar Null))])))) in
  let st' := set_refactorings {["R2"%string := RefactoringsScalar Null]}
               (log_detector "R2" Scenario.st0) in
  get_impacted_files refminer Scenario.impacted "R2" Scenario.st0 = Raise TypeError st'
  ∧ get_impacted_files refminer Scenario.impacted "R2" st' = Raise TypeError st'.
Proof. split; vm_compute; reflexivity. Qed.

(** A tool that cannot be started: [check_output] raises [OSError], which
    no handler catches. *)
Example get_impacted_files_not_started :
  get_impacted_files (fun _ _ => NotStarted) Scenario.impacted "R2" Scenario.st0
  = Raise OSError (log_detector "R2" Scenario.st0).
Proof. reflexivity. Qed.

(** ** Which failed runs are repeated *)


Lemma extract_refactorings_cached refminer commit (refs : RefactoringsValue) st :
  refactorings st !! commit = Some refs →

  _extract_refactorings refminer [commit] st = Ok tt st.
Proof. intros H. simpl. unfold bind. by rewrite H. Qed.

(** X2: a commit on which RefactoringMiner timed out is cached as having
    no refactoring and the next pass does not run the tool on it; a commit
    on which the tool exited with an error is not cached, and the next
    pass runs the tool on it again. *)
Theorem failed_runs_retried
    (refminer : list string -> string -> DetectorRun)
    (commit : string) (st : State) :
  refactorings st !! commit = None →
  (refminer (detector_calls st) commit = TimeoutExpired →
   ∃ st', (run! _extract_refactorings refminer [commit]
           in _extract_refactorings refminer [commit]) st = Ok tt st'
          ∧ refactorings st' !! commit = Some (RefactoringList [])
          ∧ detector_calls st' = detector_calls st ++ [commit])

  ∧ (refminer (detector_calls st) commit = CalledProcessError →
     ∃ st', final_state ((run! _extract_refactorings refminer [commit]
                          in _extract_refactorings refminer [commit]) st) = Some st'
            ∧ detector_calls st' = detector_calls st ++ [commit; commit]).
Proof.
  intros Hnone. split; intros Hrun.
  - exists (Scenario.cached commit [] st).
    assert (Hext : _extract_refactorings refminer [commit] st
                   = Ok tt (Scenario.cached commit [] st)).
    { simpl. unfold bind. rewrite Hnone. by rewrite run_refminer_timeout. }
    split_and!.
    + unfold bind at 1. rewrite Hext. eapply extract_refactorings_cached.
      apply lookup_insert_eq.
    + apply lookup_insert_eq.
    + done.
  - unfold bind at 1.
    destruct (extract_refactorings_process_error_general refminer commit st Hnone Hrun)
      as [Hext Hnone'].
    rewrite Hext.
    destruct (run_refminer_step refminer commit _ Hnone') as (st' & Hfin & Hstep).
    exists st'. split.
    + simpl. unfold bind. rewrite Hnone'.
      destruct (run_refminer refminer commit (log_detector commit st)) as [[] s|e s|];
        simpl in Hfin |- *; by simplify_eq.
    + destruct Hstep as (_ & _ & _ & _ & Hc & _). rewrite Hc. simpl.
      by rewrite <- app_assoc.
Qed.

Lemma failed_runs_retried_witness :
  refactorings Scenario.st0 !! "R1"%string = None
  ∧ Scenario.flaky_miner (detector_calls Scenario.st0) "R1" = CalledProcessError
  ∧ ∃ st', final_state ((run! _extract_refactorings Scenario.flaky_miner ["R1"%string]
                         in _extract_refactorings Scenario.flaky_miner ["R1"%string])
                          Scenario.st0) = Some st'
           ∧ detector_calls st' = detector_calls Scenario.st0 ++ ["R1"; "R1"]%string.
Proof.
  assert (H1 : refactorings Scenario.st0 !! "R1"%string = None) by reflexivity.
  assert (H2 : Scenario.flaky_miner (detector_calls Scenario.st0) "R1" = CalledProcessError)
    by reflexivity.
  split; [exact H1|]. split; [exact H2|].
  exact (proj2 (failed_runs_retried Scenario.flaky_miner "R1" Scenario.st0 H1) H2).
Defined.

(** ** Output that is not JSON *)

Lemma extract_refactorings_app refminer commits1 commits2 st :
  _extract_refactorings refminer (commits1 ++ commits2) st
  = (run! _extract_refactorings refminer commits1
     in _extract_refactorings refminer commits2) st.
Proof.
  revert st. induction commits1 as [|c cs IH]; intros st; [done|].
  simpl. unfold bind.
  destruct (refactorings st !! c).
  - apply IH.
  - destruct (run_refminer refminer c st) as [[] st1|e st1|]; [apply IH | done | done].
Qed.

(** X3: output of RefactoringMiner that is not JSON is caught by neither
    handler: the exception of [json.loads] leaves [_extract_refactorings]
    at that commit.  The commits before it in the pass keep the entries
    they got; the commits after it are not looked at. *)
Theorem extract_refactorings_not_json_aborts
    (refminer : list string -> string -> DetectorRun)
    (before after : list string) (commit : string) (st st1 : State) :
  _extract_refactorings refminer before st = Ok tt st1 →
  refactorings st1 !! commit = None →
  refminer (detector_calls st1) commit = Completed None →
  _extract_refactorings refminer (before ++ commit :: after) st
  = Raise JSONDecodeError (log_detector commit st1).
Proof.
  intros Hbefore Hnone Hrun.
  rewrite extract_refactorings_app. unfold bind at 1. rewrite Hbefore.
  simpl. unfold bind. rewrite Hnone. by rewrite run_refminer_not_json.
Qed.

Lemma extract_refactorings_not_json_aborts_witness :
  let st1 := Scenario.cached "R0" [] Scenario.st0 in
  _extract_refactorings Scenario.garbling_miner ["R0"%string] Scenario.st0 = Ok tt st1
  ∧ refactorings st1 !! "R1"%string = None
  ∧ Scenario.garbling_miner (detector_calls st1) "R1" = Completed None
  ∧ _extract_refactorings Scenario.garbling_miner
      (["R0"%string] ++ "R1"%string :: ["R2"%string]) Scenario.st0
    = Raise JSONDecodeError (log_detector "R1" st1).
Proof.
  intros st1.
  assert (H1 : _extract_refactorings Scenario.garbling_miner ["R0"%string] Scenario.st0
               = Ok tt st1) by (vm_compute; reflexivity).
  assert (H2 : refactorings st1 !! "R1"%string = None) by (vm_compute; reflexivity).
  assert (H3 : Scenario.garbling_miner (detector_calls st1) "R1" = Completed None)
    by reflexivity.
  split; [exact H1|]. split; [exact H2|]. split; [exact H3|].
  exact (extract_refactorings_not_json_aborts Scenario.garbling_miner ["R0"%string]
           ["R2"%string] "R1" Scenario.st0 st1 H1 H2 H3).
Defined.

(** ** What get_impacted_files keeps *)

Lemma strip_covered_sublist refs f :
  ImpactedFile.file_path (strip_covered refs f) = ImpactedFile.file_path f
  ∧ ImpactedFile.modified_lines (strip_covered refs f)
    `sublist_of` ImpactedFile.modified_lines f.
Proof. split; [done|]. apply sublist_filter. Qed.

(** What [get_impacted_files] returns when it returns. *)
Lemma get_impacted_files_Ok refminer super_get_impacted_files fix_commit_hash st result st' :
  get_impacted_files refminer super_get_impacted_files fix_commit_hash st = Ok result st' →
  ∃ value refs,
    _extract_refactorings refminer [fix_commit_hash] st = Ok tt st'
    ∧ refactorings st' !! fix_commit_hash = Some value
    ∧ iter_refactorings value = inr refs
    ∧ result = filter (fun f => (0 < length (ImpactedFile.modified_lines f))%nat)
                      (strip_covered refs <$> super_get_impacted_files fix_commit_hash).
Proof.
  intros Hget. unfold get_impacted_files, bind in Hget.
  destruct (_extract_refactorings refminer [fix_commit_hash] st) as [[] st1|e st1|] eqn:Hext;
    [|done|done].
  destruct (refactorings st1 !! fix_commit_hash) as [value|] eqn:Hvalue; [|done].
  destruct (iter_refactorings value) as [e|refs] eqn:Hiter; [done|].
  simplify_eq. exists value, refs. split_and!; [done | done | done |].
  by rewrite foldl_strip_refactoring.
Qed.

(** X4: [get_impacted_files] only removes.  Line 50 puts the files the
    base routine returns, [base_files], in a set, and the loops go through
    that set; [super_get_impacted_files] is the set in its iteration
    order.  Every file returned is a file of the base routine, under the
    same path, with a non-empty selection of that file's modified lines in
    their original order.  The returned files come in the iteration order
    of the set, which need not be the order of [base_files]. *)
Theorem get_impacted_files_only_removes
    (refminer : list string -> string -> DetectorRun)
    (super_get_impacted_files : string -> list ImpactedFile.t)
    (base_files : list ImpactedFile.t)
    (fix_commit_hash : string) (st st' : State) (result : list ImpactedFile.t) :
  (∀ f, f ∈ super_get_impacted_files fix_commit_hash ↔ f ∈ base_files) →
  get_impacted_files refminer super_get_impacted_files fix_commit_hash st = Ok result st' →
  (∀ f', f' ∈ result →
      ImpactedFile.modified_lines f' ≠ []
      ∧ ∃ f, f ∈ base_files
             ∧ ImpactedFile.file_path f' = ImpactedFile.file_path f
             ∧ ImpactedFile.modified_lines f' `sublist_of` ImpactedFile.modified_lines f)
  ∧ (ImpactedFile.file_path <$> result)
      `sublist_of` (ImpactedFile.file_path <$> super_get_impacted_files fix_commit_hash).
Proof.
  intros Hset (value & refs & _ & _ & _ & ->)%get_impacted_files_Ok. split.
  - intros f' [Hlen (f & -> & Hf)%list_elem_of_fmap]%list_elem_of_filter. split.
    + intros Hnil. rewrite Hnil in Hlen. simpl in Hlen. lia.
    + exists f. split; [by apply Hset|]. apply strip_covered_sublist.
  - etrans; [apply fmap_sublist, sublist_filter|].
    rewrite <- list_fmap_compose.
    by rewrite (list_fmap_ext (ImpactedFile.file_path ∘ strip_covered refs)
                  ImpactedFile.file_path _ (fun _ _ _ => eq_refl)).
Qed.

(** The base routine returns [g.java], without a line, and then [f.java];
    the set is gone through the other way round. *)
Lemma get_impacted_files_only_removes_witness :
  let base_files := [ImpactedFile.mk "g.java" []; ImpactedFile.mk "f.java" [3; 4; 5]] in
  let result := [ImpactedFile.mk "f.java" [3]] in
  let st' := Scenario.cached "R2" [mkRefactoring "Move Method" [mkLocation "f.java" 4 5]]
               Scenario.st0 in
  (∀ f, f ∈ Scenario.impacted_two "R2" ↔ f ∈ base_files)
  ∧ get_impacted_files (Scenario.fix_miner 4 5) Scenario.impacted_two "R2" Scenario.st0
    = Ok result st'
  ∧ (∀ f', f' ∈ result →
        ImpactedFile.modified_lines f' ≠ []
        ∧ ∃ f, f ∈ base_files
               ∧ ImpactedFile.file_path f' = ImpactedFile.file_path f
               ∧ ImpactedFile.modified_lines f' `sublist_of` ImpactedFile.modified_lines f).
Proof.
  intros base_files result st'.
  assert (H1 : ∀ f, f ∈ Scenario.impacted_two "R2" ↔ f ∈ base_files).
  { intros f. unfold Scenario.impacted_two, base_files.
    rewrite !elem_of_cons, !elem_of_nil. tauto. }
  assert (H2 : get_impacted_files (Scenario.fix_miner 4 5) Scenario.impacted_two "R2"
                 Scenario.st0 = Ok result st') by (vm_compute; reflexivity).
  split; [exact H1|]. split; [exact H2|].
  exact (proj1 (get_impacted_files_only_removes (Scenario.fix_miner 4 5)
                  Scenario.impacted_two base_files "R2" Scenario.st0 st' result H1 H2)).
Defined.

(** X5: a file of the base routine that has a modified line, and none
    inside a region the fix commit's refactorings name in that file, is
    returned as it is: regions in other files do not touch it. *)
Theorem get_impacted_files_keeps_uncovered
    (refminer : list string -> string -> DetectorRun)
    (super_get_impacted_files : string -> list ImpactedFile.t)
    (fix_commit_hash : string) (st st' : State) (result : list ImpactedFile.t)
    (value : RefactoringsValue) (refs : list Refactoring) (f : ImpactedFile.t) :
  get_impacted_files refminer super_get_impacted_files fix_commit_hash st = Ok result st' →
  refactorings st' !! fix_commit_hash = Some value →
  iter_refactorings value = inr refs →
  f ∈ super_get_impacted_files fix_commit_hash →
  ImpactedFile.modified_lines f ≠ [] →
  (∀ line, line ∈ ImpactedFile.modified_lines f →
           covered_by refs (ImpactedFile.file_path f) line = false) →
  f ∈ result.
Proof.
  intros (value' & refs' & _ & Hvalue' & Hiter' & ->)%get_impacted_files_Ok
         Hvalue Hiter Hf Hne Hcov.
  assert (refs' = refs) as -> by congruence.
  rename refs into refs'.
  assert (Hsame : strip_covered refs' f = f).
  { destruct f as [fp ls]. unfold strip_covered, strip_by; simpl in *. f_equal.
    clear Hf Hne. induction ls as [|x ls IH]; [done|].
    rewrite filter_cons_True by (apply Hcov; by left).
    f_equal. apply IH. intros line Hline. apply Hcov. by right. }
  apply list_elem_of_filter. split.
  - destruct (ImpactedFile.modified_lines f); [done | simpl; lia].
  - apply list_elem_of_fmap. exists f. by rewrite Hsame.
Qed.

Lemma get_impacted_files_keeps_uncovered_witness :
  let refs := [mkRefactoring "Move Method" [mkLocation "f.java" 7 9]] in
  let st' := Scenario.cached "R2" refs Scenario.st0 in
  let f := ImpactedFile.mk "f.java" [3; 4; 5] in
  get_impacted_files (Scenario.fix_miner 7 9) Scenario.impacted "R2" Scenario.st0
  = Ok [f] st'
  ∧ refactorings st' !! "R2"%string = Some (RefactoringList refs)
  ∧ f ∈ Scenario.impacted "R2"
  ∧ ImpactedFile.modified_lines f ≠ []
  ∧ (∀ line, line ∈ ImpactedFile.modified_lines f →
             covered_by refs (ImpactedFile.file_path f) line = false)
  ∧ f ∈ [f].
Proof.
  intros refs st' f.
  assert (H1 : get_impacted_files (Scenario.fix_miner 7 9) Scenario.impacted "R2" Scenario.st0
               = Ok [f] st') by (vm_compute; reflexivity).
  assert (H2 : refactorings st' !! "R2"%string = Some (RefactoringList refs))
    by (vm_compute; reflexivity).
  assert (H3 : f ∈ Scenario.impacted "R2") by (by left).
  assert (H4 : ImpactedFile.modified_lines f ≠ []) by done.
  assert (H5 : ∀ line, line ∈ ImpactedFile.modified_lines f →
                       covered_by refs (ImpactedFile.file_path f) line = false).
  { intros line Hline. simpl in Hline.
    repeat (apply elem_of_cons in Hline as [->|Hline]; [reflexivity|]).
    by apply elem_of_nil in Hline. }
  split; [exact H1|]. split; [exact H2|]. split; [exact H3|]. split; [exact H4|].
  split; [exact H5|].
  exact (get_impacted_files_keeps_uncovered (Scenario.fix_miner 7 9) Scenario.impacted "R2"
           Scenario.st0 st' [f] (RefactoringList refs) refs f H1 H2 eq_refl H3 H4 H5).
Defined.

(** X6: a second call of [get_impacted_files] on the same fix commit runs
    RefactoringMiner no more, changes nothing in the state and returns
    what the first call returned. *)
Theorem get_impacted_files_repeatable
    (refminer : list string -> string -> DetectorRun)
    (super_get_impacted_files : string -> list ImpactedFile.t)
    (fix_commit_hash : string) (st st' : State) (result : list ImpactedFile.t) :
  get_impacted_files refminer super_get_impacted_files fix_commit_hash st = Ok result st' →
  get_impacted_files refminer super_get_impacted_files fix_commit_hash st' = Ok result st'.
Proof.
  intros (value & refs & _ & Hvalue & Hiter & ->)%get_impacted_files_Ok.
  pose proof (extract_refactorings_cached refminer _ _ _ Hvalue) as Hext.
  by eapply get_impacted_files_run.
Qed.

Lemma get_impacted_files_repeatable_witness :
  let result := [ImpactedFile.mk "f.java" [3]] in
  let st' := Scenario.cached "R2" [mkRefactoring "Move Method" [mkLocation "f.java" 4 5]]
               Scenario.st0 in
  get_impacted_files (Scenario.fix_miner 4 5) Scenario.impacted "R2" Scenario.st0
  = Ok result st'
  ∧ get_impacted_files (Scenario.fix_miner 4 5) Scenario.impacted "R2" st' = Ok result st'.
Proof.
  intros result st'.
  assert (H : get_impacted_files (Scenario.fix_miner 4 5) Scenario.impacted "R2" Scenario.st0
              = Ok result st') by (vm_compute; reflexivity).
  split; [exact H|].
  exact (get_impacted_files_repeatable (Scenario.fix_miner 4 5) Scenario.impacted
           "R2" Scenario.st0 st' result H).
Defined.

(** ** _blame when no candidate is covered *)

Lemma covering_in_accepted cache b :
  accepted_in cache b
  ↔ is_Some (cached_refs cache (BlameData.commit b)) ∧ covering_in cache b = O.
Proof.
  unfold accepted_in, covering_in. split.
  - intros (refs & Hrefs & Hcov). rewrite Hrefs. split; [by eexists|].
    by apply covering_count_zero.
  - intros [[refs Hrefs] Hz]. rewrite Hrefs in Hz. exists refs. split; [done|].
    by apply covering_count_zero.
Qed.

Lemma partition_blames_all_accepted cache candidate_blame_data :
  (∀ b, b ∈ candidate_blame_data → accepted_in cache b) →
  partition_blames cache candidate_blame_data [] ∅
  = inr ([], list_to_set candidate_blame_data).
Proof.
  intros Hacc.
  destruct (partition_blames_total cache candidate_blame_data) as (d & r & Hpart).
  { intros b Hb. by destruct (proj1 (covering_in_accepted _ _) (Hacc _ Hb)). }
  rewrite Hpart. f_equal.
  apply partition_blames_spec in Hpart as ((_ & Hent & _) & _ & Hres).
  f_equal.
  - destruct d as [|[key rc] d]; [done|]. exfalso.
    destruct (Hent key rc) as (_ & Hlines & Hne & _); [by left|].
    destruct (ReblameCandidate.modified_lines rc) as [|line lines] eqn:E; [done|].
    assert (Hin : line ∈ requested_lines cache candidate_blame_data key).
    { rewrite <- Hlines. by left. }
    apply elem_of_requested_lines in Hin as (b & Hb & _ & Hcov & _).
    by destruct (proj1 (covering_in_accepted _ _) (Hacc _ Hb)).
  - apply set_eq. intros a. rewrite Hres, elem_of_list_to_set. split; [by intros [? _]|].
    intros Ha. split; [done|]. by destruct (proj1 (covering_in_accepted _ _) (Hacc _ Ha)).
Qed.

(** X7: when no candidate of the base blame falls inside a region of its
    commit, [_blame] returns the candidates of the base blame, all of them
    and nothing else, after that one call to the base blame: no recursive
    call, no new list, whatever [ignore_revs_list] is, [None] included. *)
Theorem blame_nothing_covered
    (refminer : list string -> string -> DetectorRun)
    (super_blame : BlameCall -> list BlameData.t)
    (fuel : nat) (rev file_path : string) (modified_lines : list Z)
    (ignore_revs_list : option ref) (st st1 : State) :
  let ev := blame_event rev file_path modified_lines ignore_revs_list st in
  let candidate_blame_data := super_blame (ev_call ev) in
  _extract_refactorings refminer
    (remove_dups (BlameData.commit <$> candidate_blame_data)) (log_blame ev st) = Ok tt st1 →
  (∀ b, b ∈ candidate_blame_data → accepted_in (refactorings st1) b) →
  _blame refminer super_blame (S fuel) rev file_path modified_lines ignore_revs_list st
  = Ok (list_to_set candidate_blame_data) st1
  ∧ blame_calls st1 = blame_calls st ++ [ev]
  ∧ heap st1 = heap st
  ∧ dropped st1 = dropped st.
Proof.
  intros ev candidate_blame_data Hext Hacc. split.
  - rewrite blame_S. unfold bind. fold ev. fold candidate_blame_data. rewrite Hext.
    by rewrite partition_blames_all_accepted.
  - apply extract_refactorings_Ok in Hext as (new & _ & Hh & Hb & Hd & _). done.
Qed.

Lemma blame_nothing_covered_witness :
  let ev := blame_event "R2" "f.java" [10] None Scenario.st0 in
  let st1 := Scenario.cached "R1" [] (log_blame ev Scenario.st0) in
  _extract_refactorings Scenario.timing_out_miner
    (remove_dups (BlameData.commit <$> Scenario.engine_C (ev_call ev)))
    (log_blame ev Scenario.st0) = Ok tt st1
  ∧ (∀ b, b ∈ Scenario.engine_C (ev_call ev) → accepted_in (refactorings st1) b)
  ∧ _blame Scenario.timing_out_miner Scenario.engine_C 1 "R2" "f.java" [10] None Scenario.st0
    = Ok (list_to_set (Scenario.engine_C (ev_call ev))) st1.
Proof.
  intros ev st1.
  assert (H1 : _extract_refactorings Scenario.timing_out_miner
                 (remove_dups (BlameData.commit <$> Scenario.engine_C (ev_call ev)))
                 (log_blame ev Scenario.st0) = Ok tt st1) by (vm_compute; reflexivity).
  assert (H2 : ∀ b, b ∈ Scenario.engine_C (ev_call ev) → accepted_in (refactorings st1) b).
  { intros b ->%list_elem_of_singleton. exists []. split; [|reflexivity].
    vm_compute. reflexivity. }
  split; [exact H1|]. split; [exact H2|].
  exact (proj1 (blame_nothing_covered Scenario.timing_out_miner Scenario.engine_C O
                  "R2" "f.java" [10] None Scenario.st0 st1 H1 H2)).
Defined.

(** ** Where the returned attributions come from *)

Section Soundness.

Variable refminer : list string -> string -> DetectorRun.
Variable super_blame : BlameCall -> list BlameData.t.

Lemma reblame_loop_sound rec ignore_revs_list :
  (∀ rev file_path lines ig s result s',
      rec rev file_path lines ig s = Ok result s' →
      ∃ new, blame_calls s' = blame_calls s ++ new
             ∧ ∀ a, a ∈ result → ∃ ev, ev ∈ new ∧ a ∈ super_blame (ev_call ev)) →
  ∀ to_reblame result st result' st',
    reblame_loop rec ignore_revs_list to_reblame result st = Ok result' st' →
    ∃ new, blame_calls st' = blame_calls st ++ new
           ∧ ∀ a, a ∈ result' →
                  a ∈ result ∨ ∃ ev, ev ∈ new ∧ a ∈ super_blame (ev_call ev).
Proof.
  intros Hrec to_reblame.
  induction to_reblame as [|rc rest IH]; intros result st result' st' Hrun.
  - simpl in Hrun. unfold ret in Hrun. simplify_eq. exists [].
    rewrite app_nil_r. split; [done|]. by left.
  - simpl in Hrun. unfold bind in Hrun.
    destruct ignore_revs_list as [l|]; [|done].
    rewrite reblame_step_Some in Hrun.
    destruct (decide _).
    + exact (IH _ _ _ _ Hrun).
    + destruct (rec _ _ _ _ _) as [res1 st1|e st1|] eqn:Hcall; [|done|done].
      destruct (Hrec _ _ _ _ _ _ _ Hcall) as (new1 & Hc1 & Hs1).
      destruct (IH _ _ _ _ Hrun) as (new2 & Hc2 & Hs2). simpl in Hc2.
      exists (new1 ++ new2). split.
      * rewrite Hc2, Hc1. by rewrite <- app_assoc.
      * intros a Ha. destruct (Hs2 _ Ha) as [[Hres|Hres1]%elem_of_union|(ev & Hev & Hin)].
        -- by left.
        -- destruct (Hs1 _ Hres1) as (ev & Hev & Hin).
           right. exists ev. split; [|done]. apply elem_of_app. by left.
        -- right. exists ev. split; [|done]. apply elem_of_app. by right.
Qed.

Lemma blame_sound fuel : ∀ rev file_path lines ig st result st',
  _blame refminer super_blame fuel rev file_path lines ig st = Ok result st' →
  ∃ new, blame_calls st' = blame_calls st ++ new
         ∧ ∀ a, a ∈ result → ∃ ev, ev ∈ new ∧ a ∈ super_blame (ev_call ev).
Proof.
  induction fuel as [|fuel IH]; intros rev file_path lines ig st result st' Hrun; [done|].
  rewrite blame_S in Hrun. unfold bind in Hrun.
  destruct (_extract_refactorings _ _ _) as [[] st1|e st1|] eqn:Hext; [|done|done].
  apply extract_refactorings_Ok in Hext as (new & _ & _ & Hb & _).
  destruct (partition_blames _ _ _ _) as [e|[to_reblame accepted]] eqn:Hpart; [done|].
  apply partition_blames_spec in Hpart as (_ & _ & Hacc).
  destruct (reblame_loop_sound _ _ IH _ _ _ _ _ Hrun) as (new2 & Hc2 & Hs2).
  exists (blame_event rev file_path lines ig st :: new2). split.
  - rewrite Hc2, Hb. simpl. by rewrite <- app_assoc.
  - intros a Ha. destruct (Hs2 _ Ha) as [[Hin _]%Hacc|(ev & Hev & Hin)].
    + eexists. split; [by left | done].
    + exists ev. split; [by right | done].
Qed.

End Soundness.

(** X8: [_blame] invents no attribution: everything it returns was
    reported by the base blame, in one of the calls to the base blame made
    during the run. *)
Theorem blame_returns_reported
    (refminer : list string -> string -> DetectorRun)
    (super_blame : BlameCall -> list BlameData.t)
    (fuel : nat) (rev file_path : string) (modified_lines : list Z)
    (ignore_revs_list : option ref) (st st' : State) (result : gset BlameData.t) :
  _blame refminer super_blame fuel rev file_path modified_lines ignore_revs_list st
  = Ok result st' →
  ∃ new, blame_calls st' = blame_calls st ++ new
         ∧ ∀ a, a ∈ result → ∃ ev, ev ∈ new ∧ a ∈ super_blame (ev_call ev).
Proof. apply blame_sound. Qed.

Lemma blame_returns_reported_witness :
  let a := BlameData.mk "R0" 10 "int x;" "f.java" in
  _blame Scenario.miner Scenario.engine_B 3 "R2" "f.java" [10] (Some O) Scenario.st0
  = Ok {[a]} Scenario.st_B
  ∧ ∃ new, blame_calls Scenario.st_B = blame_calls Scenario.st0 ++ new
           ∧ ∀ a', a' ∈ ({[a]} : gset BlameData.t) →
                   ∃ ev, ev ∈ new ∧ a' ∈ Scenario.engine_B (ev_call ev).
Proof.
  intros a.
  assert (H1 : _blame Scenario.miner Scenario.engine_B 3 "R2" "f.java" [10] (Some O) Scenario.st0
               = Ok {[a]} Scenario.st_B)
    by (vm_cast_no_check (eq_refl (Ok (A := gset BlameData.t) {[a]} Scenario.st_B))).
  split; [exact H1|].
  exact (blame_returns_reported _ _ _ _ _ _ _ _ _ _ H1).
Defined.

(** ** _blame after an error exit of RefactoringMiner *)

Lemma run_refminer_cases refminer commit st :
  (∃ value, run_refminer refminer commit st
            = Ok tt (set_refactorings (<[commit := value]> (refactorings st))
                                      (log_detector commit st)))
  ∨ (refminer (detector_calls st) commit = CalledProcessError
     ∧ run_refminer refminer commit st = Ok tt (log_detector commit st))
  ∨ (∃ e, run_refminer refminer commit st = Raise e (log_detector commit st)).
Proof.
  unfold run_refminer.
  destruct (refminer (detector_calls st) commit) as [[data|]| | | |]; simpl; eauto.
  destruct (read_refactorings data) as [e|[value|]]; simpl; eauto.
Qed.

Lemma extract_refactorings_never_caches refminer commit :
  (∀ history, refminer history commit = CalledProcessError) →
  ∀ commits st st',
    refactorings st !! commit = None →
    final_state (_extract_refactorings refminer commits st) = Some st' →
    refactorings st' !! commit = None.
Proof.
  intros Hfail commits. induction commits as [|c cs IH]; intros st st' Hnone Hfin.
  - simpl in Hfin. by simplify_eq.
  - simpl in Hfin. unfold bind in Hfin.
    destruct (refactorings st !! c) as [refs|] eqn:Hc; [by eapply IH|].
    destruct (decide (c = commit)) as [->|Hne].
    + rewrite run_refminer_process_error in Hfin by apply Hfail.
      eapply IH; [|exact Hfin]. done.
    + destruct (run_refminer_cases refminer c st) as [(value & Hrun)|[[_ Hrun]|[e Hrun]]];
        rewrite Hrun in Hfin.
      * eapply IH; [|exact Hfin]. simpl. by rewrite lookup_insert_ne.
      * eapply IH; [|exact Hfin]. done.
      * simpl in Hfin. by simplify_eq.
Qed.

(** The pass stops with fuel to spare: it gives an outcome. *)
Lemma extract_refactorings_outcome refminer commits st :
  _extract_refactorings refminer commits st ≠ OutOfFuel.
Proof.
  destruct (extract_refactorings_step refminer commits st) as (new & st' & Hfin & _).
  intros Heq. by rewrite Heq in Hfin.
Qed.

(** X9: when RefactoringMiner exits with an error on the commit of a
    candidate, and that commit is not cached, [_blame] does not return.
    The pass of line 95 gives the commit no cache entry, so either the
    pass itself raises, on another commit, or the loop of lines 100-117
    does.  When the pass returns and the [for] of line 102 can go through
    what the cache then holds for the candidates' commits, the exception
    is the [KeyError] of the lookup
    [self.refactorings[blame.commit.hexsha]], on a candidate whose commit
    has no entry. *)

Theorem blame_KeyError_after_process_error
    (refminer : list string -> string -> DetectorRun)
    (super_blame : BlameCall -> list BlameData.t)
    (fuel : nat) (rev file_path : string) (modified_lines : list Z)
    (ignore_revs_list : option ref) (st : State) (b : BlameData.t) :
  let ev := blame_event rev file_path modified_lines ignore_revs_list st in
  let candidate_blame_data := super_blame (ev_call ev) in
  let commits := remove_dups (BlameData.commit <$> candidate_blame_data) in
  b ∈ candidate_blame_data →
  refactorings st !! BlameData.commit b = None →
  (∀ history, refminer history (BlameData.commit b) = CalledProcessError) →
  (∃ e st',
     _blame refminer super_blame (S fuel) rev file_path modified_lines ignore_revs_list st
     = Raise e st'
     ∧ refactorings st' !! BlameData.commit b = None
     ∧ (_extract_refactorings refminer commits (log_blame ev st) = Raise e st'
        ∨ (_extract_refactorings refminer commits (log_blame ev st) = Ok tt st'
           ∧ partition_blames (refactorings st') candidate_blame_data [] ∅ = inl e)))
  ∧ (∀ st1,
       _extract_refactorings refminer commits (log_blame ev st) = Ok tt st1 →
       (∀ b' value, b' ∈ candidate_blame_data →
                    refactorings st1 !! BlameData.commit b' = Some value →
                    ∃ refs, iter_refactorings value = inr refs) →
       ∃ b', b' ∈ candidate_blame_data
             ∧ refactorings st1 !! BlameData.commit b' = None
             ∧ _blame refminer super_blame (S fuel) rev file_path modified_lines
                      ignore_revs_list st
               = Raise (KeyError (BlameData.commit b')) st1).
Proof.
  intros ev candidate_blame_data commits Hb Hnone Hfail.
  assert (Hnever : ∀ st1, final_state (_extract_refactorings refminer commits (log_blame ev st))
                          = Some st1 → refactorings st1 !! BlameData.commit b = None).
  { intros st1 Hfin.
    by eapply (extract_refactorings_never_caches refminer _ Hfail); [|exact Hfin]. }
  assert (Hloop : ∀ st1, refactorings st1 !! BlameData.commit b = None →
                         ∃ e, partition_blames (refactorings st1) candidate_blame_data [] ∅
                              = inl e).
  { intros st1 Hnone1.
    destruct (partition_blames _ _ _ _) as [e|[to_reblame accepted]] eqn:Hpart; [by eexists|].
    apply partition_blames_spec in Hpart as (_ & Hcached & _).
    destruct (cached_refs_is_Some _ _ (Hcached _ Hb)) as [value Hvalue]. congruence. }
  split.
  - rewrite blame_S. unfold bind. fold ev. fold candidate_blame_data. fold commits.
    destruct (_extract_refactorings refminer commits (log_blame ev st))
      as [[] st1|e st1|] eqn:Hext.
    + destruct (Hloop st1) as [e Hpart]; [by apply Hnever|].
      exists e, st1. rewrite Hpart. split_and!; [done | by apply Hnever | by right].
    + exists e, st1. split_and!; [done | by apply Hnever | by left].
    + by destruct (extract_refactorings_outcome refminer commits (log_blame ev st)).
  - intros st1 Hext Hlists.
    destruct (Hloop st1) as [e Hpart]; [apply Hnever; by rewrite Hext|].
    pose proof Hpart as (b' & Hb' & Hcase)%partition_blames_KeyError.
    destruct Hcase as [[Hnone' ->] | (value & Hvalue & Hiter & _)].
    + exists b'. split_and!; [done | done |].
      rewrite blame_S. unfold bind. fold ev. fold candidate_blame_data. fold commits.
      by rewrite Hext, Hpart.
    + destruct (Hlists _ _ Hb' Hvalue) as [refs Hrefs]. congruence.
Qed.

Lemma blame_KeyError_after_process_error_witness :
  let b := BlameData.mk "R1" 10 "int x;" "f.java" in
  let ev := blame_event "R2" "f.java" [10] (Some O) Scenario.st0 in
  b ∈ Scenario.engine_C (ev_call ev)
  ∧ refactorings Scenario.st0 !! BlameData.commit b = None
  ∧ (∀ history, Scenario.failing_miner history (BlameData.commit b) = CalledProcessError)
  ∧ ∃ e st',
      _blame Scenario.failing_miner Scenario.engine_C 1 "R2" "f.java" [10] (Some O) Scenario.st0
      = Raise e st'
      ∧ refactorings st' !! BlameData.commit b = None.
Proof.
  intros b ev.
  assert (H1 : b ∈ Scenario.engine_C (ev_call ev)) by (by left).
  assert (H2 : refactorings Scenario.st0 !! BlameData.commit b = None) by reflexivity.
  assert (H3 : ∀ history,
             Scenario.failing_miner history (BlameData.commit b) = CalledProcessError)
    by reflexivity.
  split; [exact H1|]. split; [exact H2|]. split; [exact H3|].
  destruct (proj1 (blame_KeyError_after_process_error Scenario.failing_miner
                     Scenario.engine_C O "R2" "f.java" [10] (Some O) Scenario.st0 b H1 H2 H3))
    as (e & st' & Hrun & Hnone & _).
  exists e, st'. split; [exact Hrun | exact Hnone].
Defined.

(** In that run the exception is the [KeyError] on [R1]. *)
Example blame_KeyError_on_R1 :
  ∃ st', _blame Scenario.failing_miner Scenario.engine_C 1 "R2" "f.java" [10] (Some O)
                Scenario.st0 = Raise (KeyError "R1") st'.
Proof. eexists. vm_compute. reflexivity. Qed.

(** ** A base blame that cannot get past the ignored revisions *)

Lemma reblame_loop_all_dropped rec l revs to_reblame : ∀ result st,
  heap st !! l = Some revs →
  (∀ rc, rc ∈ to_reblame → ReblameCandidate.rev rc ∈ revs) →
  reblame_loop rec (Some l) to_reblame result st
  = Ok result (foldl (fun s rc => log_drop rc s) st to_reblame).
Proof.
  induction to_reblame as [|rc rest IH]; intros result st Hl Hrevs; [done|].
  simpl. unfold bind.
  rewrite (reblame_step_dropped rec l revs result rc st Hl) by (apply Hrevs; by left).
  apply IH; [done|]. intros rc' Hrc'. apply Hrevs. by right.
Qed.

Lemma foldl_log_drop to_reblame : ∀ st,
  let st' := foldl (fun s rc => log_drop rc s) st to_reblame in
  refactorings st' = refactorings st ∧ heap st' = heap st
  ∧ detector_calls st' = detector_calls st ∧ blame_calls st' = blame_calls st
  ∧ dropped st' = dropped st ++ to_reblame.
Proof.
  induction to_reblame as [|rc rest IH]; intros st; simpl.
  - by rewrite app_nil_r.
  - destruct (IH (log_drop rc st)) as (H1 & H2 & H3 & H4 & H5).
    split_and!; try done. rewrite H5. simpl. by rewrite <- app_assoc.
Qed.

(** X10: when every commit the base blame names is already in the
    caller's ignore list, [_blame] stops at the first level: it returns the
    candidates no region covers, drops every request, and makes no
    recursive call and no new list. *)
Theorem blame_all_requests_ignored
    (refminer : list string -> string -> DetectorRun)
    (super_blame : BlameCall -> list BlameData.t)
    (fuel : nat) (rev file_path : string) (modified_lines : list Z)
    (l : ref) (revs : list string) (st st1 : State)
    (to_reblame : list (string * ReblameCandidate.t)) (result : gset BlameData.t) :
  let ev := blame_event rev file_path modified_lines (Some l) st in
  let candidate_blame_data := super_blame (ev_call ev) in
  heap st !! l = Some revs →
  (∀ b, b ∈ candidate_blame_data → BlameData.commit b ∈ revs) →
  _extract_refactorings refminer
    (remove_dups (BlameData.commit <$> candidate_blame_data)) (log_blame ev st) = Ok tt st1 →
  partition_blames (refactorings st1) candidate_blame_data [] ∅ = inr (to_reblame, result) →
  ∃ st',
    _blame refminer super_blame (S fuel) rev file_path modified_lines (Some l) st
    = Ok result st'
    ∧ (∀ a, a ∈ result ↔ a ∈ candidate_blame_data ∧ accepted_in (refactorings st') a)
    ∧ blame_calls st' = blame_calls st ++ [ev]
    ∧ heap st' = heap st
    ∧ dropped st' = dropped st ++ to_reblame.*2.
Proof.
  intros ev candidate_blame_data Hl Hrevs Hext Hpart.
  pose proof Hext as (new & _ & Hh & Hb & Hd & _)%extract_refactorings_Ok.
  simpl in Hh, Hb, Hd.
  pose proof Hpart as ((_ & Hent & _) & Hcached & Hres)%partition_blames_spec.
  destruct (foldl_log_drop (to_reblame.*2) st1) as (H1 & H2 & _ & H4 & H5).
  eexists. split_and!.
  - rewrite blame_S. unfold bind. fold ev. fold candidate_blame_data. rewrite Hext, Hpart.
    apply (reblame_loop_all_dropped _ l revs); [by rewrite Hh|].
    intros rc ([key rc'] & -> & Hin)%list_elem_of_fmap.
    destruct (Hent _ _ Hin) as (_ & _ & _ & b & Hb' & Hrev & _). simpl.
    rewrite Hrev. by apply Hrevs.
  - intros a. rewrite Hres, H1, covering_in_accepted. split.
    + intros [Ha Hz]. split_and!; try done. by apply Hcached.
    + intros [Ha [_ Hz]]. done.
  - by rewrite H4, Hb.
  - by rewrite H2, Hh.
  - by rewrite H5, Hd.
Qed.

Lemma blame_all_requests_ignored_witness :
  let ev := blame_event "R2" "f.java" [10] (Some O) Scenario.st_ignoring_R1 in
  let st1 := Scenario.cached "R1" [Scenario.rename_method]
               (log_blame ev Scenario.st_ignoring_R1) in
  let to_reblame := [("R1@f.java"%string, ReblameCandidate.mk "R1" "f.java" [10])] in
  heap Scenario.st_ignoring_R1 !! O = Some ["R1"%string]
  ∧ (∀ b, b ∈ Scenario.engine_C (ev_call ev) → BlameData.commit b ∈ ["R1"%string])
  ∧ _extract_refactorings Scenario.miner
      (remove_dups (BlameData.commit <$> Scenario.engine_C (ev_call ev)))
      (log_blame ev Scenario.st_ignoring_R1) = Ok tt st1
  ∧ partition_blames (refactorings st1) (Scenario.engine_C (ev_call ev)) [] ∅
    = inr (to_reblame, ∅)
  ∧ ∃ st',
      _blame Scenario.miner Scenario.engine_C 1 "R2" "f.java" [10] (Some O)
             Scenario.st_ignoring_R1 = Ok ∅ st'
      ∧ (∀ a, a ∈ (∅ : gset BlameData.t)
              ↔ a ∈ Scenario.engine_C (ev_call ev) ∧ accepted_in (refactorings st') a)
      ∧ blame_calls st' = blame_calls Scenario.st_ignoring_R1 ++ [ev]
      ∧ heap st' = heap Scenario.st_ignoring_R1
      ∧ dropped st' = dropped Scenario.st_ignoring_R1 ++ to_reblame.*2.
Proof.
  intros ev st1 to_reblame.
  assert (H1 : heap Scenario.st_ignoring_R1 !! O = Some ["R1"%string]) by reflexivity.
  assert (H2 : ∀ b, b ∈ Scenario.engine_C (ev_call ev) → BlameData.commit b ∈ ["R1"%string]).
  { intros b ->%list_elem_of_singleton. by left. }
  assert (H3 : _extract_refactorings Scenario.miner
                 (remove_dups (BlameData.commit <$> Scenario.engine_C (ev_call ev)))
                 (log_blame ev Scenario.st_ignoring_R1) = Ok tt st1)
    by (vm_cast_no_check (eq_refl (Ok tt st1))).
  assert (H4 : partition_blames (refactorings st1) (Scenario.engine_C (ev_call ev)) [] ∅
               = inr (to_reblame, ∅))
    by (vm_cast_no_check
          (eq_refl (inr (to_reblame, ∅)
                    : PyExn + (list (string * ReblameCandidate.t) * gset BlameData.t)))).
  split; [exact H1|]. split; [exact H2|]. split; [exact H3|]. split; [exact H4|].
  exact (blame_all_requests_ignored Scenario.miner Scenario.engine_C O "R2" "f.java" [10]
           O ["R1"%string] Scenario.st_ignoring_R1 st1 to_reblame ∅ H1 H2 H3 H4).
Defined.

(** * Issue harvesting *)

(** ** The retries of get_jira_issues *)

Lemma failures_snoc trace ev :
  failures (trace ++ [ev]) = (failures trace + if is_failure ev then 1 else 0)%nat.
Proof.
  unfold failures. rewrite filter_app, length_app. f_equal.
  destruct (is_failure ev) eqn:E.
  - by rewrite filter_cons_True.
  - rewrite filter_cons_False; [done|]. by rewrite E.
Qed.

Lemma answers_snoc trace ev :
  answers (trace ++ [ev]) = (answers trace + if is_answer ev then 1 else 0)%nat.
Proof.
  unfold answers. rewrite filter_app, length_app. f_equal.
  destruct (is_answer ev) eqn:E.
  - by rewrite filter_cons_True.
  - rewrite filter_cons_False; [done|]. by rewrite E.
Qed.

Lemma sleeps_snoc trace ev :
  sleeps (trace ++ [ev]) = sleeps trace ++ match ev with Sleep t => [t] | _ => [] end.
Proof. unfold sleeps. rewrite omap_app. by destruct ev. Qed.

Section Retries.

Variable RawIssue : Type.
Variable E : Type.
Variable search_issues : list JiraEvent -> Z -> Z -> E + list RawIssue.
Variable JIssue : Type.
Variable JiraIssue : RawIssue -> E + JIssue.

Lemma backed_off_nil : backed_off [].
Proof. intros before startAt after Heq. by destruct before. Qed.

Lemma backed_off_answer trace startAt :
  backed_off trace → backed_off (trace ++ [Search startAt true]).
Proof.
  intros Hb before startAt' after Heq.
  destruct after as [|ev after _] using rev_ind.
  - by apply app_inj_tail in Heq as [_ Heq].
  - rewrite app_comm_cons, app_assoc in Heq. apply app_inj_tail in Heq as [Heq _].
    destruct (Hb _ _ _ Heq) as (seconds & after' & -> & Hs).
    exists seconds, (after' ++ [ev]). by split.
Qed.

Lemma backed_off_failure trace startAt seconds :
  backed_off trace →
  [60; 120; 240] !! failures trace = Some seconds →
  backed_off ((trace ++ [Search startAt false]) ++ [Sleep seconds]).
Proof.
  intros Hb Hs before startAt' after Heq.
  destruct after as [|ev after _] using rev_ind.
  - by apply app_inj_tail in Heq as [_ Heq].
  - rewrite app_comm_cons, app_assoc in Heq. apply app_inj_tail in Heq as [Heq <-].
    destruct after as [|ev' after _] using rev_ind.
    + apply app_inj_tail in Heq as [<- _]. by exists seconds, [].
    + rewrite app_comm_cons, app_assoc in Heq. apply app_inj_tail in Heq as [Heq _].
      destruct (Hb _ _ _ Heq) as (seconds' & after' & Hafter & Hs').
      exists seconds', ((after' ++ [ev']) ++ [Sleep seconds]). rewrite Hafter. by split.
Qed.

Lemma search_loop_retries fuel bunch : ∀ all_issues extracted_issues sleep_time trace,
  retry_inv sleep_time trace → backed_off trace →
  match search_loop RawIssue E search_issues fuel bunch all_issues extracted_issues
                    sleep_time trace with
  | JReturn _ trace' =>
      (failures trace' ≤ 3)%nat ∧ sleeps trace' = take (failures trace') [60; 120; 240]
      ∧ backed_off trace'
      ∧ ends_with_short_page search_issues bunch trace'
  | JRaise e trace' =>
      ∃ trace0 startAt, trace' = trace0 ++ [Search startAt false]
                        ∧ search_issues trace0 bunch startAt = inl e
                        ∧ failures trace0 = 3%nat
                        ∧ sleeps trace0 = [60; 120; 240]
                        ∧ backed_off trace0
  | JOutOfFuel => True
  end.
Proof.
  induction fuel as [|fuel IH]; intros all_issues extracted_issues sleep_time trace
    (Hle & Hsleep & Hsleeps) Hb; [done|].
  simpl. destruct (search_issues trace bunch extracted_issues) as [e|issues] eqn:Hsearch.
  - assert (Hf : failures (trace ++ [Search extracted_issues false])
                 = S (failures trace)) by (rewrite failures_snoc; simpl; lia).
    assert (Hs : sleeps (trace ++ [Search extracted_issues false]) = sleeps trace)
      by (rewrite sleeps_snoc; simpl; by rewrite app_nil_r).
    destruct (failures trace) as [|[|[|[|k]]]] eqn:Hk; [| | | |lia];
      simpl in Hsleep; simplify_eq; simpl.
    + apply IH; [|apply backed_off_failure; [done | by rewrite Hk]].
      split_and!;
        rewrite failures_snoc, Hf, ?sleeps_snoc, ?Hs, ?Hsleeps; simpl; (lia || done).
    + apply IH; [|apply backed_off_failure; [done | by rewrite Hk]].
      split_and!;
        rewrite failures_snoc, Hf, ?sleeps_snoc, ?Hs, ?Hsleeps; simpl; (lia || done).
    + apply IH; [|apply backed_off_failure; [done | by rewrite Hk]].
      split_and!;
        rewrite failures_snoc, Hf, ?sleeps_snoc, ?Hs, ?Hsleeps; simpl; (lia || done).
    + exists trace, extracted_issues. by split_and!.
  - assert (Hf : failures (trace ++ [Search extracted_issues true]) = failures trace)
      by (rewrite failures_snoc; simpl; lia).
    assert (Hs : sleeps (trace ++ [Search extracted_issues true]) = sleeps trace)
      by (rewrite sleeps_snoc; simpl; by rewrite app_nil_r).
    destruct (Z.of_nat (length issues) <? bunch) eqn:Hshort.
    + rewrite Hf, Hs. split_and!; [done | done | by apply backed_off_answer |].
      exists trace, extracted_issues, issues. split_and!; [done | done |].
      by apply Z.ltb_lt.
    + apply IH; [split_and!; by rewrite ?Hf, ?Hs | by apply backed_off_answer].
Qed.

Lemma retry_inv_start : retry_inv 30 [].
Proof. unfold retry_inv, failures, sleeps. simpl. split_and!; [lia | done | done]. Qed.

Lemma map_JiraIssue_raises all_issues e :
  map_JiraIssue RawIssue E JIssue JiraIssue all_issues = inl e →
  ∃ issue, issue ∈ all_issues ∧ JiraIssue issue = inl e.
Proof.
  induction all_issues as [|issue rest IH]; [done|]. simpl.
  destruct (JiraIssue issue) as [e'|j] eqn:Hissue.
  - intros [= ->]. exists issue. split; [by left | done].
  - destruct (map_JiraIssue RawIssue E JIssue JiraIssue rest) as [e'|js]; [|done].
    intros [= ->]. destruct (IH eq_refl) as (issue' & Hin & Hraise).
    exists issue'. split; [by right | done].
Qed.

(** A server that is out of reach: four turns of the loop. *)
Lemma search_loop_down fuel bunch :
  (∀ trace startAt, ∃ e, search_issues trace bunch startAt = inl e) →
  (4 ≤ fuel)%nat →
  ∃ e, search_loop RawIssue E search_issues fuel bunch [] 0 30 []
       = JRaise e [Search 0 false; Sleep 60; Search 0 false; Sleep 120;
                   Search 0 false; Sleep 240; Search 0 false].
Proof.
  intros Hdown Hfuel. destruct fuel as [|[|[|[|fuel]]]]; try lia.
  do 4 (cbn [search_loop];
        match goal with
        | |- context [search_issues ?t bunch ?s] => destruct (Hdown t s) as [? ->]
        end;
        cbn -[search_loop]).
  by eexists.
Qed.

(** Fuel only cuts a run short: a run that ends, ends the same way with
    more fuel. *)
Lemma search_loop_fuel_mono fuel : ∀ fuel' bunch all_issues extracted_issues sleep_time trace,
  (fuel ≤ fuel')%nat →
  search_loop RawIssue E search_issues fuel bunch all_issues extracted_issues sleep_time trace
  ≠ JOutOfFuel →
  search_loop RawIssue E search_issues fuel' bunch all_issues extracted_issues sleep_time trace
  = search_loop RawIssue E search_issues fuel bunch all_issues extracted_issues sleep_time
                trace.
Proof.
  induction fuel as [|fuel IH];
    intros fuel' bunch all_issues extracted_issues sleep_time trace Hle Hends; [done|].
  destruct fuel' as [|fuel']; [lia|]. simpl in Hends |- *.
  destruct (search_issues trace bunch extracted_issues) as [e|issues].
  - destruct (480 <=? sleep_time * 2); [done|]. apply IH; [lia | done].
  - destruct (Z.of_nat (length issues) <? bunch); [done|]. apply IH; [lia | done].
Qed.

End Retries.

(** X11: [get_jira_issues] gives up at the fourth search that raises,
    counted over the whole run: [sleep_time] is never reset by a search
    that succeeds.  A call that ends has left the loop by the [break]
    after a short page, with at most three failed searches behind it, or by
    the exception of a failed search, the fourth one; every failed search
    but that one is followed by a sleep, of 60, 120 and 240 seconds in
    turn, and the fourth by none.  With a server that is out of reach the
    call does end that way, at its fourth turn.  The fuel of the model
    only bounds the turns of the loop: an outcome reached with some fuel is
    the outcome with any more. *)
Theorem get_jira_issues_retry_budget
    (RawIssue E : Type) (search_issues : list JiraEvent -> Z -> Z -> E + list RawIssue)
    (JIssue : Type) (JiraIssue : RawIssue -> E + JIssue) (fuel : nat) (bunch : Z) :
  retry_spec search_issues JiraIssue bunch
    (get_jira_issues RawIssue E search_issues JIssue JiraIssue fuel bunch)
  ∧ ((∀ trace startAt, ∃ e, search_issues trace bunch startAt = inl e) →
     (4 ≤ fuel)%nat →
     ∃ e, get_jira_issues RawIssue E search_issues JIssue JiraIssue fuel bunch
          = JRaise e [Search 0 false; Sleep 60; Search 0 false; Sleep 120;
                      Search 0 false; Sleep 240; Search 0 false])
  ∧ (∀ fuel', (fuel ≤ fuel')%nat →
       get_jira_issues RawIssue E search_issues JIssue JiraIssue fuel bunch ≠ JOutOfFuel →
       get_jira_issues RawIssue E search_issues JIssue JiraIssue fuel' bunch
       = get_jira_issues RawIssue E search_issues JIssue JiraIssue fuel bunch).
Proof.
  split_and!.
  - unfold get_jira_issues.
    pose proof (search_loop_retries RawIssue E search_issues fuel bunch [] 0 30 []
                  retry_inv_start backed_off_nil) as H.
    destruct (search_loop RawIssue E search_issues fuel bunch [] 0 30 [])
      as [all_issues trace|e trace|]; [| |done].
    + destruct H as (Hle & Hs & Hb & Hend).
      destruct (map_JiraIssue RawIssue E JIssue JiraIssue all_issues) as [e|issues] eqn:Hmap;
        simpl; [|done].
      right. split_and!; try done.
      destruct (map_JiraIssue_raises _ _ _ _ _ _ Hmap) as (issue & _ & Hissue).
      by exists issue.
    + simpl. by left.
  - intros Hdown Hfuel. unfold get_jira_issues.
    destruct (search_loop_down RawIssue E search_issues fuel bunch Hdown Hfuel) as [e ->].
    by exists e.
  - intros fuel' Hle Hends. unfold get_jira_issues in Hends |- *.
    rewrite (search_loop_fuel_mono RawIssue E search_issues fuel fuel' bunch [] 0 30 [] Hle);
      [done|].
    intros Hout. by rewrite Hout in Hends.
Qed.

Lemma get_jira_issues_retry_budget_witness :
  (∀ trace startAt, ∃ e, Scenario.jira_down trace 2 startAt = inl e)
  ∧ (4 ≤ 10)%nat
  ∧ ∃ e, get_jira_issues nat string Scenario.jira_down nat Scenario.jira_issue 10 2
         = JRaise e [Search 0 false; Sleep 60; Search 0 false; Sleep 120;
                     Search 0 false; Sleep 240; Search 0 false].
Proof.
  assert (H1 : ∀ trace startAt, ∃ e, Scenario.jira_down trace 2 startAt = inl e)
    by (intros trace startAt; by eexists).
  assert (H2 : (4 ≤ 10)%nat) by lia.
  split; [exact H1|]. split; [exact H2|].
  exact (proj1 (proj2 (get_jira_issues_retry_budget nat string Scenario.jira_down nat
                         Scenario.jira_issue 10 2)) H1 H2).

Defined.

(** A server that is never reached: four searches, three sleeps. *)
Example get_jira_issues_gives_up :
  get_jira_issues nat string Scenario.jira_down nat Scenario.jira_issue 10 2
  = JRaise "503"%string
      [Search 0 false; Sleep 60; Search 0 false; Sleep 120; Search 0 false; Sleep 240;
       Search 0 false].
Proof. reflexivity. Qed.

(** ** The pages get_jira_issues asks for *)

Section Paging.

Variable RawIssue : Type.
Variable E : Type.
Variable search_issues : list JiraEvent -> Z -> Z -> E + list RawIssue.

Lemma paged_snoc_search bunch trace answered :
  paged bunch trace →
  paged bunch (trace ++ [Search (bunch * Z.of_nat (answers trace)) answered]).
Proof.
  intros Hp before startAt answered' after Heq.
  destruct after as [|ev after _] using rev_ind.
  - apply app_inj_tail in Heq as [<- Heq]. by simplify_eq.
  - rewrite app_comm_cons, app_assoc in Heq. apply app_inj_tail in Heq as [Heq _].
    by eapply Hp.
Qed.

Lemma paged_snoc_sleep bunch trace t : paged bunch trace → paged bunch (trace ++ [Sleep t]).
Proof.
  intros Hp before startAt answered' after Heq.
  destruct after as [|ev after _] using rev_ind.
  - by apply app_inj_tail in Heq as [_ Heq].
  - rewrite app_comm_cons, app_assoc in Heq. apply app_inj_tail in Heq as [Heq _].
    by eapply Hp.
Qed.

Lemma search_loop_paged fuel bunch : ∀ all_issues extracted_issues sleep_time trace trace',
  paged bunch trace →
  extracted_issues = bunch * Z.of_nat (answers trace) →
  jira_trace (search_loop RawIssue E search_issues fuel bunch all_issues extracted_issues
                          sleep_time trace) = Some trace' →
  paged bunch trace'.
Proof.
  induction fuel as [|fuel IH];
    intros all_issues extracted_issues sleep_time trace trace' Hp -> Hfin; [done|].
  simpl in Hfin.
  destruct (search_issues trace bunch _) as [e|issues].
  - pose proof (paged_snoc_search bunch trace false Hp) as Hp'.
    destruct (480 <=? sleep_time * 2).
    + simpl in Hfin. by simplify_eq.
    + eapply IH; [| |exact Hfin].
      * by apply paged_snoc_sleep.
      * rewrite !answers_snoc. simpl. do 2 f_equal. lia.
  - pose proof (paged_snoc_search bunch trace true Hp) as Hp'.
    destruct (Z.of_nat (length issues) <? bunch).
    + simpl in Hfin. by simplify_eq.
    + eapply IH; [exact Hp' | |exact Hfin].
      rewrite answers_snoc. simpl. lia.
Qed.

End Paging.

(** X12: every search of [get_jira_issues] asks for the page that starts
    at [bunch] times the number of searches answered so far: [startAt]
    moves on by [bunch] after an answer, whatever the length of the page,
    and a search that raised is made again at the same [startAt]. *)
Theorem get_jira_issues_paged
    (RawIssue E : Type) (search_issues : list JiraEvent -> Z -> Z -> E + list RawIssue)
    (JIssue : Type) (JiraIssue : RawIssue -> E + JIssue) (fuel : nat) (bunch : Z)
    (trace : list JiraEvent) :
  jira_trace (get_jira_issues RawIssue E search_issues JIssue JiraIssue fuel bunch)
  = Some trace →
  ∀ before startAt answered after,
    trace = before ++ Search startAt answered :: after →
    startAt = bunch * Z.of_nat (answers before).
Proof.
  intros Hfin.
  apply (search_loop_paged RawIssue E search_issues fuel bunch [] 0 30 []).
  - intros before startAt answered after Heq. by destruct before.
  - unfold answers. simpl. lia.
  - unfold get_jira_issues in Hfin.
    destruct (search_loop RawIssue E search_issues fuel bunch [] 0 30 [])
      as [all_issues tr|e tr|]; [|done|done].
    by destruct (map_JiraIssue RawIssue E JIssue JiraIssue all_issues).
Qed.

Lemma get_jira_issues_paged_witness :
  let trace := [Search 0 false; Sleep 60; Search 0 true; Search 2 false; Sleep 120;
                Search 2 true; Search 4 false; Sleep 240; Search 4 true] in
  jira_trace (get_jira_issues nat string Scenario.jira_flaky nat Scenario.jira_issue 10 2)
  = Some trace
  ∧ ∀ before startAt answered after,
      trace = before ++ Search startAt answered :: after →
      startAt = 2 * Z.of_nat (answers before).
Proof.
  intros trace.
  assert (H : jira_trace (get_jira_issues nat string Scenario.jira_flaky nat
                            Scenario.jira_issue 10 2) = Some trace)
    by (vm_compute; reflexivity).
  split; [exact H|].
  exact (get_jira_issues_paged nat string Scenario.jira_flaky nat Scenario.jira_issue 10 2
           trace H).
Defined.

(** ** A server that pages its issues *)

Section PagingServer.

Variable RawIssue : Type.
Variable E : Type.
Variable search_issues : list JiraEvent -> Z -> Z -> E + list RawIssue.
Variable db : list RawIssue.
Hypothesis server : pages_of db search_issues.
Variable bunch : Z.
Hypothesis bunch_pos : 0 < bunch.

Lemma take_page (extracted_issues : Z) :
  0 <= extracted_issues →
  take (Z.to_nat extracted_issues) db
  ++ take (Z.to_nat bunch) (drop (Z.to_nat extracted_issues) db)
  = take (Z.to_nat (extracted_issues + bunch)) db.
Proof.
  intros Hle. rewrite Z2Nat.inj_add by lia. apply take_take_drop.
Qed.

Lemma page_length (extracted_issues : Z) :
  length (take (Z.to_nat bunch) (drop (Z.to_nat extracted_issues) db))
  = (Z.to_nat bunch `min` (length db - Z.to_nat extracted_issues))%nat.
Proof. by rewrite length_take, length_drop. Qed.

Lemma search_loop_collects fuel : ∀ all_issues extracted_issues sleep_time trace all' trace',
  0 <= extracted_issues →
  all_issues = take (Z.to_nat extracted_issues) db →
  search_loop RawIssue E search_issues fuel bunch all_issues extracted_issues
              sleep_time trace = JReturn all' trace' →
  all' = db.
Proof.
  induction fuel as [|fuel IH];
    intros all_issues extracted_issues sleep_time trace all' trace' Hle -> Hrun; [done|].
  simpl in Hrun.
  destruct (search_issues trace bunch extracted_issues) as [e|issues] eqn:Hsearch.
  - destruct (480 <=? sleep_time * 2); [done|]. by eapply IH.
  - apply server in Hsearch. subst issues.
    rewrite take_page in Hrun by done.
    destruct (Z.of_nat (length _) <? bunch) eqn:Hshort.
    + simplify_eq. apply take_ge.
      apply Z.ltb_lt in Hshort. rewrite page_length in Hshort. lia.
    + eapply IH; [| |exact Hrun]; [lia | done].
Qed.

Lemma retry_inv_answer sleep_time trace startAt :
  retry_inv sleep_time trace → retry_inv sleep_time (trace ++ [Search startAt true]).
Proof.
  intros (H1 & H2 & H3). unfold retry_inv.
  rewrite failures_snoc, sleeps_snoc. simpl. rewrite Nat.add_0_r, app_nil_r. done.
Qed.

Lemma retry_inv_failure sleep_time trace startAt :
  retry_inv sleep_time trace →
  if 480 <=? sleep_time * 2
  then failures trace = 3%nat
  else (failures trace < 3)%nat
       ∧ failures ((trace ++ [Search startAt false]) ++ [Sleep (sleep_time * 2)])
         = S (failures trace)
       ∧ retry_inv (sleep_time * 2)
           ((trace ++ [Search startAt false]) ++ [Sleep (sleep_time * 2)]).
Proof.
  intros (H1 & H2 & H3). unfold retry_inv.
  rewrite !failures_snoc, !sleeps_snoc. simpl. rewrite app_nil_r, H3.
  destruct (failures trace) as [|[|[|[|k]]]]; [| | | |lia];
    simpl in H2; simplify_eq; simpl; repeat split; (lia || done).
Qed.

Lemma search_loop_ends fuel : ∀ all_issues extracted_issues sleep_time trace,
  0 <= extracted_issues →
  retry_inv sleep_time trace →
  (length db - Z.to_nat extracted_issues + (3 - failures trace) < fuel)%nat →
  is_Some (jira_trace (search_loop RawIssue E search_issues fuel bunch all_issues
                                   extracted_issues sleep_time trace)).
Proof.
  induction fuel as [|fuel IH];
    intros all_issues extracted_issues sleep_time trace Hle Hinv Hfuel; [lia|].
  simpl.
  destruct (search_issues trace bunch extracted_issues) as [e|issues] eqn:Hsearch.
  - pose proof (retry_inv_failure sleep_time trace extracted_issues Hinv) as Hfail.
    destruct (480 <=? sleep_time * 2); [by eexists|].
    destruct Hfail as (Hlt & Hf & Hinv').
    apply IH; [done | done |]. rewrite Hf. lia.
  - apply server in Hsearch. subst issues.
    destruct (Z.of_nat (length _) <? bunch) eqn:Hshort; [by eexists|].
    apply Z.ltb_ge in Hshort. rewrite page_length in Hshort.
    apply IH; [lia | by apply retry_inv_answer |].
    rewrite failures_snoc. simpl. lia.
Qed.

End PagingServer.

(** X13: from a server that answers with the page it is asked for, and
    for a positive [bunch], what [get_jira_issues] returns is the issues of
    the server, all of them, once each and in the server's order, however
    many searches had to be made again. *)
Theorem get_jira_issues_collects_all
    (RawIssue E : Type) (search_issues : list JiraEvent -> Z -> Z -> E + list RawIssue)
    (JIssue : Type) (JiraIssue : RawIssue -> E + JIssue)
    (db : list RawIssue) (fuel : nat) (bunch : Z)
    (issues : list JIssue) (trace : list JiraEvent) :
  pages_of db search_issues →
  0 < bunch →
  get_jira_issues RawIssue E search_issues JIssue JiraIssue fuel bunch = JReturn issues trace →
  map_JiraIssue RawIssue E JIssue JiraIssue db = inr issues.
Proof.
  intros Hserver Hpos Hrun. unfold get_jira_issues in Hrun.
  destruct (search_loop RawIssue E search_issues fuel bunch [] 0 30 [])
    as [all_issues tr|e tr|] eqn:Hloop; [|done|done].
  apply (search_loop_collects RawIssue E search_issues db Hserver bunch Hpos) in Hloop;
    [|done|done].
  subst all_issues.
  destruct (map_JiraIssue RawIssue E JIssue JiraIssue db); by simplify_eq.
Qed.

Lemma jira_flaky_pages : pages_of Scenario.jira_db Scenario.jira_flaky.
Proof.
  intros trace bunch startAt issues. unfold Scenario.jira_flaky.
  destruct (_ && _); [done|]. by intros [= <-].
Qed.

Lemma get_jira_issues_collects_all_witness :
  let trace := [Search 0 false; Sleep 60; Search 0 true; Search 2 false; Sleep 120;
                Search 2 true; Search 4 false; Sleep 240; Search 4 true] in
  pages_of Scenario.jira_db Scenario.jira_flaky
  ∧ 0 < 2
  ∧ get_jira_issues nat string Scenario.jira_flaky nat Scenario.jira_issue 10 2
    = JReturn [1; 2; 3; 4; 5]%nat trace
  ∧ map_JiraIssue nat string nat Scenario.jira_issue Scenario.jira_db
    = inr [1; 2; 3; 4; 5]%nat.
Proof.
  intros trace.
  assert (H2 : 0 < 2) by lia.
  assert (H3 : get_jira_issues nat string Scenario.jira_flaky nat Scenario.jira_issue 10 2
               = JReturn [1; 2; 3; 4; 5]%nat trace) by (vm_compute; reflexivity).
  split; [exact jira_flaky_pages|]. split; [exact H2|]. split; [exact H3|].
  exact (get_jira_issues_collects_all nat string Scenario.jira_flaky nat Scenario.jira_issue
           Scenario.jira_db 10 2 _ trace jira_flaky_pages H2 H3).
Defined.

(** X14: with such a server and a positive [bunch] the loop of
    [get_jira_issues] ends, by returning or by raising, within as many
    turns as the server has issues, and four more. *)
Theorem get_jira_issues_ends
    (RawIssue E : Type) (search_issues : list JiraEvent -> Z -> Z -> E + list RawIssue)
    (JIssue : Type) (JiraIssue : RawIssue -> E + JIssue)
    (db : list RawIssue) (fuel : nat) (bunch : Z) :
  pages_of db search_issues →
  0 < bunch →
  (length db + 4 ≤ fuel)%nat →
  is_Some (jira_trace (get_jira_issues RawIssue E search_issues JIssue JiraIssue fuel bunch)).
Proof.
  intros Hserver Hpos Hfuel. unfold get_jira_issues.
  destruct (search_loop_ends RawIssue E search_issues db Hserver bunch Hpos fuel [] 0 30 [])
    as [tr Htr]; [done | apply retry_inv_start | |].
  { unfold failures. simpl. lia. }
  destruct (search_loop RawIssue E search_issues fuel bunch [] 0 30 [])
    as [all_issues tr'|e tr'|]; [|by eexists|done].
  destruct (map_JiraIssue RawIssue E JIssue JiraIssue all_issues); by eexists.
Qed.

Lemma get_jira_issues_ends_witness :
  pages_of Scenario.jira_db Scenario.jira_flaky
  ∧ 0 < 2
  ∧ (length Scenario.jira_db + 4 ≤ 9)%nat
  ∧ is_Some (jira_trace (get_jira_issues nat string Scenario.jira_flaky nat
                                         Scenario.jira_issue 9 2)).
Proof.
  assert (H2 : 0 < 2) by lia.
  assert (H3 : (length Scenario.jira_db + 4 ≤ 9)%nat) by (simpl; lia).
  split; [exact jira_flaky_pages|]. split; [exact H2|]. split; [exact H3|].
  exact (get_jira_issues_ends nat string Scenario.jira_flaky nat Scenario.jira_issue
           Scenario.jira_db 9 2 jira_flaky_pages H2 H3).
Defined.

(** ** A bunch of zero *)

Lemma search_loop_no_return (RawIssue E : Type)
    (search_issues : list JiraEvent -> Z -> Z -> E + list RawIssue) (bunch : Z) fuel :
  bunch <= 0 →
  ∀ all_issues extracted_issues sleep_time trace,
    match search_loop RawIssue E search_issues fuel bunch all_issues extracted_issues
                      sleep_time trace with
    | JReturn _ _ => False
    | JRaise _ _ => ¬ ∀ trace startAt, ∃ issues, search_issues trace bunch startAt = inr issues
    | JOutOfFuel => True
    end.
Proof.
  intros Hbunch. induction fuel as [|fuel IH];
    intros all_issues extracted_issues sleep_time trace; [done|].
  simpl. destruct (search_issues trace bunch extracted_issues) as [e|issues] eqn:Hsearch.
  - destruct (480 <=? sleep_time * 2); [|apply IH].
    intros Hnever. destruct (Hnever trace extracted_issues) as [issues Hi]. congruence.
  - destruct (Z.of_nat (length issues) <? bunch) eqn:Hshort; [|apply IH].
    apply Z.ltb_lt in Hshort. lia.
Qed.

(** X15: with [bunch] zero or negative no page is ever shorter than
    [bunch], so [get_jira_issues] never returns: it goes on searching until
    a fourth search raises, and for ever when the server answers every
    search. *)
Theorem get_jira_issues_bunch_zero
    (RawIssue E : Type) (search_issues : list JiraEvent -> Z -> Z -> E + list RawIssue)
    (JIssue : Type) (JiraIssue : RawIssue -> E + JIssue) (fuel : nat) (bunch : Z) :
  bunch <= 0 →
  (∀ issues trace,
     get_jira_issues RawIssue E search_issues JIssue JiraIssue fuel bunch
     ≠ JReturn issues trace)
  ∧ ((∀ trace startAt, ∃ issues, search_issues trace bunch startAt = inr issues) →
     get_jira_issues RawIssue E search_issues JIssue JiraIssue fuel bunch = JOutOfFuel).
Proof.
  intros Hbunch. unfold get_jira_issues.
  pose proof (search_loop_no_return RawIssue E search_issues bunch fuel Hbunch [] 0 30 [])
    as H.
  destruct (search_loop RawIssue E search_issues fuel bunch [] 0 30 [])
    as [all_issues tr|e tr|]; [done | |done].
  split; [done|]. intros Hnever. by destruct H.
Qed.

Lemma get_jira_issues_bunch_zero_witness :
  0 <= 0
  ∧ (∀ trace startAt, ∃ issues, Scenario.jira_server trace 0 startAt = inr issues)
  ∧ get_jira_issues nat string Scenario.jira_server nat Scenario.jira_issue 50 0 = JOutOfFuel.
Proof.
  assert (H1 : 0 <= 0) by lia.
  assert (H2 : ∀ trace startAt, ∃ issues, Scenario.jira_server trace 0 startAt = inr issues)
    by (intros; by eexists).
  split; [exact H1|]. split; [exact H2|].
  exact (proj2 (get_jira_issues_bunch_zero nat string Scenario.jira_server nat
                  Scenario.jira_issue 50 0 H1) H2).
Defined.

(** * Python strings *)

Lemma str_startswith_spec prefix s :
  str_startswith prefix s = true ↔ ∃ rest, s = prefix ++ rest.
Proof.
  revert s. induction prefix as [|a prefix IH]; intros s; simpl.
  - split; [by exists s | done].
  - destruct s as [|b s].
    + split; [done | by intros [rest ?]].
    + rewrite andb_true_iff, N.eqb_eq, IH. split.
      * intros [-> [rest ->]]. by exists rest.
      * intros [rest Heq]. simplify_eq. split; [done | by exists rest].
Qed.

Lemma str_startswith_app prefix rest : str_startswith prefix (prefix ++ rest) = true.
Proof. apply str_startswith_spec. by exists rest. Qed.

Lemma str_contains_spec sub s :
  str_contains sub s = true ↔ ∃ before after, s = before ++ sub ++ after.
Proof.
  induction s as [|c s IH]; simpl.
  - rewrite orb_false_r, str_startswith_spec. split.
    + intros [rest Heq]. by exists [], rest.
    + intros (before & after & Heq). symmetry in Heq.
      apply app_eq_nil in Heq as [-> Heq]. apply app_eq_nil in Heq as [-> ->]. by exists [].
  - rewrite orb_true_iff, str_startswith_spec, IH. split.
    + intros [[rest Heq]|(before & after & ->)].
      * by exists [], rest.
      * by exists (c :: before), after.
    + intros ([|c' before] & after & Heq).
      * left. by exists after.
      * right. simpl in Heq. simplify_eq. by exists before, after.
Qed.

Lemma str_contains_app sub before after : str_contains sub (before ++ sub ++ after) = true.
Proof. apply str_contains_spec. by exists before, after. Qed.

(** A string without the first character of [sub] does not contain
    [sub]. *)
Lemma str_contains_head c sub s : c ∉ s → str_contains (c :: sub) s = false.
Proof.
  intros Hc. destruct (str_contains (c :: sub) s) eqn:E; [|done].
  apply str_contains_spec in E as (before & after & ->).
  destruct Hc. apply elem_of_app. right. by left.
Qed.

Lemma str_startswith_head c sub s : c ∉ s → s ≠ [] → str_startswith (c :: sub) s = false.
Proof.
  intros Hc Hne. destruct s as [|b s]; [done|]. simpl.
  destruct (N.eqb_spec c b) as [->|]; [|done]. destruct Hc. by left.
Qed.

(** ** split *)

Lemma str_split_go_skip sep : ∀ s k cur,
  (k ≤ length s)%nat → str_split_go sep k cur s = str_split_go sep O cur (drop k s).
Proof.
  induction s as [|c s IH]; intros k cur Hk.
  - destruct k; [done | simpl in Hk; lia].
  - destruct k as [|k]; [done|]. simpl. apply IH. simpl in Hk. lia.
Qed.

(** No occurrence: one piece. *)
Lemma str_split_go_none sep : ∀ s cur,
  sep ≠ [] → str_contains sep s = false → str_split_go sep O cur s = [cur ++ s].
Proof.
  induction s as [|c s IH]; intros cur Hsep Hno.
  - simpl. by rewrite app_nil_r.
  - simpl in Hno. apply orb_false_iff in Hno as [Hstart Hno]. simpl.
    destruct sep as [|a sep]; [done|]. simpl in Hstart |- *. rewrite Hstart.
    rewrite IH by done. by rewrite <- app_assoc.
Qed.

(** The first occurrence ends the first piece. *)
Lemma str_split_go_first sep rest : ∀ before cur,
  sep ≠ [] →
  (∀ k, (k < length before)%nat →
        str_startswith sep (drop k (before ++ sep ++ rest)) = false) →
  str_split_go sep O cur (before ++ sep ++ rest) = (cur ++ before) :: str_split sep rest.
Proof.
  induction before as [|c before IH]; intros cur Hsep Hfirst.
  - rewrite app_nil_r. simpl. destruct sep as [|a sep]; [done|].
    change ((a :: sep) ++ rest) with (a :: (sep ++ rest)).
    cbn [str_split_go].
    change (a :: (sep ++ rest)) with ((a :: sep) ++ rest).
    rewrite str_startswith_app. f_equal. simpl.
    rewrite Nat.sub_0_r, str_split_go_skip by (rewrite length_app; lia).
    by rewrite drop_app_length.
  - pose proof (Hfirst O ltac:(simpl; lia)) as H0.
    change (drop 0 ((c :: before) ++ sep ++ rest)) with (c :: (before ++ sep ++ rest)) in H0.
    change ((c :: before) ++ sep ++ rest) with (c :: (before ++ sep ++ rest)).
    cbn [str_split_go].
    rewrite H0. rewrite IH; [by rewrite <- app_assoc | done |].
    intros k Hk. apply (Hfirst (S k)). simpl. lia.
Qed.

Lemma elem_of_drop_inv {A} (x : A) k l : x ∈ drop k l → x ∈ l.
Proof. rewrite <- (take_drop k l) at 2. rewrite elem_of_app. auto. Qed.

(** In particular when the piece before has not the first character of
    the separator. *)
Lemma str_split_go_first_head c sep rest before cur :
  (c ∉ before) →
  str_split_go (c :: sep) O cur (before ++ (c :: sep) ++ rest)
  = (cur ++ before) :: str_split (c :: sep) rest.
Proof.
  intros Hc. apply str_split_go_first; [done|].
  intros k Hk. rewrite drop_app_le by lia.
  destruct (drop k before) as [|b tail] eqn:E.
  - apply (f_equal length) in E. rewrite length_drop in E. simpl in E. lia.
  - simpl. destruct (N.eqb_spec c b) as [->|]; [|done].
    destruct Hc. apply (elem_of_drop_inv _ k). rewrite E. by left.
Qed.

Lemma str_split_first_head c sep rest before :
  (c ∉ before) →
  str_split (c :: sep) (before ++ (c :: sep) ++ rest) = before :: str_split (c :: sep) rest.
Proof. intros Hc. unfold str_split at 1. by rewrite str_split_go_first_head. Qed.

Lemma str_split_none sep s :
  sep ≠ [] → str_contains sep s = false → str_split sep s = [s].
Proof. intros. unfold str_split. by rewrite str_split_go_none. Qed.

Lemma str_contains_first sep s :
  str_contains sep s = true →
  ∃ before rest, s = before ++ sep ++ rest ∧ none_before sep s (length before).
Proof.
  induction s as [|c s IH]; intros Hin.
  - simpl in Hin. rewrite orb_false_r in Hin.
    apply str_startswith_spec in Hin as [rest Heq].
    exists [], rest. split; [done|]. intros k Hk. simpl in Hk. lia.
  - destruct (str_startswith sep (c :: s)) eqn:E.
    + apply str_startswith_spec in E as [rest Heq].
      exists [], rest. split; [done|]. intros k Hk. simpl in Hk. lia.
    + simpl in Hin. simpl in E. rewrite E in Hin. simpl in Hin.
      destruct (IH Hin) as (before & rest & Heq & Hfirst).
      exists (c :: before), rest. split; [by rewrite Heq|].
      intros [|k] Hk; [done|]. simpl. apply Hfirst. simpl in Hk. lia.
Qed.

Lemma none_before_contains sep s before rest :
  sep ≠ [] → s = before ++ rest → none_before sep s (length before) →
  str_contains sep before = false.
Proof.
  intros Hsep -> Hfirst. destruct (str_contains sep before) eqn:E; [|done].
  apply str_contains_spec in E as (b1 & b2 & ->).
  assert (length b1 < length (b1 ++ sep ++ b2))%nat as Hlt.
  { rewrite !length_app. destruct sep; [done|]. simpl. lia. }
  specialize (Hfirst _ Hlt). rewrite <- !app_assoc, drop_app_length in Hfirst.
  by rewrite str_startswith_app in Hfirst.
Qed.

Lemma str_split_first sep s :
  sep ≠ [] → str_contains sep s = true →
  ∃ before rest, s = before ++ sep ++ rest ∧ none_before sep s (length before)
                 ∧ str_split sep s = before :: str_split sep rest.
Proof.
  intros Hsep Hin. destruct (str_contains_first _ _ Hin) as (before & rest & Heq & Hfirst).
  exists before, rest. split; [done|]. split; [done|]. subst s.
  unfold str_split at 1. by rewrite str_split_go_first.
Qed.

Lemma str_split_go_nonempty sep : ∀ s k cur, str_split_go sep k cur s ≠ [].
Proof.
  induction s as [|c s IH]; intros k cur; [done|]. simpl.
  destruct k; [|apply IH]. destruct (str_startswith sep (c :: s)); [done | apply IH].
Qed.

Lemma str_contains_single c s : str_contains [c] s = false ↔ c ∉ s.
Proof.
  induction s as [|b s IH]; simpl.
  - split; [intros _; apply not_elem_of_nil | done].
  - rewrite andb_true_r, orb_false_iff, IH, not_elem_of_cons, N.eqb_neq. tauto.
Qed.

(** ** White space *)

Lemma str_lstrip_visible s : Forall (λ c, isspace c = false) s → str_lstrip s = s.
Proof.
  intros Hs. destruct s as [|c s]; [done|].
  apply Forall_cons_1 in Hs as [Hc _]. simpl. by rewrite Hc.
Qed.

Lemma str_strip_visible s : Forall (λ c, isspace c = false) s → str_strip s = s.
Proof.
  intros Hs. unfold str_strip. rewrite (str_lstrip_visible s Hs).
  rewrite str_lstrip_visible by by apply Forall_reverse.
  apply reverse_involutive.
Qed.

Lemma str_lstrip_app ws s : Forall (λ c, isspace c = true) ws → str_lstrip (ws ++ s) = str_lstrip s.
Proof.
  induction 1 as [|c ws Hc _ IH]; [done|]. cbv beta in Hc. simpl. by rewrite Hc.
Qed.

Lemma str_strip_padded ws1 ws2 s :
  Forall (λ c, isspace c = true) ws1 → Forall (λ c, isspace c = true) ws2 →
  Forall (λ c, isspace c = false) s → str_strip (ws1 ++ s ++ ws2) = s.
Proof.
  intros H1 H2 Hs. unfold str_strip. rewrite str_lstrip_app by done.
  destruct s as [|c s].
  - simpl. rewrite <- (app_nil_r ws2), str_lstrip_app by done. simpl.
    by rewrite reverse_nil.
  - pose proof Hs as Hs'. apply Forall_cons_1 in Hs' as [Hc _].
    replace (str_lstrip ((c :: s) ++ ws2)) with ((c :: s) ++ ws2)
      by (simpl; by rewrite Hc).
    rewrite reverse_app, str_lstrip_app by by apply Forall_reverse.
    rewrite str_lstrip_visible by by apply Forall_reverse.
    apply reverse_involutive.
Qed.

Lemma str_split_ws_go_spec : ∀ s cur,
  Forall (λ c, isspace c = false) cur →
  Forall (λ w, w ≠ [] ∧ Forall (λ c, isspace c = false) w) (str_split_ws_go cur s)
  ∧ concat (str_split_ws_go cur s) = cur ++ visible s.
Proof.
  induction s as [|c s IH]; intros cur Hcur.
  - simpl. destruct cur as [|a cur]; [by split|]. split.
    + apply Forall_singleton. by split.
    + simpl. by rewrite !app_nil_r.
  - cbn [str_split_ws_go]. unfold visible. rewrite filter_cons.
    destruct (isspace c) eqn:Hc.
    + rewrite decide_False by done.
      destruct (IH [] (Forall_nil_2 _)) as [IH1 IH2]. destruct cur as [|a cur]; [done|].
      split; [by constructor|]. simpl. rewrite IH2. done.
    + rewrite decide_True by done.
      destruct (IH (cur ++ [c])) as [IH1 IH2].
      { apply Forall_app. split; [done | by constructor]. }
      split; [done|]. rewrite IH2. by rewrite <- app_assoc.
Qed.

Lemma str_split_ws_go_within : ∀ s cur w,
  w ∈ str_split_ws_go cur s → ∃ before after, cur ++ s = before ++ w ++ after.
Proof.
  induction s as [|c s IH]; intros cur w Hw.
  - simpl in Hw. destruct cur as [|a cur]; [by apply elem_of_nil in Hw|].
    apply list_elem_of_singleton in Hw as ->. exists [], []. by rewrite !app_nil_r.
  - simpl in Hw. destruct (isspace c).
    + destruct cur as [|a cur].
      * destruct (IH _ _ Hw) as (before & after & Heq). simpl in Heq.
        exists (c :: before), after. simpl. by rewrite Heq.
      * apply elem_of_cons in Hw as [->|Hw].
        -- by exists [], (c :: s).
        -- destruct (IH _ _ Hw) as (before & after & Heq). simpl in Heq.
           exists ((a :: cur) ++ c :: before), after. rewrite Heq.
           by rewrite <- !app_assoc.
    + destruct (IH _ _ Hw) as (before & after & Heq).
      exists before, after. rewrite <- Heq. by rewrite <- app_assoc.
Qed.

Lemma str_split_ws_go_visible : ∀ w cur s,
  Forall (λ c, isspace c = false) w →
  str_split_ws_go cur (w ++ s) = str_split_ws_go (cur ++ w) s.
Proof.
  induction w as [|c w IH]; intros cur s Hw.
  - by rewrite app_nil_r.
  - apply Forall_cons_1 in Hw as [Hc Hw]. simpl. rewrite Hc, IH by done.
    by rewrite <- app_assoc.
Qed.

Lemma str_split_ws_join words :
  Forall (λ w, w ≠ [] ∧ Forall (λ c, isspace c = false) w) words →
  str_split_ws (str_join (py " ") words) = words.
Proof.
  unfold str_split_ws. induction 1 as [|w words [Hne Hw] Hwords IH]; [done|].
  destruct words as [|w' words].
  - simpl. rewrite <- (app_nil_r w), str_split_ws_go_visible by done. simpl.
    rewrite app_nil_r. by destruct w.
  - change (str_join (py " ") (w :: w' :: words))
      with (w ++ 32%N :: str_join (py " ") (w' :: words)).
    rewrite str_split_ws_go_visible by done. simpl.
    destruct w; [done|]. simpl in IH. by rewrite IH.
Qed.

Lemma visible_join words :
  Forall (λ w, w ≠ [] ∧ Forall (λ c, isspace c = false) w) words →
  visible (str_join (py " ") words) = concat words.
Proof.
  induction 1 as [|w words [Hne Hw] Hwords IH]; [done|].
  assert (visible w = w) as Hvis.
  { unfold visible. clear -Hw. induction Hw as [|c w Hc _ IH]; [done|].
    cbv beta in Hc. rewrite filter_cons, decide_True by done. by rewrite IH. }
  destruct words as [|w' words].
  - simpl. by rewrite app_nil_r.
  - change (str_join (py " ") (w :: w' :: words))
      with (w ++ 32%N :: str_join (py " ") (w' :: words)).
    unfold visible in *. rewrite filter_app, Hvis, filter_cons, decide_False by done.
    by rewrite IH.
Qed.

(** A text without a space that occurs in the joined words occurs in one
    of them. *)
Lemma str_startswith_space sub w r :
  (32%N ∉ sub) → str_startswith sub (w ++ 32%N :: r) = str_startswith sub w.
Proof.
  revert w. induction sub as [|a sub IH]; intros w Hsub; [done|].
  apply not_elem_of_cons in Hsub as [Ha Hsub].
  destruct w as [|c w]; simpl.
  - by rewrite (proj2 (N.eqb_neq a 32)) by congruence.
  - by rewrite IH.
Qed.

Lemma str_contains_space sub w r :
  sub ≠ [] → (32%N ∉ sub) →
  str_contains sub (w ++ 32%N :: r) = str_contains sub w || str_contains sub r.
Proof.
  intros Hne Hsub. induction w as [|c w IH].
  - pose proof (str_startswith_space sub [] r Hsub) as Hstart.
    change ([] ++ 32%N :: r) with (32%N :: r) in Hstart |- *.
    cbn [str_contains]. rewrite Hstart.
    destruct sub; [done|]. done.
  - change ((c :: w) ++ 32%N :: r) with (c :: (w ++ 32%N :: r)).
    cbn [str_contains]. rewrite IH.
    change (c :: (w ++ 32%N :: r)) with ((c :: w) ++ 32%N :: r).
    rewrite str_startswith_space by done. by rewrite orb_assoc.
Qed.

Lemma str_contains_join sub words :
  sub ≠ [] → (32%N ∉ sub) →
  str_contains sub (str_join (py " ") words) = true →
  ∃ w, w ∈ words ∧ str_contains sub w = true.
Proof.
  intros Hne Hsub. induction words as [|w words IH]; intros Hin.
  - simpl in Hin. rewrite orb_false_r in Hin. by destruct sub.
  - destruct words as [|w' words].
    + exists w. split; [by left | done].
    + change (str_join (py " ") (w :: w' :: words))
        with (w ++ 32%N :: str_join (py " ") (w' :: words)) in Hin.
      rewrite str_contains_space in Hin by done.
      apply orb_true_iff in Hin as [Hin|Hin].
      * exists w. split; [by left | done].
      * destruct (IH Hin) as (w0 & Hw0 & Hc). exists w0. split; [by right | done].
Qed.

Lemma str_contains_within sub w before after :
  str_contains sub w = true → str_contains sub (before ++ w ++ after) = true.
Proof.
  intros (b & a & ->)%str_contains_spec. apply str_contains_spec.
  exists (before ++ b), (a ++ after). by rewrite <- !app_assoc.
Qed.

Lemma str_contains_normalised sub s :
  sub ≠ [] → (32%N ∉ sub) →
  str_contains sub s = false →
  str_contains sub (str_join (py " ") (str_split_ws s)) = false.
Proof.
  intros Hne Hsub Hs.
  destruct (str_contains sub (str_join (py " ") (str_split_ws s))) eqn:E; [|done].
  apply str_contains_join in E as (w & Hw & Hc); [|done..].
  apply str_split_ws_go_within in Hw as (before & after & Heq). simpl in Heq.
  rewrite Heq, str_contains_within in Hs by done. done.
Qed.

(** ** _clean_commit_message *)

Lemma marker_no_space : 32%N ∉ py "git-svn-id".
Proof. intros H. by repeat (apply elem_of_cons in H as [H|H]; [done|]); apply elem_of_nil in H. Qed.

Lemma str_join_head w words :
  w ≠ [] → ∃ c tail, str_join (py " ") (w :: words) = c :: tail ∧ head w = Some c.
Proof.
  intros Hw. destruct w as [|c w]; [done|]. destruct words as [|w' words].
  - by exists c, w.
  - by exists c, (w ++ py " " ++ str_join (py " ") (w' :: words)).
Qed.

Lemma str_join_spaces words :
  Forall (λ w, w ≠ [] ∧ Forall (λ c, isspace c = false) w) words →
  ∀ before c after,
    str_join (py " ") words = before ++ c :: after → isspace c = true →
    c = 32%N
    ∧ (∃ b x, before = b ++ [x] ∧ isspace x = false)
    ∧ (∃ y a, after = y :: a ∧ isspace y = false).
Proof.
  induction 1 as [|w words [Hne Hw] Hwords IH]; intros before c after Heq Hc.
  - by destruct before.
  - assert (c ∉ w) as Hcw.
    { intros Hin. rewrite Forall_forall in Hw. specialize (Hw _ Hin). congruence. }
    assert (∃ b x, w = b ++ [x] ∧ isspace x = false) as Hlast.
    { clear -Hne Hw. induction w as [|x w _] using rev_ind; [done|].
      exists w, x. split; [done|].
      apply Forall_app in Hw as [_ Hx]. by apply Forall_cons_1 in Hx as [? _]. }
    destruct words as [|w' words].
    + simpl in Heq. destruct Hcw. rewrite Heq. apply elem_of_app. right. by left.
    + change (str_join (py " ") (w :: w' :: words))
        with (w ++ 32%N :: str_join (py " ") (w' :: words)) in Heq.
      assert (∃ y a, str_join (py " ") (w' :: words) = y :: a ∧ isspace y = false)
        as Hnext.
      { apply Forall_cons_1 in Hwords as [[Hne' Hw'] _].
        destruct (str_join_head w' words Hne') as (y & a & Hj & Hy).
        exists y, a. split; [done|]. destruct w' as [|y' w']; [done|].
        simpl in Hy. simplify_eq. by apply Forall_cons_1 in Hw' as [? _]. }
      set (J := str_join (py " ") (w' :: words)) in *. clearbody J.
      apply app_eq_app in Heq as [l [[Hl1 Hl2]|[Hl1 Hl2]]].
      * destruct l as [|c' l].
        -- rewrite app_nil_r in Hl1. simpl in Hl2. injection Hl2 as <- <-.
           subst w. by repeat split.
        -- simpl in Hl2. injection Hl2 as <- Hl2. destruct Hcw. rewrite Hl1.
           apply elem_of_app. right. by left.
      * destruct l as [|c' l].
        -- rewrite app_nil_r in Hl1. simpl in Hl2. injection Hl2 as <- <-.
           subst before. by repeat split.
        -- simpl in Hl2. injection Hl2 as <- Hl2.
           destruct (IH l c after Hl2 Hc) as (-> & (b & x & -> & Hx) & Hafter).
           split; [done|]. split; [|done].
           exists (w ++ 32%N :: b), x. split; [|done]. subst before.
           by rewrite <- app_assoc.
Qed.

(** X16, [_clean_commit_message]: a message with the marker of [git svn]
    is cut at the first occurrence of the marker: the message is the
    result, then the marker, then a rest, and no occurrence of the marker
    starts inside the result.  The result is the text as it was. *)
Theorem clean_commit_message_cuts_at_marker msg :
  str_contains (py "git-svn-id") msg = true →
  ∃ rest, msg = _clean_commit_message msg ++ (py "git-svn-id") ++ rest
          ∧ none_before (py "git-svn-id") msg (length (_clean_commit_message msg)).
Proof.
  intros Hin. unfold _clean_commit_message. rewrite Hin.
  destruct (str_split_first (py "git-svn-id") msg) as (before & rest & Heq & Hfirst & ->);
    [done | done |].
  by exists rest.
Qed.

Lemma clean_commit_message_cuts_at_marker_witness :
  str_contains (py "git-svn-id") Scenario.svn_message = true
  ∧ ∃ rest, Scenario.svn_message
            = _clean_commit_message Scenario.svn_message ++ (py "git-svn-id") ++ rest
            ∧ none_before (py "git-svn-id") Scenario.svn_message
                (length (_clean_commit_message Scenario.svn_message)).
Proof.
  assert (str_contains (py "git-svn-id") Scenario.svn_message = true) as H by reflexivity.
  split; [exact H|]. exact (clean_commit_message_cuts_at_marker _ H).
Defined.

(** The text before the (py "git-svn-id") keeps its white space: its runs of spaces
    and its line ends. *)
Example clean_commit_message_svn :
  _clean_commit_message Scenario.svn_message = py "TIKA-1:  fix NPE" ++ [10%N; 10%N].
Proof. reflexivity. Qed.

(** X17, [_clean_commit_message]: a message without the marker keeps its
    characters that are not white space, in their order. *)
Theorem clean_commit_message_keeps_visible msg :
  str_contains (py "git-svn-id") msg = false →
  visible (_clean_commit_message msg) = visible msg.
Proof.
  intros Hin. unfold _clean_commit_message. rewrite Hin.
  destruct (str_split_ws_go_spec msg [] (Forall_nil_2 _)) as [Hwords Hconcat].
  by rewrite visible_join.
Qed.

Lemma clean_commit_message_keeps_visible_witness :
  str_contains (py "git-svn-id") Scenario.git_message = false
  ∧ visible (_clean_commit_message Scenario.git_message) = visible Scenario.git_message.
Proof.
  assert (str_contains (py "git-svn-id") Scenario.git_message = false) as H by reflexivity.
  split; [exact H|]. exact (clean_commit_message_keeps_visible _ H).
Defined.

(** X18, [_clean_commit_message]: in the result for a message without the
    marker every white-space character is a space (U+0020) that stands
    between two characters that are not white space: no line end or tab
    is left, no space at either end and no two spaces in a row. *)
Theorem clean_commit_message_single_spaces msg before c after :
  str_contains (py "git-svn-id") msg = false →
  _clean_commit_message msg = before ++ c :: after →
  isspace c = true →
  c = 32%N
  ∧ (∃ b x, before = b ++ [x] ∧ isspace x = false)
  ∧ (∃ y a, after = y :: a ∧ isspace y = false).
Proof.
  intros Hin. unfold _clean_commit_message. rewrite Hin.
  apply str_join_spaces.
  by destruct (str_split_ws_go_spec msg [] (Forall_nil_2 _)) as [Hwords _].
Qed.

Lemma clean_commit_message_single_spaces_witness :
  str_contains (py "git-svn-id") Scenario.git_message = false
  ∧ _clean_commit_message Scenario.git_message
    = py "TIKA-2: fix the" ++ 32%N :: py "parser See TIKA-1."
  ∧ isspace 32 = true
  ∧ 32%N = 32%N
  ∧ (∃ b x, py "TIKA-2: fix the" = b ++ [x] ∧ isspace x = false)
  ∧ (∃ y a, py "parser See TIKA-1." = y :: a ∧ isspace y = false).
Proof.
  assert (str_contains (py "git-svn-id") Scenario.git_message = false) as H1 by reflexivity.
  assert (_clean_commit_message Scenario.git_message
          = py "TIKA-2: fix the" ++ 32%N :: py "parser See TIKA-1.") as H2 by reflexivity.
  assert (isspace 32 = true) as H3 by reflexivity.
  split; [exact H1|]. split; [exact H2|]. split; [exact H3|].
  exact (clean_commit_message_single_spaces _ _ _ _ H1 H2 H3).
Defined.

(** X19, [_clean_commit_message]: cleaning the result for a message
    without the marker again changes nothing. *)
Theorem clean_commit_message_idempotent msg :
  str_contains (py "git-svn-id") msg = false →
  _clean_commit_message (_clean_commit_message msg) = _clean_commit_message msg.
Proof.
  intros Hin. unfold _clean_commit_message at 2 3. rewrite Hin.
  unfold _clean_commit_message.
  rewrite str_contains_normalised by (done || apply marker_no_space).
  destruct (str_split_ws_go_spec msg [] (Forall_nil_2 _)) as [Hwords _].
  by rewrite str_split_ws_join.
Qed.

Lemma clean_commit_message_idempotent_witness :
  str_contains (py "git-svn-id") Scenario.git_message = false
  ∧ _clean_commit_message (_clean_commit_message Scenario.git_message)
    = _clean_commit_message Scenario.git_message.
Proof.
  assert (str_contains (py "git-svn-id") Scenario.git_message = false) as H by reflexivity.
  split; [exact H|]. exact (clean_commit_message_idempotent _ H).
Defined.

(** With the (py "git-svn-id") it does: what is cut off is not normalised, and the
    second call normalises it. *)
Example clean_commit_message_twice :
  _clean_commit_message (_clean_commit_message Scenario.svn_message) = py "TIKA-1: fix NPE".
Proof. reflexivity. Qed.

(** ** fix_renamed_files *)

Lemma in_class_cases c :
  in_class c = true →
  (c = 46 ∨ 97 ≤ c ≤ 122 ∨ 65 ≤ c ≤ 90 ∨ c = 95 ∨ c = 47 ∨ c = 45 ∨ 48 ≤ c ≤ 57)%N.
Proof.
  unfold in_class. rewrite !orb_true_iff, !andb_true_iff, !N.eqb_eq, !N.leb_le. tauto.
Qed.

Lemma in_class_visible c : in_class c = true → isspace c = false.
Proof.
  intros Hc%in_class_cases. apply not_true_iff_false. unfold isspace.
  rewrite !orb_true_iff, !andb_true_iff, !N.eqb_eq, !N.leb_le. lia.
Qed.

Lemma in_class_not_elem c s :
  in_class c = false → forallb in_class s = true → c ∉ s.
Proof.
  intros Hc Hs Hin. rewrite forallb_forall in Hs.
  apply list_elem_of_In in Hin. rewrite (Hs _ Hin) in Hc. done.
Qed.

Lemma forallb_in_class_visible s :
  forallb in_class s = true → Forall (λ c, isspace c = false) s.
Proof.
  rewrite forallb_forall, Forall_forall. intros Hs c Hc.
  apply in_class_visible, Hs. by apply list_elem_of_In.
Qed.

Lemma skip_class_run w x r :
  forallb in_class w = true → in_class x = false → skip_class (w ++ x :: r) = x :: r.
Proof.
  intros Hw Hx. induction w as [|c w IH]; simpl.
  - by rewrite Hx.
  - simpl in Hw. apply andb_true_iff in Hw as [Hc Hw]. rewrite Hc. by apply IH.
Qed.

Lemma match_rename_brace src dst post :
  forallb in_class src = true → forallb in_class dst = true →
  match_rename (py "{" ++ src ++ py " => " ++ dst ++ py "}" ++ post) = Some post.
Proof.
  intros Hsrc Hdst.
  change (py "{" ++ src ++ py " => " ++ dst ++ py "}" ++ post)
    with (123%N :: (src ++ 32%N :: (61%N :: 62%N :: 32%N :: (dst ++ 125%N :: post)))).
  cbn [match_rename]. rewrite N.eqb_refl.
  rewrite skip_class_run by done.
  change (str_startswith (py " => ") (32%N :: 61%N :: 62%N :: 32%N :: (dst ++ 125%N :: post)))
    with true.
  change (drop 4 (32%N :: 61%N :: 62%N :: 32%N :: (dst ++ 125%N :: post)))
    with (dst ++ 125%N :: post).
  rewrite skip_class_run by done. by rewrite N.eqb_refl.
Qed.

Lemma match_rename_head c s : c ≠ 123%N → match_rename (c :: s) = None.
Proof. intros Hc. cbn [match_rename]. by rewrite (proj2 (N.eqb_neq c 123)). Qed.

Lemma re_search_no_brace s : (123%N ∉ s) → re_search s = false.
Proof.
  induction s as [|c s IH]; intros Hs; [done|].
  apply not_elem_of_cons in Hs as [Hc Hs]. cbn [re_search].
  rewrite match_rename_head by done. by apply IH.
Qed.

Lemma re_sub_go_skip expand : ∀ s k,
  (k ≤ length s)%nat → re_sub_go expand k s = re_sub_go expand O (drop k s).
Proof.
  induction s as [|c s IH]; intros k Hk.
  - destruct k; [done | simpl in Hk; lia].
  - destruct k as [|k]; [done|]. simpl. apply IH. simpl in Hk. lia.
Qed.

(** Without a match nothing is replaced. *)
Lemma re_sub_go_no_match expand s : re_search s = false → re_sub_go expand O s = s.
Proof.
  induction s as [|c s IH]; intros Hs; [done|].
  cbn [re_search] in Hs. cbn [re_sub_go].
  destruct (match_rename (c :: s)); [done|]. by rewrite IH.
Qed.

Lemma re_sub_go_before expand pre s :
  (123%N ∉ pre) → re_sub_go expand O (pre ++ s) = pre ++ re_sub_go expand O s.
Proof.
  induction pre as [|c pre IH]; intros Hpre; [done|].
  apply not_elem_of_cons in Hpre as [Hc Hpre].
  change ((c :: pre) ++ s) with (c :: (pre ++ s)). cbn [re_sub_go].
  rewrite match_rename_head by done. by rewrite IH.
Qed.

Lemma re_sub_go_brace template pre src dst post :
  (123%N ∉ pre) → (123%N ∉ post) →
  forallb in_class src = true → forallb in_class dst = true →
  re_sub_go (fun _ => template) O
    (pre ++ py "{" ++ src ++ py " => " ++ dst ++ py "}" ++ post)
  = pre ++ template ++ post.
Proof.
  intros Hpre Hpost Hsrc Hdst. rewrite re_sub_go_before by done. f_equal.
  pose proof (match_rename_brace src dst post Hsrc Hdst) as Hm.
  set (body := src ++ py " => " ++ dst ++ py "}").
  assert (py "{" ++ src ++ py " => " ++ dst ++ py "}" ++ post
          = 123%N :: (body ++ post)) as Heq.
  { unfold body. by rewrite <- !app_assoc. }
  rewrite Heq in Hm |- *. cbn [re_sub_go]. rewrite Hm. f_equal.
  rewrite re_sub_go_skip.
  - replace (length (take (length (123%N :: (body ++ post)) - length post)
                       (123%N :: (body ++ post))) - 1)%nat with (length body).
    + rewrite drop_app_length. apply re_sub_go_no_match. by apply re_search_no_brace.
    + rewrite length_take. simpl. rewrite length_app. lia.
  - rewrite length_take. simpl. rewrite length_app. lia.
Qed.

Lemma fix_renamed_files_single parse_template file :
  fix_renamed_files parse_template [file]
  = match fix_renamed_file parse_template file with
    | inl e => inl e
    | inr new => inr new
    end.
Proof. simpl. destruct (fix_renamed_file parse_template file); [done|]. by rewrite app_nil_r. Qed.

Lemma fix_renamed_file_nonempty parse_template file :
  fix_renamed_file parse_template file ≠ inr [].
Proof.
  unfold fix_renamed_file.
  destruct (str_contains (py "=>") file); [|done].
  destruct (str_contains (py "}") file).
  - repeat case_match; done.
  - unfold str_split. pose proof (str_split_go_nonempty (py "=>") file O []).
    destruct (str_split_go (py "=>") O [] file); done.
Qed.

(** The pieces of a brace rename. *)
Lemma str_split_brace pre body post :
  (123%N ∉ pre) → (123%N ∉ body) → (123%N ∉ post) → (125%N ∉ body) →
  ∃ pieces pieces',
    str_split (py "{") (pre ++ py "{" ++ body ++ py "}" ++ post)
    = pre :: (body ++ py "}" ++ post) :: pieces
    ∧ str_split (py "}") (body ++ py "}" ++ post) = body :: pieces'.
Proof.
  intros Hpre Hbody Hpost Hclose.
  exists [], (str_split (py "}") post). split.
  - change (py "{") with [123%N]. rewrite str_split_first_head by done.
    rewrite str_split_none; [done | done |]. apply str_contains_single.
    rewrite !not_elem_of_app. split; [done|]. split; [|done].
    change (py "}") with [125%N]. apply not_elem_of_cons.
    split; [done | apply not_elem_of_nil].
  - change (py "}") with [125%N]. by rewrite str_split_first_head.
Qed.

Lemma str_split_arrow a rest :
  str_contains (py "=>") a = false →
  str_split (py "=>") (a ++ py "=>" ++ rest) = a :: str_split (py "=>") rest.
Proof.
  intros Ha. unfold str_split at 1. rewrite str_split_go_first; [done | done |].
  clear -Ha. induction a as [|c a IH]; intros k Hk; [simpl in Hk; lia|].
  cbn [str_contains] in Ha. apply orb_false_iff in Ha as [Hstart Ha].
  destruct k as [|k].
  - destruct a as [|c' a]; [|exact Hstart].
    change (str_startswith (py "=>") (drop 0 ([c] ++ py "=>" ++ rest)))
      with ((61 =? c)%N && false). apply andb_false_r.
  - apply IH; [done|]. simpl in Hk. lia.
Qed.

Lemma not_contains_elem c s : str_contains [c] s = false → c ∉ s.
Proof. apply str_contains_single. Qed.

Lemma literal_re_literal : literal_templates Scenario.literal_re.
Proof.
  intros template Htemplate. unfold Scenario.literal_re.
  by rewrite bool_decide_eq_false_2.
Qed.

(** X20, [fix_renamed_files]: the names without [=>] come back as they
    are, in their order. *)
Theorem fix_renamed_files_no_arrow parse_template files :
  forallb (fun file => negb (str_contains (py "=>") file)) files = true →
  fix_renamed_files parse_template files = inr files.
Proof.
  induction files as [|file files IH]; intros Hfiles; [done|].
  simpl in Hfiles. apply andb_true_iff in Hfiles as [Hfile Hfiles].
  apply negb_true_iff in Hfile. cbn [fix_renamed_files]. unfold fix_renamed_file.
  by rewrite Hfile, IH.
Qed.

Lemma fix_renamed_files_no_arrow_witness :
  fix_renamed_files Scenario.literal_re [py "pom.xml"; py "src/a b/{X}.java"]
  = inr [py "pom.xml"; py "src/a b/{X}.java"].
Proof.
  exact (fix_renamed_files_no_arrow Scenario.literal_re
           [py "pom.xml"; py "src/a b/{X}.java"] eq_refl).
Defined.

Lemma fix_renamed_files_brace_eq parse_template pre src dst post :
  literal_templates parse_template →
  str_contains (py "{") pre = false → str_contains (py "{") post = false →
  forallb in_class src = true → forallb in_class dst = true →
  fix_renamed_files parse_template
    [pre ++ py "{" ++ src ++ py " => " ++ dst ++ py "}" ++ post]
  = inr [pre ++ src ++ post; pre ++ dst ++ post].
Proof.
  intros Hre Hpre%not_contains_elem Hpost%not_contains_elem Hsrc Hdst.
  rewrite fix_renamed_files_single. unfold fix_renamed_file.
  set (file := pre ++ py "{" ++ src ++ py " => " ++ dst ++ py "}" ++ post).
  assert (file = (pre ++ py "{" ++ src ++ py " ") ++ py "=>" ++ py " " ++ dst ++ py "}" ++ post)
    as Harrow by (unfold file; by rewrite <- !app_assoc).
  assert (file = (pre ++ py "{" ++ src ++ py " => " ++ dst) ++ py "}" ++ post)
    as Hclose by (unfold file; by rewrite <- !app_assoc).
  assert (file = pre ++ py "{" ++ (src ++ py " => " ++ dst) ++ py "}" ++ post)
    as Hbody by (unfold file; by rewrite <- !app_assoc).
  rewrite Harrow at 1. rewrite str_contains_app.
  rewrite Hclose at 1. rewrite str_contains_app.
  assert (∀ c, in_class c = false → c ≠ 32%N → c ≠ 61%N → c ≠ 62%N →
               c ∉ src ++ py " => " ++ dst) as Hout.
  { intros c Hc H32 H61 H62. rewrite !not_elem_of_app.
    split; [by apply in_class_not_elem|]. split; [|by apply in_class_not_elem].
    change (py " => ") with [32%N; 61%N; 62%N; 32%N].
    rewrite !not_elem_of_cons. repeat split; try done. apply not_elem_of_nil. }
  destruct (str_split_brace pre (src ++ py " => " ++ dst) post)
    as (pieces & pieces' & Hsplit1 & Hsplit2);
    [done | by apply Hout | done | by apply Hout |].
  rewrite Hbody at 1. rewrite Hsplit1, Hsplit2.
  assert (src ++ py " => " ++ dst = (src ++ py " ") ++ py "=>" ++ py " " ++ dst) as ->
    by by rewrite <- !app_assoc.
  assert (61%N ∉ src ++ py " ") as Hsrc61.
  { rewrite not_elem_of_app. split; [by apply in_class_not_elem|].
    change (py " ") with [32%N]. rewrite not_elem_of_cons. split; [done|].
    apply not_elem_of_nil. }
  assert (61%N ∉ py " " ++ dst) as Hdst61.
  { rewrite not_elem_of_app. split; [|by apply in_class_not_elem].
    change (py " ") with [32%N]. rewrite not_elem_of_cons. split; [done|].
    apply not_elem_of_nil. }
  change (py "=>") with [61%N; 62%N]. rewrite str_split_first_head by done.
  rewrite str_split_none; [|done|by apply str_contains_head].
  assert (str_strip (src ++ py " ") = src) as ->.
  { apply (str_strip_padded [] (py " ") src);
      [done | by repeat constructor | by apply forallb_in_class_visible]. }
  assert (str_strip (py " " ++ dst) = dst) as ->.
  { pose proof (str_strip_padded (py " ") [] dst) as Hstrip.
    rewrite app_nil_r in Hstrip.
    apply Hstrip; [by repeat constructor | done | by apply forallb_in_class_visible]. }
  unfold re_sub. rewrite !Hre by by apply in_class_not_elem.
  fold file. unfold file. by rewrite !re_sub_go_brace.
Qed.

(** X21, [fix_renamed_files]: the rename [pre{src => dst}post] of a
    directory gives the old path [pre src post] and then the new path
    [pre dst post], when [src] and [dst] are written with the characters
    of the pattern, there is no other opening brace, and [re] takes a
    template without a backslash as it is. *)
Theorem fix_renamed_files_brace parse_template pre src dst post :
  literal_templates parse_template →
  str_contains (py "{") pre = false → str_contains (py "{") post = false →
  forallb in_class src = true → forallb in_class dst = true →
  fix_renamed_files parse_template
    [pre ++ py "{" ++ src ++ py " => " ++ dst ++ py "}" ++ post]
  = inr [pre ++ src ++ post; pre ++ dst ++ post].
Proof. apply fix_renamed_files_brace_eq. Qed.

Lemma fix_renamed_files_brace_witness :
  fix_renamed_files Scenario.literal_re [Scenario.moved_file]
  = inr [py "tika-core/src/test/resources/org/apache/tika/fork/embedded_with_npe.xml";
         py "tika-core/src/test/resources/test-documents/embedded_with_npe.xml"].
Proof.
  exact (fix_renamed_files_brace Scenario.literal_re
           (py "tika-core/src/test/resources/") (py "org/apache/tika/fork")
           (py "test-documents") (py "/embedded_with_npe.xml")
           literal_re_literal eq_refl eq_refl eq_refl eq_refl).
Defined.

Lemma fix_renamed_files_raises parse_template file e : ∀ files,
  file ∈ files → fix_renamed_file parse_template file = inl e →
  ∃ e', fix_renamed_files parse_template files = inl e'.
Proof.
  induction files as [|file' files IH]; intros Hin Hfile.
  - by apply elem_of_nil in Hin.
  - cbn [fix_renamed_files].
    destruct (fix_renamed_file parse_template file') as [e'|new] eqn:E; [by exists e'|].
    apply elem_of_cons in Hin as [->|Hin]; [congruence|].
    destruct (IH Hin Hfile) as [e' ->]. by exists e'.
Qed.

(** X22, [fix_renamed_files]: a name with [=>] and a closing brace but no
    opening brace raises [IndexError]: the test ["{" and "}" in file]
    looks for the closing brace only.  With such a name among the files
    the call returns no list. *)
Theorem fix_renamed_files_unopened_brace parse_template file :
  str_contains (py "=>") file = true →
  str_contains (py "}") file = true →
  str_contains (py "{") file = false →
  fix_renamed_files parse_template [file] = inl IndexError
  ∧ ∀ files, file ∈ files → ∃ e, fix_renamed_files parse_template files = inl e.
Proof.
  intros Harrow Hclose Hopen.
  assert (fix_renamed_file parse_template file = inl IndexError) as Hfile.
  { unfold fix_renamed_file. rewrite Harrow, Hclose.
    by rewrite str_split_none. }
  split.
  - by rewrite fix_renamed_files_single, Hfile.
  - intros files Hin. by eapply fix_renamed_files_raises.
Qed.

Lemma fix_renamed_files_unopened_brace_witness :
  fix_renamed_files Scenario.literal_re [Scenario.odd_file] = inl IndexError
  ∧ ∀ files, Scenario.odd_file ∈ files →
             ∃ e, fix_renamed_files Scenario.literal_re files = inl e.
Proof.
  exact (fix_renamed_files_unopened_brace Scenario.literal_re Scenario.odd_file
           eq_refl eq_refl eq_refl).
Defined.

(** X23, [fix_renamed_files]: the rename [a=>b] of a whole path, without a
    closing brace, gives the old path and then the new path, both without
    the white space around them. *)
Theorem fix_renamed_files_plain parse_template a b :
  str_contains (py "=>") a = false → str_contains (py "=>") b = false →
  str_contains (py "}") a = false → str_contains (py "}") b = false →
  fix_renamed_files parse_template [a ++ py "=>" ++ b] = inr [str_strip a; str_strip b].
Proof.
  intros Ha Hb Hca%not_contains_elem Hcb%not_contains_elem.
  rewrite fix_renamed_files_single. unfold fix_renamed_file.
  rewrite str_contains_app.
  assert (str_contains (py "}") (a ++ py "=>" ++ b) = false) as ->.
  { apply str_contains_single. rewrite !not_elem_of_app. split; [done|]. split; [|done].
    change (py "=>") with [61%N; 62%N]. rewrite !not_elem_of_cons.
    repeat split; try done. apply not_elem_of_nil. }
  by rewrite str_split_arrow, str_split_none.
Qed.

Lemma fix_renamed_files_plain_witness :
  fix_renamed_files Scenario.literal_re [Scenario.renamed_file]
  = inr [py "src/Old.java"; py "src/New.java"].
Proof.
  exact (fix_renamed_files_plain Scenario.literal_re (py "src/Old.java ") (py " src/New.java")
           eq_refl eq_refl eq_refl eq_refl).
Defined.

(** X24, [fix_renamed_files]: when the pattern of the substitution finds
    nothing in a name with [=>] and a closing brace, a call that returns
    gives the name twice, as it was. *)
Theorem fix_renamed_files_no_match parse_template file out :
  str_contains (py "=>") file = true →
  str_contains (py "}") file = true →
  re_search file = false →
  fix_renamed_files parse_template [file] = inr out →
  out = [file; file].
Proof.
  intros Harrow Hclose Hsearch. rewrite fix_renamed_files_single.
  unfold fix_renamed_file, re_sub. rewrite Harrow, Hclose.
  repeat case_match; try done.
  rewrite !re_sub_go_no_match in * by done. congruence.
Qed.

Lemma fix_renamed_files_no_match_witness :
  fix_renamed_files Scenario.literal_re [Scenario.moved_file_space]
  = inr [Scenario.moved_file_space; Scenario.moved_file_space]
  ∧ [Scenario.moved_file_space; Scenario.moved_file_space]
    = [Scenario.moved_file_space; Scenario.moved_file_space].
Proof.
  assert (fix_renamed_files Scenario.literal_re [Scenario.moved_file_space]
          = inr [Scenario.moved_file_space; Scenario.moved_file_space]) as H by reflexivity.
  split; [exact H|].
  exact (fix_renamed_files_no_match Scenario.literal_re Scenario.moved_file_space _
           eq_refl eq_refl eq_refl H).
Defined.

(** X25, [fix_renamed_files]: a call that returns gives at least one name
    for each file. *)
Theorem fix_renamed_files_no_fewer parse_template : ∀ files out,
  fix_renamed_files parse_template files = inr out →
  (length files ≤ length out)%nat.
Proof.
  induction files as [|file files IH]; intros out Hout.
  - simpl. lia.
  - cbn [fix_renamed_files] in Hout.
    pose proof (fix_renamed_file_nonempty parse_template file) as Hne.
    destruct (fix_renamed_file parse_template file) as [e|new]; [done|].
    destruct (fix_renamed_files parse_template files) as [e|new_files]; [done|].
    injection Hout as <-. specialize (IH _ eq_refl).
    rewrite length_app. destruct new; [done|]. simpl. lia.
Qed.

Lemma fix_renamed_files_no_fewer_witness :
  fix_renamed_files Scenario.literal_re
    [py "pom.xml"; Scenario.moved_file; py "a => b => c"]
  = inr [py "pom.xml";
         py "tika-core/src/test/resources/org/apache/tika/fork/embedded_with_npe.xml";
         py "tika-core/src/test/resources/test-documents/embedded_with_npe.xml";
         py "a"; py "b"; py "c"]
  ∧ (3 ≤ 6)%nat.
Proof.
  assert (fix_renamed_files Scenario.literal_re
            [py "pom.xml"; Scenario.moved_file; py "a => b => c"]
          = inr [py "pom.xml";
                 py "tika-core/src/test/resources/org/apache/tika/fork/embedded_with_npe.xml";
                 py "tika-core/src/test/resources/test-documents/embedded_with_npe.xml";
                 py "a"; py "b"; py "c"]) as H by reflexivity.
  split; [exact H|].
  exact (fix_renamed_files_no_fewer Scenario.literal_re _ _ H).
Defined.

(** X26, [fix_renamed_files]: braces that hold no [=>], in a name that has
    one elsewhere, raise [ValueError]: the text between the braces does
    not split into a source and a destination. *)
Theorem fix_renamed_files_arrow_outside parse_template pre body post :
  str_contains (py "{") pre = false → str_contains (py "{") body = false →
  str_contains (py "{") post = false →
  str_contains (py "}") body = false → str_contains (py "=>") body = false →
  str_contains (py "=>") (pre ++ py "{" ++ body ++ py "}" ++ post) = true →
  fix_renamed_files parse_template [pre ++ py "{" ++ body ++ py "}" ++ post]
  = inl ValueError.
Proof.
  intros Hpre%not_contains_elem Hbody%not_contains_elem Hpost%not_contains_elem
         Hclose%not_contains_elem Harrow Hfile.
  rewrite fix_renamed_files_single. unfold fix_renamed_file. rewrite Hfile.
  assert (pre ++ py "{" ++ body ++ py "}" ++ post
          = (pre ++ py "{" ++ body) ++ py "}" ++ post) as Heq by by rewrite <- !app_assoc.
  rewrite Heq at 1. rewrite str_contains_app.
  destruct (str_split_brace pre body post) as (pieces & pieces' & -> & ->); [done..|].
  by rewrite str_split_none.
Qed.

Lemma fix_renamed_files_arrow_outside_witness :
  fix_renamed_files Scenario.literal_re [Scenario.braces_file] = inl ValueError.
Proof.
  exact (fix_renamed_files_arrow_outside Scenario.literal_re [] (py "a") (py "/b => c")
           eq_refl eq_refl eq_refl eq_refl eq_refl eq_refl).
Defined.

(** ** Text at the end *)

Lemma str_startswith_barrier sub t x l :
  (x ∉ sub) → str_startswith sub (t ++ x :: l) = str_startswith sub t.
Proof.
  revert t. induction sub as [|a sub IH]; intros t Hsub; [done|].
  apply not_elem_of_cons in Hsub as [Ha Hsub].
  destruct t as [|c t]; simpl.
  - by rewrite (proj2 (N.eqb_neq a x)) by congruence.
  - by rewrite IH.
Qed.

Lemma str_startswith_outside sub x l :
  sub ≠ [] → (x ∉ sub) → str_startswith sub (x :: l) = false.
Proof.
  intros Hne Hx. pose proof (str_startswith_barrier sub [] x l Hx) as Hb.
  simpl app in Hb. rewrite Hb. by destruct sub.
Qed.

Lemma str_startswith_length sub s :
  str_startswith sub s = true → (length sub ≤ length s)%nat.
Proof. intros [rest ->]%str_startswith_spec. rewrite length_app. lia. Qed.

Lemma extend_last_cons piece pieces t :
  pieces ≠ [] → extend_last (piece :: pieces) t = piece :: extend_last pieces t.
Proof. by destruct pieces. Qed.

Lemma extend_last_nil pieces : extend_last pieces [] = pieces.
Proof.
  induction pieces as [|piece pieces IH]; [done|].
  destruct pieces as [|piece' pieces]; [simpl; by rewrite app_nil_r|].
  rewrite extend_last_cons by done. by rewrite IH.
Qed.

Lemma extend_last_snoc pieces piece t :
  extend_last (pieces ++ [piece]) t = pieces ++ [piece ++ t].
Proof.
  induction pieces as [|piece' pieces IH]; [done|].
  change ((piece' :: pieces) ++ [piece]) with (piece' :: (pieces ++ [piece])).
  rewrite extend_last_cons by by destruct pieces. by rewrite IH.
Qed.

Lemma extend_last_view pieces t :
  (2 ≤ length pieces)%nat →
  head (extend_last pieces t) = head pieces
  ∧ inner_slice (extend_last pieces t) = inner_slice pieces.
Proof.
  intros Hlen. destruct pieces as [|first pieces]; [simpl in Hlen; lia|].
  destruct pieces as [|piece pieces _] using rev_ind; [simpl in Hlen; lia|].
  rewrite extend_last_cons by by destruct pieces.
  rewrite extend_last_snoc. split; [done|]. unfold inner_slice. simpl.
  by rewrite !removelast_last.
Qed.

Lemma str_split_go_barrier sep x l :
  sep ≠ [] → (x ∉ sep) → str_contains sep l = false →
  ∀ s k cur, (k ≤ length s)%nat →
    str_split_go sep k cur (s ++ x :: l) = extend_last (str_split_go sep k cur s) (x :: l).
Proof.
  intros Hsep Hx Hl. induction s as [|c s IH]; intros k cur Hk.
  - assert (k = O) as -> by (simpl in Hk; lia). simpl app.
    rewrite str_split_go_none; [done | done |].
    cbn [str_contains]. rewrite Hl, orb_false_r.
    by apply str_startswith_outside.
  - change ((c :: s) ++ x :: l) with (c :: (s ++ x :: l)).
    destruct k as [|k].
    + cbn [str_split_go].
      change (c :: (s ++ x :: l)) with ((c :: s) ++ x :: l).
      rewrite str_startswith_barrier by done.
      destruct (str_startswith sep (c :: s)) eqn:E.
      * apply str_startswith_length in E. simpl in E.
        rewrite IH by lia. rewrite extend_last_cons; [done|].
        apply str_split_go_nonempty.
      * by rewrite IH by lia.
    + cbn [str_split_go]. apply IH. simpl in Hk. lia.
Qed.

Lemma str_split_barrier sep x l s :
  sep ≠ [] → (x ∉ sep) → str_contains sep l = false →
  str_split sep (s ++ x :: l) = extend_last (str_split sep s) (x :: l).
Proof. intros. unfold str_split. apply str_split_go_barrier; [done..|lia]. Qed.

Lemma str_replace_go_none old new : ∀ s,
  old ≠ [] → str_contains old s = false → str_replace_go old new O s = s.
Proof.
  induction s as [|c s IH]; intros Hold Hs; [done|].
  cbn [str_contains] in Hs. apply orb_false_iff in Hs as [Hstart Hs].
  cbn [str_replace_go]. rewrite Hstart. by rewrite IH.
Qed.

Lemma str_replace_go_barrier old new x l :
  old ≠ [] → (x ∉ old) → str_contains old l = false →
  ∀ s k, (k ≤ length s)%nat →
    str_replace_go old new k (s ++ x :: l) = str_replace_go old new k s ++ x :: l.
Proof.
  intros Hold Hx Hl. induction s as [|c s IH]; intros k Hk.
  - assert (k = O) as -> by (simpl in Hk; lia). simpl app.
    rewrite str_replace_go_none; [done | done |].
    cbn [str_contains]. rewrite Hl, orb_false_r.
    by apply str_startswith_outside.
  - change ((c :: s) ++ x :: l) with (c :: (s ++ x :: l)).
    destruct k as [|k].
    + cbn [str_replace_go].
      change (c :: (s ++ x :: l)) with ((c :: s) ++ x :: l).
      rewrite str_startswith_barrier by done.
      destruct (str_startswith old (c :: s)) eqn:E.
      * apply str_startswith_length in E. simpl in E.
        rewrite IH by lia. by rewrite <- app_assoc.
      * by rewrite IH by lia.
    + cbn [str_replace_go]. apply IH. simpl in Hk. lia.
Qed.

(** The replacement of one character goes through the text piece by
    piece. *)
Lemma str_replace_char_app c new a b :
  str_replace [c] new (a ++ b) = str_replace [c] new a ++ str_replace [c] new b.
Proof.
  unfold str_replace. induction a as [|a0 a IH]; [done|].
  change ((a0 :: a) ++ b) with (a0 :: (a ++ b)). cbn [str_replace_go].
  change (length [c] - 1)%nat with O.
  change (str_startswith [c] (a0 :: (a ++ b))) with ((c =? a0)%N && true).
  change (str_startswith [c] (a0 :: a)) with ((c =? a0)%N && true).
  destruct ((c =? a0)%N && true); rewrite IH; [by rewrite <- app_assoc | done].
Qed.

Lemma str_replace_char_elem c x s : x ∈ str_replace [c] [] s → x ∈ s.
Proof.
  unfold str_replace. induction s as [|a s IH]; [done|].
  cbn [str_replace_go]. change (length [c] - 1)%nat with O.
  destruct (str_startswith [c] (a :: s)).
  - intros Hx. right. by apply IH.
  - intros [->|Hx]%elem_of_cons; [by left | right; by apply IH].
Qed.

Lemma str_replace_char_keeps c x s : x ≠ c → x ∈ s → x ∈ str_replace [c] [] s.
Proof.
  intros Hxc. unfold str_replace. induction s as [|a s IH]; [done|].
  cbn [str_replace_go]. change (length [c] - 1)%nat with O.
  change (str_startswith [c] (a :: s)) with ((c =? a)%N && true).
  rewrite andb_true_r. intros [->|Hx]%elem_of_cons.
  - rewrite (proj2 (N.eqb_neq c a)) by congruence. by left.
  - destruct (c =? a)%N; [by apply IH | right; by apply IH].
Qed.

(** Two line ends become one: none is lost altogether. *)
Lemma str_replace_line_ends s :
  (10%N ∈ s) → 10%N ∈ str_replace [10%N; 10%N] [10%N] s.
Proof.
  unfold str_replace. induction s as [|c s IH]; intros Hs.
  - by apply elem_of_nil in Hs.
  - cbn [str_replace_go]. destruct (str_startswith [10%N; 10%N] (c :: s)).
    + by left.
    + apply elem_of_cons in Hs as [<-|Hs]; [by left | right; by apply IH].
Qed.

Lemma str_split_length sep s :
  sep ≠ [] → str_contains sep s = true → (2 ≤ length (str_split sep s))%nat.
Proof.
  intros Hsep Hs. destruct (str_split_first sep s Hsep Hs) as (before & rest & _ & _ & ->).
  pose proof (str_split_go_nonempty sep rest O []) as Hne. unfold str_split.
  destruct (str_split_go sep O [] rest); [done|]. simpl. lia.
Qed.

(** What the loops read of a block whose text goes on after its last
    line end is what they read of the block up to that line end. *)
Lemma block_lines_last_line d line :
  (10%N ∉ line) →
  head (block_lines (d ++ [10%N] ++ line)) = head (block_lines (d ++ [10%N]))
  ∧ inner_slice (block_lines (d ++ [10%N] ++ line))
    = inner_slice (block_lines (d ++ [10%N])).
Proof.
  intros Hline. unfold block_lines.
  rewrite !str_replace_char_app.
  set (d' := str_replace [34%N] [] d).
  change (str_replace [34%N] [] [10%N]) with [10%N].
  assert (10%N ∉ str_replace [34%N] [] line) as Hline'.
  { intros Hin. by apply Hline, (str_replace_char_elem 34). }
  destruct (str_replace [34%N] [] line) as [|x l]; [by rewrite app_nil_r|].
  apply not_elem_of_cons in Hline' as [Hx Hl].
  assert (str_contains [10%N] l = false) as Hl1 by by apply str_contains_single.
  assert (str_contains [10%N; 10%N] l = false) as Hl2 by by apply str_contains_head.
  rewrite app_assoc. unfold str_replace at 1 3.
  rewrite str_replace_go_barrier; [|done| |done|lia].
  2:{ rewrite !not_elem_of_cons. repeat split; try congruence. apply not_elem_of_nil. }
  fold (str_replace [10%N; 10%N] [10%N] (d' ++ [10%N])).
  rewrite str_split_barrier; [|done| |done].
  2:{ rewrite !not_elem_of_cons. repeat split; try congruence. apply not_elem_of_nil. }
  apply extend_last_view, str_split_length; [done|].
  destruct (str_contains [10%N] (str_replace [10%N; 10%N] [10%N] (d' ++ [10%N]))) eqn:E;
    [done|].
  apply str_contains_single in E. destruct E. apply str_replace_line_ends.
  apply elem_of_app. right. by left.
Qed.

(** ** _get_commits_files and _get_commits_files_status *)

Lemma str_split_last_line sep log line :
  sep ≠ [] → (10%N ∉ sep) → str_contains sep line = false →
  tail (str_split sep (log ++ [10%N] ++ line)) = []
  ∧ tail (str_split sep (log ++ [10%N])) = []
  ∨ ∃ data d,
      tail (str_split sep (log ++ [10%N] ++ line)) = data ++ [d ++ [10%N] ++ line]
      ∧ tail (str_split sep (log ++ [10%N])) = data ++ [d ++ [10%N]].
Proof.
  intros Hsep Hnl Hline.
  change (log ++ [10%N] ++ line) with (log ++ 10%N :: line).
  change (log ++ [10%N]) with (log ++ 10%N :: []).
  rewrite !str_split_barrier by (done || by destruct sep).
  pose proof (str_split_go_nonempty sep log O []) as Hne. fold (str_split sep log) in Hne.
  destruct (str_split sep log) as [|first pieces]; [done|].
  destruct pieces as [|d pieces _] using rev_ind; [by left|].
  right. exists pieces, d.
  rewrite !extend_last_cons by by destruct pieces.
  by rewrite !extend_last_snoc.
Qed.

Lemma numstat_block_view parse_template str_isnumeric int comms d d' :
  head (block_lines d) = head (block_lines d') →
  inner_slice (block_lines d) = inner_slice (block_lines d') →
  numstat_block parse_template str_isnumeric int comms d
  = numstat_block parse_template str_isnumeric int comms d'.
Proof.
  unfold numstat_block. intros Hhead Hslice.
  destruct (block_lines d), (block_lines d'); try done.
  simpl in Hhead. injection Hhead as ->. by rewrite Hslice.
Qed.

Lemma numstat_blocks_snoc parse_template str_isnumeric int d : ∀ data comms,
  numstat_blocks parse_template str_isnumeric int comms (data ++ [d])
  = match numstat_blocks parse_template str_isnumeric int comms data with
    | inl e => inl e
    | inr comms' => numstat_block parse_template str_isnumeric int comms' d
    end.
Proof.
  induction data as [|d0 data IH]; intros comms; simpl.
  - by destruct (numstat_block parse_template str_isnumeric int comms d).
  - destruct (numstat_block parse_template str_isnumeric int comms d0); [done|]. apply IH.
Qed.

Lemma status_block_view ans d d' :
  head (block_lines d) = head (block_lines d') →
  inner_slice (block_lines d) = inner_slice (block_lines d') →
  status_block ans d = status_block ans d'.
Proof.
  unfold status_block. intros Hhead Hslice.
  destruct (block_lines d), (block_lines d'); try done.
  simpl in Hhead. injection Hhead as ->. by rewrite Hslice.
Qed.

Lemma status_blocks_snoc d : ∀ data ans,
  status_blocks ans (data ++ [d])
  = match status_blocks ans data with
    | inl e => inl e
    | inr ans' => status_block ans' d
    end.
Proof.
  induction data as [|d0 data IH]; intros ans; simpl.
  - by destruct (status_block ans d).
  - destruct (status_block ans d0); [done|]. apply IH.
Qed.

Lemma marker_no_newline : 10%N ∉ py "sha: ".
Proof. intros H. by repeat (apply elem_of_cons in H as [H|H]; [done|]); apply elem_of_nil in H. Qed.

(** X27, [_get_commits_files]: what follows the last line end of the log
    is never read as a file: with a last line that no line end closes,
    the result, or the exception, is that of the log without that line. *)
Theorem get_commits_files_last_line parse_template str_isnumeric int log line :
  str_contains [10%N] line = false →
  str_contains (py "sha: ") line = false →
  _get_commits_files parse_template str_isnumeric int (log ++ [10%N] ++ line)
  = _get_commits_files parse_template str_isnumeric int (log ++ [10%N]).
Proof.
  intros Hnl%str_contains_single Hline. unfold _get_commits_files.
  destruct (str_split_last_line (py "sha: ") log line)
    as [[-> ->]|(data & d & -> & ->)]; [done | apply marker_no_newline | done | done |].
  rewrite !numstat_blocks_snoc.
  destruct (numstat_blocks parse_template str_isnumeric int [] data) as [e|comms]; [done|].
  destruct (block_lines_last_line d line Hnl) as [Hhead Hslice].
  by rewrite (numstat_block_view _ _ _ comms _ _ Hhead Hslice).
Qed.

Lemma get_commits_files_last_line_witness :
  str_contains [10%N] Scenario.numstat_last_line = false
  ∧ str_contains (py "sha: ") Scenario.numstat_last_line = false
  ∧ _get_commits_files Scenario.literal_re Scenario.ascii_isnumeric Scenario.ascii_int
      (Scenario.numstat_log ++ [10%N] ++ Scenario.numstat_last_line)
    = _get_commits_files Scenario.literal_re Scenario.ascii_isnumeric Scenario.ascii_int
        (Scenario.numstat_log ++ [10%N]).
Proof.
  split; [reflexivity|]. split; [reflexivity|].
  exact (get_commits_files_last_line Scenario.literal_re Scenario.ascii_isnumeric
           Scenario.ascii_int Scenario.numstat_log Scenario.numstat_last_line
           eq_refl eq_refl).
Defined.

(** The first commit of the scenario changes two files; one is read. *)
Example get_commits_files_first_commit :
  _get_commits_files Scenario.literal_re Scenario.ascii_isnumeric Scenario.ascii_int
    (Scenario.numstat_log ++ [10%N] ++ Scenario.numstat_last_line)
  = inr [(py "4ba9", [CommittedFile.mk (py "4ba9") (py "pom.xml") 1 0 false false]);
         (py "9f92", [CommittedFile.mk (py "9f92") (py "pom.xml") 1 0 false false])].
Proof. vm_compute. reflexivity. Qed.

(** X28, [_get_commits_files_status]: the same holds of the statuses: a
    last line that no line end closes gives no triple. *)
Theorem get_commits_files_status_last_line log line :
  str_contains [10%N] line = false →
  str_contains (py "sha: ") line = false →
  _get_commits_files_status (log ++ [10%N] ++ line)
  = _get_commits_files_status (log ++ [10%N]).
Proof.
  intros Hnl%str_contains_single Hline. unfold _get_commits_files_status.
  destruct (str_split_last_line (py "sha: ") log line)
    as [[-> ->]|(data & d & -> & ->)]; [done | apply marker_no_newline | done | done |].
  rewrite !status_blocks_snoc.
  destruct (status_blocks [] data) as [e|ans]; [done|].
  destruct (block_lines_last_line d line Hnl) as [Hhead Hslice].
  by rewrite (status_block_view ans _ _ Hhead Hslice).
Qed.

Lemma get_commits_files_status_last_line_witness :
  str_contains [10%N] Scenario.status_last_line = false
  ∧ str_contains (py "sha: ") Scenario.status_last_line = false
  ∧ _get_commits_files_status (Scenario.status_log ++ [10%N] ++ Scenario.status_last_line)
    = _get_commits_files_status (Scenario.status_log ++ [10%N]).
Proof.
  split; [reflexivity|]. split; [reflexivity|].
  exact (get_commits_files_status_last_line Scenario.status_log Scenario.status_last_line
           eq_refl eq_refl).
Defined.

(** The renamed file is there under both names; [pom.xml] is no Java
    file, and the last line is not read. *)
Example get_commits_files_status_renamed :
  _get_commits_files_status (Scenario.status_log ++ [10%N] ++ Scenario.status_last_line)
  = inr [(py "4ba9", py "src/old/A.java", py "R");
         (py "4ba9", py "src/new/A.java", py "R")].
Proof. vm_compute. reflexivity. Qed.

(** X29, [CommittedFile]: a file made from the rename [pre{src => dst}post]
    of a directory carries the old path [pre src post]: its name, and
    with it [is_java] and [is_test], say nothing of the new path.  The
    counts are read by [int] when [insertions] is numeric, and are zero
    otherwise. *)
Theorem CommittedFile_rename_old_path parse_template str_isnumeric int
    sha pre src dst post insertions deletions ins del :
  literal_templates parse_template →
  str_contains (py "{") pre = false → str_contains (py "{") post = false →
  forallb in_class src = true → forallb in_class dst = true →
  (str_isnumeric insertions = true →
   int insertions = Some ins ∧ int deletions = Some del) →
  CommittedFile__init__ parse_template str_isnumeric int sha
    (pre ++ py "{" ++ src ++ py " => " ++ dst ++ py "}" ++ post) insertions deletions
  = inr (CommittedFile.mk sha (pre ++ src ++ post)
           (if str_isnumeric insertions then ins else 0)
           (if str_isnumeric insertions then del else 0)
           (str_endswith (py ".java") (pre ++ src ++ post))
           (str_contains (py "test") (pre ++ src ++ post))).
Proof.
  intros Hre Hpre Hpost Hsrc Hdst Hint.
  pose proof (fix_renamed_files_brace_eq parse_template pre src dst post
                Hre Hpre Hpost Hsrc Hdst) as Hfix.
  unfold CommittedFile__init__.
  destruct (fix_renamed_files parse_template _) as [e|names]; [done|].
  injection Hfix as ->. destruct (str_isnumeric insertions); [|done].
  destruct (Hint eq_refl) as [-> ->]. done.
Qed.

Lemma CommittedFile_rename_old_path_witness :
  CommittedFile__init__ Scenario.literal_re Scenario.ascii_isnumeric Scenario.ascii_int
    (py "80ac") (py "src/{main => test}/A.java") (py "0") (py "0")
  = inr (CommittedFile.mk (py "80ac") (py "src/main/A.java") 0 0 true false).
Proof.
  exact (CommittedFile_rename_old_path Scenario.literal_re Scenario.ascii_isnumeric
           Scenario.ascii_int (py "80ac") (py "src/") (py "main") (py "test") (py "/A.java")
           (py "0") (py "0") 0 0 literal_re_literal eq_refl eq_refl eq_refl eq_refl
           (fun _ => conj eq_refl eq_refl)).
Defined.

Lemma dict_set_keys {V} key (value : V) : ∀ d,
  (dict_set key value d).*1 = if bool_decide (key ∈ d.*1) then d.*1 else d.*1 ++ [key].
Proof.
  induction d as [|[k v] d IH]; [done|]. cbn [dict_set].
  destruct (decide (k = key)) as [->|Hne].
  - rewrite bool_decide_eq_true_2 by done. rewrite !fmap_cons. cbn [fst].
    rewrite bool_decide_eq_true_2; [done | by left].
  - rewrite bool_decide_eq_false_2 by done. rewrite !fmap_cons, IH. cbn [fst].
    destruct (decide (key ∈ d.*1)) as [Hin|Hnin].
    + rewrite (bool_decide_eq_true_2 (key ∈ d.*1)) by done.
      rewrite bool_decide_eq_true_2; [done | by right].
    + rewrite (bool_decide_eq_false_2 (key ∈ d.*1)) by done.
      rewrite bool_decide_eq_false_2; [done|].
      intros [?|?]%elem_of_cons; [congruence | done].
Qed.

Lemma dict_set_NoDup {V} key (value : V) d : NoDup d.*1 → NoDup (dict_set key value d).*1.
Proof.
  intros Hd. rewrite dict_set_keys. case_bool_decide as Hin; [done|].
  apply NoDup_app. split; [done|]. split; [|apply NoDup_singleton].
  intros x Hx ->%list_elem_of_singleton. done.
Qed.

Lemma numstat_blocks_NoDup parse_template str_isnumeric int : ∀ data comms out,
  NoDup comms.*1 →
  numstat_blocks parse_template str_isnumeric int comms data = inr out →
  NoDup out.*1.
Proof.
  induction data as [|d data IH]; intros comms out Hcomms Hout.
  - simpl in Hout. by injection Hout as <-.
  - simpl in Hout.
    destruct (numstat_block parse_template str_isnumeric int comms d) as [e|comms'] eqn:E;
      [done|].
    apply (IH comms'); [|done]. unfold numstat_block in E.
    destruct (block_lines d) as [|commit_sha lines]; [done|].
    destruct (numstat_lines _ _ _ _ _) as [e|files]; [done|].
    injection E as <-. by apply dict_set_NoDup.
Qed.

(** X30, [_get_commits_files]: in the result no commit stands twice and no
    commit is without a file. *)
Theorem get_commits_files_entries parse_template str_isnumeric int log out :
  _get_commits_files parse_template str_isnumeric int log = inr out →
  NoDup out.*1 ∧ Forall (fun entry => entry.2 ≠ []) out.
Proof.
  unfold _get_commits_files. intros Hout.
  destruct (numstat_blocks _ _ _ _ _) as [e|comms] eqn:E; [done|].
  injection Hout as <-. split.
  - apply (sublist_NoDup _ comms.*1).
    + eapply numstat_blocks_NoDup; [|exact E]. apply NoDup_nil_2.
    + apply fmap_sublist, sublist_filter.
  - apply Forall_forall. by intros entry [? _]%list_elem_of_filter.
Qed.

Lemma get_commits_files_entries_witness :
  _get_commits_files Scenario.literal_re Scenario.ascii_isnumeric Scenario.ascii_int
    Scenario.commits_log
  = inr [(py "b", [CommittedFile.mk (py "b") (py "g") 3 4 false false])]
  ∧ NoDup [py "b"]
  ∧ Forall (fun entry : pystr * list CommittedFile.t => entry.2 ≠ [])
      [(py "b", [CommittedFile.mk (py "b") (py "g") 3 4 false false])].
Proof.
  assert (_get_commits_files Scenario.literal_re Scenario.ascii_isnumeric Scenario.ascii_int
            Scenario.commits_log
          = inr [(py "b", [CommittedFile.mk (py "b") (py "g") 3 4 false false])]) as H
    by (vm_compute; reflexivity).
  split; [exact H|].
  exact (get_commits_files_entries Scenario.literal_re Scenario.ascii_isnumeric
           Scenario.ascii_int _ _ H).
Defined.
